(** * The DynamoDB log store integration test, and the commit protocol it drives

    Source: [storage-dynamodb/integration_tests/dynamodb_logstore.py].

    The script reads its settings from the process environment, creates a
    Delta table, starts reader threads that poll the number of rows of the
    current run, hands [num_rows] single-row appends to a thread pool, stops
    the readers, counts once more, asserts the count and prints a throughput
    figure.  The first part of this file embeds the script: the settings as a
    pure function of the environment, the threads as an interleaving of atomic
    steps.  The second part ([Module LogStore]) models the commit protocol of
    the log store that the script exercises.  The third part
    ([Module ApiDocs]) embeds [docs/generate_api_docs.py], the script that
    patches the generated API documentation. *)

From Stdlib Require Import ZArith QArith List String Ascii Lia Bool.
From stdpp Require Import base option list strings gmap pretty sorting.

Local Open Scope string_scope.
Local Open Scope list_scope.
Local Open Scope Z_scope.

(** ** Python values and exceptions *)

(** The exceptions that can end the script.  [LibraryError] stands for any
    exception raised inside Spark, Delta or boto3; a bare [assert] raises
    [AssertionError] without arguments, [assert c, m] would carry [m]. *)
Inductive Exn :=
| ValueError
| AssertionError (msg : option string)
| ZeroDivisionError
| IndexError
| OverflowError
| LibraryError.

Inductive result (A : Type) :=
| Ok (a : A)
| Raise (e : Exn).
Arguments Ok {A} a.
Arguments Raise {A} e.

Definition bind {A B} (r : result A) (k : A → result B) : result B :=
  match r with
  | Ok a => k a
  | Raise e => Raise e
  end.

Notation "'do' x <- r ; k" := (bind r (λ x, k))
  (at level 10, x name, r at level 100, k at level 200).

(** What [os.environ.get(key, default)] can return in this script: a string
    read from the environment or the integer given as default. *)
Inductive pyval :=
| VStr (s : string)
| VInt (z : Z).

(** ** The interpreter *)

(** What the script takes from the interpreter that runs it. *)
Record Python := {
  (** [sys.get_int_max_str_digits()]: 4300 unless it was set otherwise, 0
      when there is no limit *)
  int_max_str_digits : nat;
  (** [int(s)] for a text that has a character outside ASCII: the result
      depends on how the environment was decoded and on the Unicode tables
      of white space and decimal digits *)
  int_non_ascii : string → result Z;
  (** [sys.maxsize] *)
  maxsize : Z;
}.

(** ** [int(...)] *)

Definition nl : string := String (ascii_of_nat 10) EmptyString.

(** White space as [int] skips it around an ASCII literal: tab, line feed,
    vertical tab, form feed, carriage return and blank. *)
Definition is_space (c : ascii) : bool :=
  let n := nat_of_ascii c in
  ((9 <=? n)%nat && (n <=? 13)%nat) || (n =? 32)%nat.

Definition digit_of (c : ascii) : option Z :=
  let n := nat_of_ascii c in
  if ((48 <=? n)%nat && (n <=? 57)%nat) then Some (Z.of_nat n - 48) else None.

Fixpoint lstrip (s : string) : string :=
  match s with
  | String c r => if is_space c then lstrip r else s
  | EmptyString => s
  end.

Definition strip (s : string) : string :=
  String.rev (lstrip (String.rev (lstrip s))).

(** Decimal digits, single underscores allowed between two digits.
    [after_digit] tells whether the previous character was a digit. *)
Fixpoint digits (acc : Z) (after_digit : bool) (s : string) : option Z :=
  match s with
  | EmptyString => if after_digit then Some acc else None
  | String c r =>
      match digit_of c with
      | Some d => digits (10 * acc + d) true r
      | None =>
          if (Ascii.eqb c "_"%char && after_digit)%bool
          then digits acc false r
          else None
      end
  end.

(** The digits of a literal, underscores left out. *)
Fixpoint digit_count (s : string) : nat :=
  match s with
  | EmptyString => 0
  | String c r => (if digit_of c then 1 else 0) + digit_count r
  end.

Fixpoint is_ascii_text (s : string) : bool :=
  match s with
  | EmptyString => true
  | String c r => (nat_of_ascii c <? 128)%nat && is_ascii_text r
  end.

(** A literal of more than 640 digits is refused when a limit is set and
    the literal has more digits than the limit. *)
Definition too_many_digits (py : Python) (n : nat) : bool :=
  (640 <? n)%nat && (0 <? int_max_str_digits py)%nat
  && (int_max_str_digits py <? n)%nat.

(** [int(s)].  For an ASCII text: surrounding white space, an optional
    sign, then a decimal literal that is not too long; anything else is a
    [ValueError]. *)
Definition int_of_str (py : Python) (s : string) : result Z :=
  if is_ascii_text s then
    let body := strip s in
    let literal :=
      match body with
      | String "-"%char r => r
      | String "+"%char r => r
      | _ => body
      end in
    let parsed :=
      match body with
      | String "-"%char r => Z.opp <$> digits 0 false r
      | String "+"%char r => digits 0 false r
      | _ => digits 0 false body
      end in
    match parsed with
    | Some z =>
        if too_many_digits py (digit_count literal) then Raise ValueError
        else Ok z
    | None => Raise ValueError
    end
  else int_non_ascii py s.

Definition py_int (py : Python) (v : pyval) : result Z :=
  match v with
  | VInt z => Ok z
  | VStr s => int_of_str py s
  end.

(** ** Settings (lines 46-55) *)

(** [os.environ]. *)
Abbreviation Environ := (gmap string string).

Definition environ_get (env : Environ) (key : string) (default : pyval) : pyval :=
  match env !! key with
  | Some s => VStr s
  | None => default
  end.

Definition environ_get_str (env : Environ) (key dflt : string) : string :=
  default dflt (env !! key).

(** The module-level settings.  [delta_table_path] is [None] when the
    variable is not set: the script tests for that only after all settings
    have been read. *)
Record Config := {
  delta_table_path : option string;
  concurrent_writers : Z;
  concurrent_readers : Z;
  num_rows : Z;
  delta_storage : string;
  dynamo_table_name : string;
  dynamo_region : string;
  dynamo_error_rates : string;
}.

Definition load_config (py : Python) (env : Environ) : result Config :=
  let path := env !! "DELTA_TABLE_PATH" in
  do writers <- py_int py (environ_get env "DELTA_CONCURRENT_WRITERS" (VInt 2));
  do readers <- py_int py (environ_get env "DELTA_CONCURRENT_READERS" (VInt 2));
  do rows <- py_int py (environ_get env "DELTA_NUM_ROWS" (VInt 16));
  Ok {| delta_table_path := path;
        concurrent_writers := writers;
        concurrent_readers := readers;
        num_rows := rows;
        delta_storage :=
          environ_get_str env "DELTA_STORAGE" "io.delta.storage.DynamoDBLogStore";
        dynamo_table_name := environ_get_str env "DELTA_DYNAMO_TABLE" "delta_log_test";
        dynamo_region := environ_get_str env "DELTA_DYNAMO_REGION" "us-west-2";
        dynamo_error_rates := environ_get_str env "DELTA_DYNAMO_ERROR_RATES" "" |}.

(** ** Output *)

(** One [print] call.  The throughput line is [f"{q:.02f} tx / sec"]: it is
    kept as the quotient it shows, the float rounding and the two-decimal
    formatting are not unfolded. *)
Inductive Line :=
| LText (s : string)
| LThroughput (q : Q).

Definition script_name : string := "dynamodb_logstore.py".

(** Lines 58-59. *)
Definition skip_message : string :=
  nl +:+ "Skipping Python test " +:+ script_name
     +:+ " due to the missing env variable `DELTA_TABLE_PATH`"
     +:+ nl +:+ "=====================".

(** Lines 62-72; [path] is the value of [delta_table_path]. *)
Definition test_log (cfg : Config) (path : string) : string :=
  nl +:+ "--- LOG ---" +:+ nl +:+ nl
  +:+ "delta table path: " +:+ path +:+ nl
  +:+ "concurrent writers: " +:+ pretty (concurrent_writers cfg) +:+ nl
  +:+ "concurrent readers: " +:+ pretty (concurrent_readers cfg) +:+ nl
  +:+ "number of rows: " +:+ pretty (num_rows cfg) +:+ nl
  +:+ "delta storage: " +:+ delta_storage cfg +:+ nl
  +:+ "dynamo table name: " +:+ dynamo_table_name cfg +:+ nl
  +:+ (if decide (dynamo_error_rates cfg = "") then ""
       else "dynamo_error_rates: " +:+ dynamo_error_rates cfg) +:+ nl
  +:+ "=====================" +:+ nl.

(** Line 115. *)
Definition reading_line (cnt : Z) : string :=
  "Reading " +:+ pretty cnt +:+ " rows ...".

(** Line 136. *)
Definition written_line (actual : Z) : string :=
  "Number of written rows: " +:+ pretty actual.

(** ** The table and the world around the script *)

(** [SCHEMA = "run_id: string, id: int, a: int"]. *)
Record Row := {
  run_id : string;
  id : Z;
  a : Z;
}.

Global Instance Row_eq_dec : EqDecision Row.
Proof. solve_decision. Defined.

(** The Delta table behind [delta_table_path], as the script uses it: a
    state of some type [T] with the two calls the script makes.  Which log
    store class serves the table is a setting, so the script is embedded
    over any implementation; a call may raise, and may change the state
    either way. *)
Class DeltaTable (T : Type) := {
  (** [df.write.format("delta").mode("append")...save(path)] for a data
      frame holding [rows]; [false] when the call raises. *)
  save_append : list Row → T → T * bool;
  (** [spark.read.format("delta").load(path)], evaluated by an action;
      [None] when it raises. *)
  load : T → T * option (list Row);
}.

(** A table that behaves as Delta documents it: an append adds the rows
    atomically, a load sees every row appended so far. *)
Global Instance ideal_table : DeltaTable (list Row) := {
  save_append rows tb := (tb ++ rows, true);
  load tb := (tb, Some tb);
}.

(** Everything the script obtains from outside that is not the table. *)
Record World := {
  (** [str(uuid.uuid4())] at line 88 *)
  uuid4 : string;
  (** the value [random.randrange(2**16)] yields inside [write_tx(n)] *)
  randrange : nat → Z;
  (** whether [SparkSession...getOrCreate()] returns *)
  session_ok : bool;
  (** the value of the [k]-th call of [time.time()] *)
  time_time : nat → Q;
  (** lines 142-150: the items of the DynamoDB table scan, each as printed *)
  ddb_scan : result (list string);
  (** the interpreter *)
  python : Python;
}.

(** [random.randrange(2**16)] returns an integer of [range(2**16)]. *)
Definition randrange_ok (w : World) : Prop :=
  ∀ n, 0 ≤ randrange w n < 2 ^ 16.

(** ** The script as a system of threads

    The main thread runs the module body; each reader thread runs
    [read_data]; the pool's worker threads run [write_tx] on the numbers of
    [range(num_rows)].  One step is one statement (one library call) of one
    thread; the threads interleave freely.  Every call a thread makes is
    recorded in the trace of the state, in the order the calls happen. *)

(** Who takes a step.  [Writer n] is the pool worker that has been handed
    [write_tx(n)].  [Pool.map] hands the numbers out in chunks, and a worker
    drops the rest of a chunk when one call in it raises: which worker runs
    which number, and in what order, is left open here, and [Abandon n] is
    the pool giving up on a call that was never started. *)
Inductive Actor :=
| Main
| Reader (i : nat)
| Writer (n : nat)
| Abandon (n : nat).

Global Instance Actor_eq_dec : EqDecision Actor.
Proof. solve_decision. Defined.

(** The calls that are recorded. *)
Inductive Action :=
| APrint (l : Line)                            (* print(...) *)
| AExit (code : Z)                             (* sys.exit(code) *)
| ASession (ok : bool)                         (* SparkSession...getOrCreate() *)
| ASave (rows : list Row) (ok : bool)          (* ...mode("append")...save(path) *)
| ALoad (rows : option (list Row))             (* spark.read...load(path)...count() *)
| AStart (i : nat)                             (* thread.start() *)
| APool (ok : bool)                            (* ThreadPool(concurrent_writers) *)
| ATime (t : Q)                                (* time.time() *)
| AMap (ok : bool)                             (* pool.map(...) returns or raises *)
| ASet                                         (* stop_reading.set() *)
| AIsSet (b : bool)                            (* stop_reading.is_set() *)
| ASleep (secs : Z)                            (* time.sleep(secs) *)
| AJoin (i : nat)                              (* thread.join() *)
| AAssert (ok : bool)                          (* assert actual == num_rows *)
| AScan (ok : bool).                           (* table.scan() *)

(** Where the main thread stands: the statement it executes next. *)
Inductive MainPc :=
| PStart                       (* line 57 *)
| PSession                     (* lines 75-88 *)
| PCreate                      (* lines 90-93 *)
| PSpawn                       (* line 125 *)
| PPool                        (* line 127 *)
| PTimer                       (* line 128 *)
| PMap                         (* line 129, handing out the calls *)
| PWait                        (* line 129, waiting for the results *)
| PSetStop                     (* line 130 *)
| PJoin (k : nat)              (* lines 132-133, at [read_threads[k]] *)
| PCount                       (* line 135 *)
| PPrintActual (actual : Z)    (* line 136 *)
| PAssert (actual : Z)         (* line 137 *)
| PElapsed                     (* line 139 *)
| PReport (t : Q)              (* line 140 *)
| PScan                        (* lines 142-150 *)
| PPrintItem (items : list string)   (* line 151 *)
| PDone                        (* end of the module *)
| PExit (code : Z)             (* left through sys.exit *)
| PRaised (e : Exn).           (* ended by an uncaught exception *)

(** Where a reader thread stands in [read_data]. *)
Inductive ReaderPc :=
| RTest                        (* line 113 *)
| RCount                       (* line 114 *)
| RPrint (cnt : Z)             (* line 115 *)
| RSleep                       (* line 116 *)
| RReturned                    (* the loop was left *)
| RDied.                       (* [count()] raised in the thread *)

(** One call [write_tx(n)] of [pool.map(write_tx, range(num_rows))]. *)
Inductive TaskSt :=
| Pending
| Running
| Done
| Failed
| Dropped.

Global Instance ReaderPc_eq_dec : EqDecision ReaderPc.
Proof. solve_decision. Defined.
Global Instance TaskSt_eq_dec : EqDecision TaskSt.
Proof. solve_decision. Defined.

Definition terminated (r : ReaderPc) : bool :=
  match r with
  | RReturned | RDied => true
  | _ => false
  end.

Definition finished (t : TaskSt) : bool :=
  match t with
  | Done | Failed | Dropped => true
  | _ => false
  end.

Definition is_running (t : TaskSt) : bool :=
  match t with Running => true | _ => false end.

Definition is_failed (t : TaskSt) : bool :=
  match t with Failed => true | _ => false end.

Section Harness.
Context {T : Type} `{!DeltaTable T}.
Variable cfg : Config.
Variable w : World.

Record State := MkState {
  main : MainPc;
  table : T;
  stop_reading : bool;                 (* the threading.Event *)
  read_threads : list ReaderPc;
  tasks : list TaskSt;                 (* entry [n] is [write_tx(n)] *)
  start_t : option Q;
  trace : list (Actor * Action);
}.

Definition init (tb : T) : State :=
  MkState PStart tb false [] [] None [].

Definition goto (pc : MainPc) (s : State) : State :=
  MkState pc (table s) (stop_reading s) (read_threads s) (tasks s)
          (start_t s) (trace s).
Definition with_table (tb : T) (s : State) : State :=
  MkState (main s) tb (stop_reading s) (read_threads s) (tasks s)
          (start_t s) (trace s).
Definition with_stop (b : bool) (s : State) : State :=
  MkState (main s) (table s) b (read_threads s) (tasks s)
          (start_t s) (trace s).
Definition with_readers (rs : list ReaderPc) (s : State) : State :=
  MkState (main s) (table s) (stop_reading s) rs (tasks s)
          (start_t s) (trace s).
Definition with_tasks (ts : list TaskSt) (s : State) : State :=
  MkState (main s) (table s) (stop_reading s) (read_threads s) ts
          (start_t s) (trace s).
Definition with_start_t (t : Q) (s : State) : State :=
  MkState (main s) (table s) (stop_reading s) (read_threads s) (tasks s)
          (Some t) (trace s).
Definition emit (who : Actor) (act : Action) (s : State) : State :=
  MkState (main s) (table s) (stop_reading s) (read_threads s) (tasks s)
          (start_t s) (trace s ++ [(who, act)]).

(** Line 88. *)
Definition RUN_ID : string := uuid4 w.

(** The rows of the data frame built at line 97. *)
Definition write_tx_rows (n : nat) : list Row :=
  [ {| run_id := RUN_ID; id := randrange w n; a := Z.of_nat n |} ].

(** [.filter(F.col("run_id") == RUN_ID).count()] on the loaded rows. *)
Definition count_rows (rows : list Row) : Z :=
  Z.of_nat (length (filter (λ r, run_id r = RUN_ID) rows)).

(** What standard output shows. *)
Definition printed (e : Actor * Action) : option Line :=
  match e.2 with
  | APrint l => Some l
  | _ => None
  end.
Definition stdout (s : State) : list Line := omap printed (trace s).

Definition running_tasks (s : State) : nat :=
  length (filter (λ t, t = Running) (tasks s)).

(** The module body, lines 57-151. *)
Definition step_main (s : State) : option State :=
  match main s with
  | PStart =>
      match delta_table_path cfg with
      | None =>
          Some (emit Main (AExit 0)
                 (emit Main (APrint (LText skip_message)) (goto (PExit 0) s)))
      | Some path =>
          Some (emit Main (APrint (LText (test_log cfg path))) (goto PSession s))
      end
  | PSession =>
      Some (emit Main (ASession (session_ok w))
             (goto (if session_ok w then PCreate else PRaised LibraryError) s))
  | PCreate =>
      let '(tb, ok) := save_append [] (table s) in
      Some (emit Main (ASave [] ok)
             (with_table tb (goto (if ok then PSpawn else PRaised LibraryError) s)))
  | PSpawn =>
      if decide (Z.of_nat (length (read_threads s)) < concurrent_readers cfg)
      then Some (emit Main (AStart (length (read_threads s)))
                  (with_readers (read_threads s ++ [RTest]) s))
      else Some (goto PPool s)
  | PPool =>
      if decide (concurrent_writers cfg < 1)
      then Some (emit Main (APool false) (goto (PRaised ValueError) s))
      else Some (emit Main (APool true) (goto PTimer s))
  | PTimer =>
      let t := time_time w 0 in
      Some (emit Main (ATime t) (with_start_t t (goto PMap s)))
  | PMap =>
      (* [pool.map] takes [len(range(num_rows))] first *)
      if decide (maxsize (python w) < num_rows cfg)
      then Some (emit Main (AMap false) (goto (PRaised OverflowError) s))
      else Some (with_tasks (replicate (Z.to_nat (num_rows cfg)) Pending)
                   (goto PWait s))
  | PWait =>
      if forallb finished (tasks s)
      then if existsb is_failed (tasks s)
           then Some (emit Main (AMap false) (goto (PRaised LibraryError) s))
           else Some (emit Main (AMap true) (goto PSetStop s))
      else None
  | PSetStop =>
      Some (emit Main ASet (with_stop true (goto (PJoin 0) s)))
  | PJoin k =>
      match read_threads s !! k with
      | Some r =>
          if terminated r
          then Some (emit Main (AJoin k) (goto (PJoin (S k)) s))
          else None
      | None => Some (goto PCount s)
      end
  | PCount =>
      let '(tb, r) := load (table s) in
      Some (emit Main (ALoad r)
             (with_table tb
                (goto (match r with
                       | Some rows => PPrintActual (count_rows rows)
                       | None => PRaised LibraryError
                       end) s)))
  | PPrintActual actual =>
      Some (emit Main (APrint (LText (written_line actual))) (goto (PAssert actual) s))
  | PAssert actual =>
      if decide (actual = num_rows cfg)
      then Some (emit Main (AAssert true) (goto PElapsed s))
      else Some (emit Main (AAssert false) (goto (PRaised (AssertionError None)) s))
  | PElapsed =>
      match start_t s with
      | Some t0 =>
          let t1 := time_time w 1 in
          Some (emit Main (ATime t1) (goto (PReport (Qminus t1 t0)) s))
      | None => None
      end
  | PReport t =>
      if Qeq_bool t 0
      then Some (goto (PRaised ZeroDivisionError) s)
      else Some (emit Main (APrint (LThroughput (Qdiv (inject_Z (num_rows cfg)) t)))
                  (goto PScan s))
  | PScan =>
      match ddb_scan w with
      | Ok items => Some (emit Main (AScan true) (goto (PPrintItem items) s))
      | Raise e => Some (emit Main (AScan false) (goto (PRaised e) s))
      end
  | PPrintItem items =>
      match last items with
      | Some it => Some (emit Main (APrint (LText it)) (goto PDone s))
      | None => Some (goto (PRaised IndexError) s)
      end
  | PDone | PExit _ | PRaised _ => None
  end.

(** [read_data], lines 112-116, run by reader thread [i]. *)
Definition step_reader (i : nat) (s : State) : option State :=
  match read_threads s !! i with
  | Some RTest =>
      let b := stop_reading s in
      Some (emit (Reader i) (AIsSet b)
             (with_readers (<[i := if b then RReturned else RCount]> (read_threads s)) s))
  | Some RCount =>
      let '(tb, r) := load (table s) in
      Some (emit (Reader i) (ALoad r)
             (with_table tb
               (with_readers (<[i := match r with
                                     | Some rows => RPrint (count_rows rows)
                                     | None => RDied
                                     end]> (read_threads s)) s)))
  | Some (RPrint cnt) =>
      Some (emit (Reader i) (APrint (LText (reading_line cnt)))
             (with_readers (<[i := RSleep]> (read_threads s)) s))
  | Some RSleep =>
      Some (emit (Reader i) (ASleep 1)
             (with_readers (<[i := RTest]> (read_threads s)) s))
  | Some RReturned | Some RDied | None => None
  end.

(** [write_tx(n)], lines 96-98, on a pool worker.  A call starts only
    while fewer than [concurrent_writers] calls are running. *)
Definition step_writer (n : nat) (s : State) : option State :=
  match tasks s !! n with
  | Some Pending =>
      if decide (Z.of_nat (running_tasks s) < concurrent_writers cfg)
      then Some (with_tasks (<[n := Running]> (tasks s)) s)
      else None
  | Some Running =>
      let rows := write_tx_rows n in
      let '(tb, ok) := save_append rows (table s) in
      Some (emit (Writer n) (ASave rows ok)
             (with_table tb
               (with_tasks (<[n := if ok then Done else Failed]> (tasks s)) s)))
  | _ => None
  end.

(** A call that has not started is given up once some call has raised. *)
Definition step_abandon (n : nat) (s : State) : option State :=
  match tasks s !! n with
  | Some Pending =>
      if existsb is_failed (tasks s)
      then Some (with_tasks (<[n := Dropped]> (tasks s)) s)
      else None
  | _ => None
  end.

Definition step (who : Actor) (s : State) : option State :=
  match who with
  | Main => step_main s
  | Reader i => step_reader i s
  | Writer n => step_writer n s
  | Abandon n => step_abandon n s
  end.

(** Runs the threads in the order a schedule names them. *)
Fixpoint run (sched : list Actor) (s : State) : option State :=
  match sched with
  | [] => Some s
  | who :: rest =>
      match step who s with
      | Some s' => run rest s'
      | None => None
      end
  end.

(** The states an execution that starts on table [tb] can be in. *)
Inductive reachable (tb : T) : State → Prop :=
| reach_init : reachable tb (init tb)
| reach_step s who s' :
    reachable tb s → step who s = Some s' → reachable tb s'.

(** *** What holds of every state an execution reaches *)

Definition all_finished (s : State) : Prop :=
  ∀ n t, tasks s !! n = Some t → finished t = true.
Definition all_done (s : State) : Prop :=
  ∀ n t, tasks s !! n = Some t → t = Done.
Definition all_terminated (s : State) : Prop :=
  ∀ i r, read_threads s !! i = Some r → terminated r = true.

(** [time.time() - start_t] at line 139. *)
Definition elapsed : Q := Qminus (time_time w 1) (time_time w 0).

(** The shape of a state, by the statement the main thread stands at. *)
Definition wf (s : State) : Prop :=
  (stop_reading s = true →
     all_done s ∧ length (tasks s) = Z.to_nat (num_rows cfg)) ∧
  (∀ n, tasks s !! n = Some Dropped → ∃ m, tasks s !! m = Some Failed) ∧
  match main s with
  | PStart | PSession | PCreate =>
      read_threads s = [] ∧ tasks s = [] ∧ stop_reading s = false ∧ start_t s = None
  | PSpawn =>
      Z.of_nat (length (read_threads s)) ≤ Z.max 0 (concurrent_readers cfg) ∧
      tasks s = [] ∧ stop_reading s = false ∧ start_t s = None
  | PPool | PTimer =>
      length (read_threads s) = Z.to_nat (concurrent_readers cfg) ∧
      tasks s = [] ∧ stop_reading s = false ∧ start_t s = None
  | PMap =>
      length (read_threads s) = Z.to_nat (concurrent_readers cfg) ∧
      tasks s = [] ∧ stop_reading s = false ∧ start_t s = Some (time_time w 0)
  | PWait =>
      length (read_threads s) = Z.to_nat (concurrent_readers cfg) ∧
      length (tasks s) = Z.to_nat (num_rows cfg) ∧
      stop_reading s = false ∧ start_t s = Some (time_time w 0)
  | PSetStop =>
      length (read_threads s) = Z.to_nat (concurrent_readers cfg) ∧
      length (tasks s) = Z.to_nat (num_rows cfg) ∧ all_done s ∧
      stop_reading s = false ∧ start_t s = Some (time_time w 0)
  | PJoin k =>
      length (read_threads s) = Z.to_nat (concurrent_readers cfg) ∧
      stop_reading s = true ∧ start_t s = Some (time_time w 0) ∧
      (k ≤ length (read_threads s))%nat ∧
      (∀ i r, (i < k)%nat → read_threads s !! i = Some r → terminated r = true)
  | PReport t =>
      length (read_threads s) = Z.to_nat (concurrent_readers cfg) ∧
      stop_reading s = true ∧ start_t s = Some (time_time w 0) ∧
      all_terminated s ∧ t = elapsed
  | PCount | PPrintActual _ | PAssert _ | PElapsed | PScan | PPrintItem _ | PDone =>
      length (read_threads s) = Z.to_nat (concurrent_readers cfg) ∧
      stop_reading s = true ∧ start_t s = Some (time_time w 0) ∧
      all_terminated s
  | PExit _ =>
      read_threads s = [] ∧ tasks s = [] ∧ stop_reading s = false
  | PRaised _ => True
  end.

(** *** Reading the trace *)

(** The calls one thread made, in order. *)
Definition acts (who : Actor) (s : State) : list Action :=
  omap (λ e, if decide (e.1 = who) then Some e.2 else None) (trace s).

(** The results of the main thread's [count()] calls. *)
Definition main_loads (s : State) : list (option (list Row)) :=
  omap (λ e, match e with (Main, ALoad r) => Some r | _ => None end) (trace s).

(** The record sets the main thread saved. *)
Definition main_saves (s : State) : list (list Row) :=
  omap (λ e, match e with (Main, ASave rows _) => Some rows | _ => None end) (trace s).

(** The throughput figures printed. *)
Definition tput_lines (s : State) : list Q :=
  omap (λ l, match l with LThroughput q => Some q | _ => None end) (stdout s).

(** The rows the writers' appends committed, in commit order. *)
Definition written (s : State) : list Row :=
  mjoin (omap (λ e, match e with
                    | (Writer _, ASave rows true) => Some rows
                    | _ => None
                    end) (trace s)).

(** The figure line 140 prints. *)
Definition throughput : Q := Qdiv (inject_Z (num_rows cfg)) elapsed.

(** What the trace holds, by the statement the main thread stands at. *)
Definition tinv (s : State) : Prop :=
  (∀ e, e ∈ trace s → ∀ n rows ok, e = (Writer n, ASave rows ok) → rows = write_tx_rows n) ∧
  match main s with
  | PStart => trace s = []
  | PSession | PCreate =>
      (∃ path, delta_table_path cfg = Some path ∧
               head (stdout s) = Some (LText (test_log cfg path))) ∧
      main_saves s = [] ∧ main_loads s = [] ∧ tput_lines s = []
  | PSpawn | PPool | PTimer | PMap | PWait | PSetStop | PJoin _ | PCount =>
      (∃ path, delta_table_path cfg = Some path ∧
               head (stdout s) = Some (LText (test_log cfg path))) ∧
      main_saves s = [[]] ∧ main_loads s = [] ∧ tput_lines s = []
  | PPrintActual actual =>
      (∃ path, delta_table_path cfg = Some path ∧
               head (stdout s) = Some (LText (test_log cfg path))) ∧
      main_saves s = [[]] ∧ tput_lines s = [] ∧
      ∃ rows, main_loads s = [Some rows] ∧ actual = count_rows rows
  | PAssert actual =>
      (∃ path, delta_table_path cfg = Some path ∧
               head (stdout s) = Some (LText (test_log cfg path))) ∧
      main_saves s = [[]] ∧ tput_lines s = [] ∧
      (∃ rows, main_loads s = [Some rows] ∧ actual = count_rows rows) ∧
      last (stdout s) = Some (LText (written_line actual))
  | PElapsed | PReport _ =>
      main_saves s = [[]] ∧ tput_lines s = [] ∧
      ∃ rows, main_loads s = [Some rows] ∧ count_rows rows = num_rows cfg
  | PScan | PPrintItem _ | PDone =>
      main_saves s = [[]] ∧ tput_lines s = [throughput] ∧
      ∃ rows, main_loads s = [Some rows] ∧ count_rows rows = num_rows cfg
  | PExit code =>
      code = 0 ∧ delta_table_path cfg = None ∧
      trace s = [(Main, APrint (LText skip_message)); (Main, AExit 0)]
  | PRaised _ =>
      (main_saves s = [] ∨ main_saves s = [[]]) ∧
      (length (main_loads s) ≤ 1)%nat ∧
      (tput_lines s = [] ∨ tput_lines s = [throughput])
  end.

(** *** What the specification asks of a reader

    Poll the number of visible rows of the run, print it as a progress
    line, wait one interval, and again, until the stop signal is seen. *)

(** One full round of polling. *)
Definition poll_round (rows : list Row) : list Action :=
  [AIsSet false; ALoad (Some rows);
   APrint (LText (reading_line (count_rows rows))); ASleep 1].

(** Any number of full rounds. *)
Inductive poll_rounds : list Action → Prop :=
| rounds_nil : poll_rounds []
| rounds_snoc acts rows :
    poll_rounds acts → poll_rounds (acts ++ poll_round rows).

(** The calls of the round a reader is in, by where it stands. *)
Definition round_so_far (r : ReaderPc) (tail : list Action) : Prop :=
  match r with
  | RTest => tail = []
  | RCount => tail = [AIsSet false]
  | RPrint cnt =>
      ∃ rows, cnt = count_rows rows ∧ tail = [AIsSet false; ALoad (Some rows)]
  | RSleep =>
      ∃ rows, tail = [AIsSet false; ALoad (Some rows);
                      APrint (LText (reading_line (count_rows rows)))]
  | RReturned => tail = [AIsSet true]
  | RDied => tail = [AIsSet false; ALoad None]
  end.

Definition polling (r : ReaderPc) (history : list Action) : Prop :=
  ∃ rounds tail,
    history = rounds ++ tail ∧ poll_rounds rounds ∧ round_so_far r tail.

(** Every reader has followed that discipline so far, and a reader saw the
    stop signal only once it had been given. *)
Definition rinv (s : State) : Prop :=
  (∀ i, match read_threads s !! i with
        | Some r => polling r (acts (Reader i) s)
        | None => acts (Reader i) s = []
        end) ∧
  (∀ i, (Reader i, AIsSet true) ∈ trace s → stop_reading s = true).

(** The calls that have committed. *)
Definition done_tasks (s : State) : nat :=
  length (filter (λ t, t = Done) (tasks s)).

End Harness.

(** The state of the script over a table that behaves as documented: the
    table holds what it held before plus what the writers committed, the
    writers' commits are the calls that are done, and the final count saw
    the table as it is. *)
Definition ideal_inv (cfg : Config) (w : World) (tb : list Row)
    (s : @State (list Row)) : Prop :=
  table s = tb ++ written s ∧
  length (written s) = done_tasks s ∧
  (main_loads s = [] ∨
   (stop_reading s = true ∧ main_loads s = [Some (table s)])).

(** ** The script as a whole *)

(** Lines 46-55 run first; when one of the conversions raises, the script
    ends there and no state of the thread system is ever reached. *)
Definition script_reachable {T : Type} `{!DeltaTable T}
    (env : Environ) (w : World) (tb : T) (s : State) : Prop :=
  ∃ cfg, load_config (python w) env = Ok cfg ∧ reachable cfg w tb s.

(** ** Sample runs *)

(** Only the table path is set. *)
Definition env_defaults : Environ :=
  {[ "DELTA_TABLE_PATH" := "s3a://test-bucket/delta-test/" ]}.

(** No table path, and a row count that is not a number. *)
Definition env_no_path_bad_rows : Environ :=
  {[ "DELTA_NUM_ROWS" := "abc" ]}.

(** No table path, eight rows asked for. *)
Definition env_no_path : Environ :=
  {[ "DELTA_NUM_ROWS" := "8" ]}.

(** Three transactions, one reader. *)
Definition env_small : Environ :=
  {[ "DELTA_TABLE_PATH" := "s3a://test-bucket/delta-test/";
     "DELTA_NUM_ROWS" := "3";
     "DELTA_CONCURRENT_READERS" := "1" ]}.

Definition cfg_defaults : Config :=
  {| delta_table_path := Some "s3a://test-bucket/delta-test/";
     concurrent_writers := 2;
     concurrent_readers := 2;
     num_rows := 16;
     delta_storage := "io.delta.storage.DynamoDBLogStore";
     dynamo_table_name := "delta_log_test";
     dynamo_region := "us-west-2";
     dynamo_error_rates := "" |}.

Definition cfg_small : Config :=
  {| delta_table_path := Some "s3a://test-bucket/delta-test/";
     concurrent_writers := 2;
     concurrent_readers := 1;
     num_rows := 3;
     delta_storage := "io.delta.storage.DynamoDBLogStore";
     dynamo_table_name := "delta_log_test";
     dynamo_region := "us-west-2";
     dynamo_error_rates := "" |}.

Definition cfg_no_path : Config :=
  {| delta_table_path := None;
     concurrent_writers := 2;
     concurrent_readers := 2;
     num_rows := 8;
     delta_storage := "io.delta.storage.DynamoDBLogStore";
     dynamo_table_name := "delta_log_test";
     dynamo_region := "us-west-2";
     dynamo_error_rates := "" |}.

(** An interpreter on a 64-bit machine with the limit on digits as it
    comes, in a locale where [int] refuses every text outside ASCII. *)
Definition python_sample : Python :=
  {| int_max_str_digits := 4300;
     int_non_ascii := λ _, Raise ValueError;
     maxsize := 2 ^ 63 - 1 |}.

(** A world in which every draw of [random.randrange(2**16)] is 7, the
    clock reads 10 and then 12 seconds, and the scan finds one item. *)
Definition world_sample : World :=
  {| uuid4 := "6f1c2a9e-0000-4000-8000-000000000001";
     randrange := λ _, 7;
     session_ok := true;
     time_time := λ k, inject_Z (10 + 2 * Z.of_nat k);
     ddb_scan := Ok ["{'tableName': 'delta-test', 'fileName': '00000000000000000003.json'}"];
     python := python_sample |}.

(** A table that acknowledges every append and keeps none of the rows. *)
Record LossyTable := { kept : list Row }.

Global Instance lossy_table : DeltaTable LossyTable := {
  save_append rows tb := (tb, true);
  load tb := (tb, Some (kept tb));
}.

(** The main thread up to [pool.map], for [r] readers. *)
Definition sched_start (r : nat) : list Actor :=
  replicate (3 + r + 4) Main.


(** The main thread returns from [pool.map] and gives the stop signal, each
    reader sees it, the main thread joins them and moves to the count. *)
Definition sched_stop (r : nat) : list Actor :=
  [Main; Main] ++ map Reader (seq 0 r) ++ replicate (r + 1) Main.

(** One reader polls once while the first of three calls commits; then
    everything as above, the main thread stopping at the final count. *)
Definition sched_small_to_count : list Actor :=
  sched_start 1 ++ [Reader 0; Writer 0; Reader 0; Writer 0; Reader 0; Reader 0]
  ++ [Writer 1; Writer 2; Writer 1; Writer 2] ++ sched_stop 1.

(** The reader polls once after the first call has committed. *)
Definition sched_small_polled : list Actor :=
  sched_start 1 ++ [Writer 0; Writer 0; Reader 0; Reader 0; Reader 0; Reader 0]
  ++ [Writer 1; Writer 2; Writer 1; Writer 2] ++ sched_stop 1.

(** ... and on to the end of the script. *)
Definition sched_small_full : list Actor :=
  sched_small_to_count ++ replicate 7 Main.


(** The state a schedule leads to from the start; the start itself when
    the schedule cannot be run. *)
Definition state_after {T : Type} `{!DeltaTable T}
    (cfg : Config) (w : World) (sched : list Actor) (tb : T) : State :=
  default (init tb) (run cfg w sched (init tb)).

(** A table that already holds a row of an earlier run. *)
Definition tb_earlier_run : list Row :=
  [ {| run_id := "0b7d5c3e-0000-4000-8000-00000000000f"; id := 41; a := 0 |} ].

Definition s_small_at_count : @State (list Row) :=
  state_after cfg_small world_sample sched_small_to_count tb_earlier_run.

Definition s_small_polled : @State (list Row) :=
  state_after cfg_small world_sample sched_small_polled tb_earlier_run.

Definition s_small_done : @State (list Row) :=
  state_after cfg_small world_sample sched_small_full tb_earlier_run.


(** On the lossy table, at the assertion and right after it. *)
Definition s_lossy_at_assert : @State LossyTable :=
  state_after cfg_small world_sample (sched_small_to_count ++ [Main; Main])
              {| kept := [] |}.

Definition s_lossy_failed : @State LossyTable :=
  state_after cfg_small world_sample (sched_small_to_count ++ [Main; Main; Main])
              {| kept := [] |}.

(** * The log store behind the table

    The class named by [delta_storage] is not part of the sources at hand;
    the script only drives it.  This module follows the specification of
    its commit protocol: a writer stages the payload in a temporary object,
    claims the version in the ledger with a conditional insert, copies the
    payload to the canonical path and marks the entry complete; a reader
    that meets an incomplete entry finishes the copy itself.  Writers and
    recovering readers interleave at the granularity of single calls to the
    object store and to the ledger, and every call may be hit by a fault. *)
Module LogStore.

(** [(logId, version)]. *)
Definition Key : Type := string * nat.

(** Modelled from the spec: the canonical path is a function of the key,
    a temporary path is the key with a suffix that is unique per attempt;
    the two kinds never coincide. *)
Inductive Path :=
| Canonical (k : Key)
| Temp (k : Key) (suffix : nat).

Global Instance Path_eq_dec : EqDecision Path.
Proof. solve_decision. Defined.

Global Instance Path_countable : Countable Path :=
  inj_countable'
    (λ p, match p with
          | Canonical k => inl k
          | Temp k n => inr (k, n)
          end)
    (λ x, match x with
          | inl k => Canonical k
          | inr (k, n) => Temp k n
          end)
    (λ p, match p with Canonical _ | Temp _ _ => eq_refl end).

(** The payload of a commit record: opaque bytes. *)
Definition Payload : Type := string.

(** Modelled from the spec: a ledger entry names the temporary object of
    the claim and says whether the canonical copy is known to exist.  (The
    creation time of the entry plays no part in the protocol.) *)
Record Entry := {
  tempPath : Path;
  complete : bool;
}.

(** What can go wrong with one call to either service: the call is carried
    out but its reply is lost; the call is not carried out and the caller
    cannot tell; the call is refused and the caller knows it. *)
Inductive Fault :=
| NoFault
| LostReply
| Timeout
| Refused.

(** Modelled from the spec: the results of [commit]. *)
Inductive Outcome :=
| Committed
| VersionConflict
| ServiceUnavailable
| CorruptRecovery.

(** Modelled from the spec: where a call [commit(logId, version, payload)]
    stands (section 4.1, steps 1 to 4). *)
Inductive WriterPc :=
| WStage                  (* step 1: write the temporary object *)
| WClaim                  (* step 2: putIfAbsent *)
| WReconcile              (* step 2: re-read after an ambiguous reply *)
| WCopy                   (* step 3: copy to the canonical path *)
| WMark                   (* step 4: mark the entry complete *)
| WReturned (r : Outcome).

(** One call of [commit]: its arguments, the temporary path it has staged
    the payload at (once it has), and where it stands. *)
Record Writer := {
  w_key : Key;
  w_payload : Payload;
  w_tmp : option Path;
  w_pc : WriterPc;
}.

(** Modelled from the spec: where the recovery of one version stands
    (section 4.2). *)
Inductive RecoverPc :=
| RLook                               (* read the ledger entry *)
| RFetch (tmp : Path)                 (* read the temporary object *)
| RCopy (tmp : Path) (bytes : Payload)   (* copy it to the canonical path *)
| RMark                               (* set complete *)
| RDone
| RFailed (r : Outcome).

Record Recoverer := {
  r_key : Key;
  r_pc : RecoverPc;
}.

Record State := {
  objects : gmap Path Payload;        (* the object store *)
  ledger : gmap Key Entry;            (* the ledger service *)
  next_suffix : nat;                  (* the supply of unique suffixes *)
  writers : list Writer;
  recoverers : list Recoverer;
}.

Definition with_objects (o : gmap Path Payload) (s : State) : State :=
  {| objects := o; ledger := ledger s; next_suffix := next_suffix s;
     writers := writers s; recoverers := recoverers s |}.
Definition with_ledger (l : gmap Key Entry) (s : State) : State :=
  {| objects := objects s; ledger := l; next_suffix := next_suffix s;
     writers := writers s; recoverers := recoverers s |}.
Definition with_suffix (n : nat) (s : State) : State :=
  {| objects := objects s; ledger := ledger s; next_suffix := n;
     writers := writers s; recoverers := recoverers s |}.
Definition at_pc (pc : WriterPc) (wr : Writer) : Writer :=
  {| w_key := w_key wr; w_payload := w_payload wr; w_tmp := w_tmp wr; w_pc := pc |}.
Definition staging (tmp : Path) (wr : Writer) : Writer :=
  {| w_key := w_key wr; w_payload := w_payload wr; w_tmp := Some tmp;
     w_pc := w_pc wr |}.
Definition set_writer (i : nat) (wr : Writer) (s : State) : State :=
  {| objects := objects s; ledger := ledger s; next_suffix := next_suffix s;
     writers := <[i := wr]> (writers s);
     recoverers := recoverers s |}.
Definition set_recoverer (j : nat) (rc : Recoverer) (s : State) : State :=
  {| objects := objects s; ledger := ledger s; next_suffix := next_suffix s;
     writers := writers s;
     recoverers := <[j := rc]> (recoverers s) |}.

(** Modelled from the spec: [put(path, bytes, overwrite=false)] as the
    object store carries it out. *)
Definition put_new (p : Path) (bytes : Payload) (s : State) : State :=
  match objects s !! p with
  | Some _ => s
  | None => with_objects (<[p := bytes]> (objects s)) s
  end.

(** Modelled from the spec: [putIfAbsent(key, value)] as the ledger
    carries it out. *)
Definition put_if_absent (k : Key) (e : Entry) (s : State) : State :=
  match ledger s !! k with
  | Some _ => s
  | None => with_ledger (<[k := e]> (ledger s)) s
  end.

(** Modelled from the spec: [update(key, complete=true)]. *)
Definition mark_complete (k : Key) (s : State) : State :=
  with_ledger (alter (λ e, {| tempPath := tempPath e; complete := true |}) k
                     (ledger s)) s.

(** Modelled from the spec: the copy to the canonical path, [overwrite=false];
    an object already there with the same content counts as success, one
    with other content is [CorruptRecovery].  [ok] is where to go on
    success, [bad] on corruption, [again] when the call has to be retried. *)
Definition copy_canonical {Pc : Type} (k : Key) (bytes : Payload) (f : Fault)
    (ok again : Pc) (bad : Outcome → Pc) (s : State) : State * Pc :=
  match f with
  | NoFault =>
      match objects s !! Canonical k with
      | None => (put_new (Canonical k) bytes s, ok)
      | Some old => (s, if decide (old = bytes) then ok else bad CorruptRecovery)
      end
  | LostReply => (put_new (Canonical k) bytes s, again)
  | Timeout | Refused => (s, again)
  end.

(** Modelled from the spec: one call made by [commit], section 4.1. *)
Definition step_writer (i : nat) (f : Fault) (s : State) : option State :=
  match writers s !! i with
  | None => None
  | Some wr =>
      let k := w_key wr in
      match w_pc wr, w_tmp wr with
      | WStage, _ =>
          let tmp := Temp k (next_suffix s) in
          let s1 := with_suffix (S (next_suffix s)) s in
          match f with
          | NoFault =>
              Some (set_writer i (at_pc WClaim (staging tmp wr))
                      (put_new tmp (w_payload wr) s1))
          | LostReply =>
              Some (set_writer i (at_pc (WReturned ServiceUnavailable) wr)
                      (put_new tmp (w_payload wr) s1))
          | Timeout | Refused =>
              Some (set_writer i (at_pc (WReturned ServiceUnavailable) wr) s1)
          end
      | WClaim, Some tmp =>
          let e := {| tempPath := tmp; complete := false |} in
          match f with
          | NoFault =>
              match ledger s !! k with
              | None => Some (set_writer i (at_pc WCopy wr) (put_if_absent k e s))
              | Some _ => Some (set_writer i (at_pc (WReturned VersionConflict) wr) s)
              end
          | LostReply => Some (set_writer i (at_pc WReconcile wr) (put_if_absent k e s))
          | Timeout => Some (set_writer i (at_pc WReconcile wr) s)
          | Refused => Some s
          end
      | WReconcile, Some tmp =>
          match f with
          | NoFault | LostReply =>
              match ledger s !! k with
              | None => Some (set_writer i (at_pc WClaim wr) s)
              | Some e =>
                  if decide (tempPath e = tmp)
                  then Some (set_writer i (at_pc WCopy wr) s)
                  else Some (set_writer i (at_pc (WReturned VersionConflict) wr) s)
              end
          | Timeout | Refused => Some s
          end
      | WCopy, Some tmp =>
          let '(s1, pc) :=
            copy_canonical k (w_payload wr) f WMark WCopy WReturned s in
          Some (set_writer i (at_pc pc wr) s1)
      | WMark, Some tmp =>
          match f with
          | NoFault | LostReply =>
              Some (set_writer i (at_pc (WReturned Committed) wr) (mark_complete k s))
          | Timeout | Refused =>
              Some (set_writer i (at_pc (WReturned Committed) wr) s)
          end
      | _, _ => None
      end
  end.

Definition at_rpc (pc : RecoverPc) (rc : Recoverer) : Recoverer :=
  {| r_key := r_key rc; r_pc := pc |}.

(** Modelled from the spec: one call made by the recovery of a version,
    section 4.2. *)
Definition step_recoverer (j : nat) (f : Fault) (s : State) : option State :=
  match recoverers s !! j with
  | None => None
  | Some rc =>
      let k := r_key rc in
      match r_pc rc with
      | RLook =>
          match f with
          | NoFault | LostReply =>
              match ledger s !! k with
              | None => Some (set_recoverer j (at_rpc RDone rc) s)
              | Some e =>
                  if complete e && bool_decide (is_Some (objects s !! Canonical k))
                  then Some (set_recoverer j (at_rpc RDone rc) s)
                  else Some (set_recoverer j (at_rpc (RFetch (tempPath e)) rc) s)
              end
          | Timeout | Refused => Some s
          end
      | RFetch tmp =>
          match f with
          | NoFault | LostReply =>
              match objects s !! tmp with
              | Some bytes => Some (set_recoverer j (at_rpc (RCopy tmp bytes) rc) s)
              | None => Some (set_recoverer j (at_rpc (RFailed CorruptRecovery) rc) s)
              end
          | Timeout | Refused => Some s
          end
      | RCopy tmp bytes =>
          let '(s1, pc) :=
            copy_canonical k bytes f RMark (RCopy tmp bytes) RFailed s in
          Some (set_recoverer j (at_rpc pc rc) s1)
      | RMark =>
          match f with
          | NoFault | LostReply =>
              Some (set_recoverer j (at_rpc RDone rc) (mark_complete k s))
          | Timeout | Refused => Some s
          end
      | RDone | RFailed _ => None
      end
  end.

Inductive Actor :=
| AWriter (i : nat)
| ARecoverer (j : nat).

Definition step (who : Actor) (f : Fault) (s : State) : option State :=
  match who with
  | AWriter i => step_writer i f s
  | ARecoverer j => step_recoverer j f s
  end.

(** A run starts with both services empty, the commit calls and the
    recoveries of the run not yet begun. *)
Definition start (jobs : list (Key * Payload)) (recs : list Key) : State :=
  {| objects := ∅; ledger := ∅; next_suffix := 0;
     writers := (λ j, {| w_key := j.1; w_payload := j.2; w_tmp := None;
                         w_pc := WStage |}) <$> jobs;
     recoverers := (λ k, {| r_key := k; r_pc := RLook |}) <$> recs |}.

Inductive reachable (jobs : list (Key * Payload)) (recs : list Key) :
    State → Prop :=
| reach_start : reachable jobs recs (start jobs recs)
| reach_step s who f s' :
    reachable jobs recs s → step who f s = Some s' → reachable jobs recs s'.

Fixpoint run (sched : list (Actor * Fault)) (s : State) : option State :=
  match sched with
  | [] => Some s
  | (who, f) :: rest =>
      match step who f s with
      | Some s' => run rest s'
      | None => None
      end
  end.

(** The writer holds the claim on its version, and knows it. *)
Definition won (wr : Writer) : bool :=
  match w_pc wr with
  | WCopy | WMark | WReturned Committed => true
  | _ => false
  end.

(** The writer whose temporary object the ledger entry of [k] names. *)
Definition owner (s : State) (k : Key) (i : nat) : Prop :=
  ∃ wr e, writers s !! i = Some wr ∧ ledger s !! k = Some e ∧
          w_key wr = k ∧ w_tmp wr = Some (tempPath e).

(** What holds of every state of a run. *)

(** Temporary objects carry suffixes that were handed out. *)
Definition inv_temps (s : State) : Prop :=
  ∀ k n, is_Some (objects s !! Temp k n) → (n < next_suffix s)%nat.

(** A writer's temporary object holds its payload, under its own key. *)
Definition inv_staged (s : State) : Prop :=
  ∀ i wr tmp, writers s !! i = Some wr → w_tmp wr = Some tmp →
    (∃ n, tmp = Temp (w_key wr) n) ∧
    objects s !! tmp = Some (w_payload wr) ∧ w_pc wr ≠ WStage.

(** No two writers share a temporary object. *)
Definition inv_unique (s : State) : Prop :=
  ∀ i j wr wr' tmp, writers s !! i = Some wr → writers s !! j = Some wr' →
    w_tmp wr = Some tmp → w_tmp wr' = Some tmp → i = j.

(** Every claim has an owner. *)
Definition inv_owned (s : State) : Prop :=
  ∀ k e, ledger s !! k = Some e → ∃ i, owner s k i.

(** A writer that believes it won is the owner. *)
Definition inv_won (s : State) : Prop :=
  ∀ i wr, writers s !! i = Some wr → won wr = true → owner s (w_key wr) i.

(** What is at the canonical path is the content of the claim. *)
Definition inv_canonical (s : State) : Prop :=
  ∀ k p, objects s !! Canonical k = Some p →
    ∃ e, ledger s !! k = Some e ∧ objects s !! tempPath e = Some p.

(** A recovery under way works from the claim, and none has failed. *)
Definition inv_recovering (s : State) : Prop :=
  ∀ j rc, recoverers s !! j = Some rc →
    match r_pc rc with
    | RFetch tmp => ∃ e, ledger s !! r_key rc = Some e ∧ tempPath e = tmp
    | RCopy tmp bytes =>
        (∃ e, ledger s !! r_key rc = Some e ∧ tempPath e = tmp) ∧
        objects s !! tmp = Some bytes
    | RFailed _ => False
    | _ => True
    end.

(** No commit ends in corruption. *)
Definition inv_sound (s : State) : Prop :=
  ∀ i wr, writers s !! i = Some wr → w_pc wr ≠ WReturned CorruptRecovery.

Definition inv (s : State) : Prop :=
  inv_temps s ∧ inv_staged s ∧ inv_unique s ∧ inv_owned s ∧ inv_won s ∧
  inv_canonical s ∧ inv_recovering s ∧ inv_sound s.

(** A sample run: two commits race for version 0 of one log with
    different payloads, and a reader recovers that version meanwhile.  The
    reply to the first writer's claim is lost; it reconciles, finds its own
    claim, and finds the canonical object already copied by the reader. *)
Definition race_key : Key := ("s3a://test-bucket/delta-test/", 0%nat).

Definition race_jobs : list (Key * Payload) :=
  [(race_key, "commit of writer A"); (race_key, "commit of writer B")].

Definition race_recs : list Key := [race_key].

Definition race_sched : list (Actor * Fault) :=
  [(AWriter 0, NoFault); (AWriter 1, NoFault);
   (AWriter 0, LostReply); (AWriter 1, NoFault);
   (AWriter 0, NoFault);
   (ARecoverer 0, NoFault); (ARecoverer 0, NoFault); (ARecoverer 0, NoFault);
   (AWriter 0, NoFault); (AWriter 0, NoFault);
   (ARecoverer 0, NoFault)].

Definition race_state : State :=
  default (start race_jobs race_recs)
          (run race_sched (start race_jobs race_recs)).

End LogStore.

(** ** More ways to read the trace *)

(** The outcomes of the appends transaction [n] made, in order. *)
Definition saves_of {T : Type} (n : nat) (s : @State T) : list bool :=
  omap (λ e, match e with
             | (Writer m, ASave _ ok) => if decide (m = n) then Some ok else None
             | _ => None
             end) (trace s).

(** What the calls of [count()] loaded, by whichever thread, in order. *)
Definition loads {T : Type} (s : @State T) : list (list Row) :=
  omap (λ e, match e.2 with
             | ALoad (Some rows) => Some rows
             | _ => None
             end) (trace s).

(** Each call of [pool.map] is run at most once: what a transaction has
    saved goes with where it stands, and the calls are those of
    [range(num_rows)] once they are handed out. *)
Definition dispatch_inv {T : Type} (cfg : Config) (s : @State T) : Prop :=
  (tasks s = [] ∨ length (tasks s) = Z.to_nat (num_rows cfg)) ∧
  ∀ n, saves_of n s =
       match tasks s !! n with
       | Some Done => [true]
       | Some Failed => [false]
       | _ => []
       end.

(** On a table that behaves as documented, a load sees a prefix of what
    any later load sees and of what the table holds now. *)
Definition loads_inv (s : @State (list Row)) : Prop :=
  StronglySorted prefix (loads s ++ [table s]).

(** ** Why the script can fail *)

(** The ways in which the main thread can have ended by exception [e]:
    the session or the table could not be made, the pool was asked for no
    worker, [range(num_rows)] was too long for [pool.map], a call of
    [pool.map] raised, the final count could not be loaded, the assertion
    failed, the two clock readings were the same, the scan failed, or the
    scan found no item. *)
Definition raise_cause {T : Type} (cfg : Config) (w : World)
    (s : @State T) (e : Exn) : Prop :=
  (e = LibraryError ∧ (Main, ASession false) ∈ trace s) ∨
  (e = LibraryError ∧ (Main, ASave [] false) ∈ trace s) ∨
  (e = ValueError ∧ concurrent_writers cfg < 1 ∧ (Main, APool false) ∈ trace s) ∨
  (e = OverflowError ∧ maxsize (python w) < num_rows cfg ∧
     (Main, AMap false) ∈ trace s) ∨
  (e = LibraryError ∧ (Main, AMap false) ∈ trace s ∧
     ∃ n, tasks s !! n = Some Failed) ∨
  (e = LibraryError ∧ (Main, ALoad None) ∈ trace s) ∨
  (e = AssertionError None ∧ (Main, AAssert false) ∈ trace s ∧
     ∃ actual, actual ≠ num_rows cfg ∧
               (Main, APrint (LText (written_line actual))) ∈ trace s) ∨
  (e = ZeroDivisionError ∧ Qeq_bool (elapsed w) 0 = true ∧
     (Main, AAssert true) ∈ trace s) ∨
  (ddb_scan w = Raise e ∧ (Main, AScan false) ∈ trace s ∧
     (Main, AAssert true) ∈ trace s) ∨
  (e = IndexError ∧ ddb_scan w = Ok [] ∧ (Main, AAssert true) ∈ trace s).

Definition cause_inv {T : Type} (cfg : Config) (w : World) (s : @State T) : Prop :=
  match main s with
  | PAssert actual => (Main, APrint (LText (written_line actual))) ∈ trace s
  | PElapsed | PReport _ | PScan | PDone => (Main, AAssert true) ∈ trace s
  | PPrintItem items => (Main, AAssert true) ∈ trace s ∧ ddb_scan w = Ok items
  | PRaised e => raise_cause cfg w s e
  | _ => True
  end.

(** ** Further sample runs *)

(** A pool without workers. *)
Definition cfg_no_writers : Config :=
  {| delta_table_path := Some "s3a://test-bucket/delta-test/";
     concurrent_writers := 0;
     concurrent_readers := 2;
     num_rows := 16;
     delta_storage := "io.delta.storage.DynamoDBLogStore";
     dynamo_table_name := "delta_log_test";
     dynamo_region := "us-west-2";
     dynamo_error_rates := "" |}.

(** The main thread has failed to create the pool; both readers run. *)
Definition s_no_pool : @State (list Row) :=
  state_after cfg_no_writers world_sample (replicate 7 Main) [].

(** A negative number of rows. *)
Definition cfg_negative : Config :=
  {| delta_table_path := Some "s3a://test-bucket/delta-test/";
     concurrent_writers := 2;
     concurrent_readers := 1;
     num_rows := -1;
     delta_storage := "io.delta.storage.DynamoDBLogStore";
     dynamo_table_name := "delta_log_test";
     dynamo_region := "us-west-2";
     dynamo_error_rates := "" |}.

Definition s_negative_at_assert : @State (list Row) :=
  state_after cfg_negative world_sample
    (sched_start 1 ++ sched_stop 1 ++ [Main; Main]) tb_earlier_run.

(** The small run on the ideal table, at the assertion. *)
Definition s_small_at_assert : @State (list Row) :=
  state_after cfg_small world_sample (sched_small_to_count ++ [Main; Main])
              tb_earlier_run.

(** ** Texts without white space *)

(** No character that [int] would skip. *)
Fixpoint no_space (s : string) : bool :=
  match s with
  | EmptyString => true
  | String c r => negb (is_space c) && no_space r
  end.

(** * The API documentation script

    Source: [docs/generate_api_docs.py] (Python 2).

    The script runs the documentation build, then patches what the build
    produced: it appends style sheets and scripts to generated files and
    adds two script elements before the closing body tag of every JavaDoc
    page.  A string is a byte string, as in Python 2.  The file system is a
    map from the text of an absolute path to the content of the file: two
    spellings of one path are two files, and every path can be opened for
    writing.  What a child process does to the files, what it prints and its
    exit code are given by [exec]; which paths are directories, by
    [is_dir]. *)
Module ApiDocs.

Inductive Exn :=
| IOError (path : string)
| OSError (path : string)
| NonZeroExit (code : Z)
| TypeError
| SystemExit (status : Z).

(** A line of the script's own output; the text of [str(cmd)] is not
    unfolded. *)
Inductive Line :=
| Text (s : string)
| RunningCommand (cmd : list string).

Record Sys := {
  files : gmap string string;
  cwd : string;
  printed : list Line;
}.

Definition with_files (fs : gmap string string) (s : Sys) : Sys :=
  {| files := fs; cwd := cwd s; printed := printed s |}.
Definition with_cwd (d : string) (s : Sys) : Sys :=
  {| files := files s; cwd := d; printed := printed s |}.
Definition with_printed (ls : list Line) (s : Sys) : Sys :=
  {| files := files s; cwd := cwd s; printed := ls |}.

Inductive outcome (A : Type) :=
| Returns (a : A)
| Raises (e : Exn).
Arguments Returns {A} a.
Arguments Raises {A} e.

(** A statement: it changes the system and returns or raises. *)
Definition M (A : Type) : Type := Sys → Sys * outcome A.

Definition ret {A} (a : A) : M A := λ s, (s, Returns a).
Definition raise {A} (e : Exn) : M A := λ s, (s, Raises e).
Definition and_then {A B} (m : M A) (k : A → M B) : M B := λ s,
  match m s with
  | (s', Returns a) => k a s'
  | (s', Raises e) => (s', Raises e)
  end.

Notation "'let*' x := m 'in' k" := (and_then m (λ x, k))
  (at level 200, x name, m at level 100, k at level 200, right associativity).

(** ** Strings *)

Definition dq : string := String (ascii_of_nat 34) EmptyString.

Fixpoint starts_with (p s : string) : bool :=
  match p, s with
  | EmptyString, _ => true
  | String a p', String b s' => Ascii.eqb a b && starts_with p' s'
  | String _ _, EmptyString => false
  end.

(** Occurrences of a non-empty [sub] from the left, none overlapping an
    earlier one: after a match, the [skip] characters that belong to it are
    passed over. *)
Fixpoint count_from (sub : string) (skip : nat) (s : string) : nat :=
  match s with
  | EmptyString => 0
  | String c r =>
      match skip with
      | S k => count_from sub k r
      | O =>
          if starts_with sub s
          then S (count_from sub (String.length sub - 1) r)
          else count_from sub 0 r
      end
  end.

(** [s.count(sub)] *)
Definition str_count (s sub : string) : nat :=
  match sub with
  | EmptyString => S (String.length s)
  | _ => count_from sub 0 s
  end.

Fixpoint replace_from (old new : string) (skip : nat) (s : string) : string :=
  match s with
  | EmptyString => EmptyString
  | String c r =>
      match skip with
      | S k => replace_from old new k r
      | O =>
          if starts_with old s
          then new +:+ replace_from old new (String.length old - 1) r
          else String c (replace_from old new 0 r)
      end
  end.

Fixpoint interleave (new s : string) : string :=
  match s with
  | EmptyString => EmptyString
  | String c r => String c (new +:+ interleave new r)
  end.

(** [s.replace(old, new)]; an empty [old] matches before every character
    and at the end. *)
Definition str_replace (s old new : string) : string :=
  match old with
  | EmptyString => new +:+ interleave new s
  | _ => replace_from old new 0 s
  end.

(** [s.split(sep)] for a separator of one character. *)
Fixpoint split (sep : ascii) (s : string) : list string :=
  match s with
  | EmptyString => [EmptyString]
  | String c r =>
      if Ascii.eqb c sep then EmptyString :: split sep r
      else match split sep r with
           | h :: t => String c h :: t
           | [] => [String c EmptyString]
           end
  end.

(** [s.strip()] of a byte string: blank, tab, line feed, vertical tab,
    form feed and carriage return are removed at both ends. *)
Fixpoint lstrip (s : string) : string :=
  match s with
  | String c r => if Ascii.is_space c then lstrip r else s
  | EmptyString => s
  end.

Definition strip (s : string) : string :=
  String.rev (lstrip (String.rev (lstrip s))).

(** [s * k] *)
Fixpoint copies (k : nat) (s : string) : string :=
  match k with
  | O => EmptyString
  | S k' => s +:+ copies k' s
  end.

(** Only white space. *)
Fixpoint blank (s : string) : bool :=
  match s with
  | EmptyString => true
  | String c r => Ascii.is_space c && blank r
  end.

Fixpoint has_char (c : ascii) (s : string) : bool :=
  match s with
  | EmptyString => false
  | String b r => Ascii.eqb b c || has_char c r
  end.

(** What a process prints that writes each of [lines] followed by a line
    feed. *)
Definition unlines (lines : list string) : string :=
  foldr (λ line rest, line +:+ nl +:+ rest) "" lines.

(** ** The JavaDoc pages (lines 60-84) *)

(** Line 62. *)
Definition javadoc_files (stdout : string) : list string :=
  filter (λ line, strip line ≠ "") (split (ascii_of_nat 10) stdout).

Definition js_script_start : string :=
  "<script defer=" +:+ dq +:+ "defer" +:+ dq +:+ " type=" +:+ dq
    +:+ "text/javascript" +:+ dq +:+ " src=" +:+ dq.
Definition js_script_end : string := dq +:+ "></script>".

(** Lines 73-75; [None] when [fuel] rounds do not end the loop. *)
Fixpoint path_loop (fuel : nat) (slash_count i : nat) (path_to_js_file : string)
    : option string :=
  match fuel with
  | O => None
  | S fuel' =>
      if decide (i < slash_count)%nat
      then path_loop fuel' slash_count (i + 1)%nat (path_to_js_file +:+ "../")
      else Some path_to_js_file
  end.

(** Lines 70-75. *)
Definition path_to_js_file (fuel : nat) (javadoc_file : string) : option string :=
  path_loop fuel (str_count javadoc_file "/") 1 "".

(** Lines 78-81. *)
Definition javadoc_script_elements (path_to_js_file : string) : string :=
  (js_script_start +:+ path_to_js_file +:+ "lib/jquery.js" +:+ js_script_end)
  +:+ (js_script_start +:+ path_to_js_file +:+ "lib/api-javadocs.js" +:+ js_script_end).

(** ** Files and directories *)

(** A path as the system reads it in directory [dir]. *)
Definition resolve (dir path : string) : string :=
  match path with
  | String "/"%char _ => path
  | _ => dir +:+ "/" +:+ path
  end.

(** A page as lines 70-84 rewrite it. *)
Definition patched_page (javadoc_file str : string) : string :=
  str_replace str "</body>"
    (javadoc_script_elements (copies (str_count javadoc_file "/" - 1) "../")
     +:+ "</body>").

(** An absolute path, as [os.getcwd()] returns it. *)
Definition absolute (path : string) : bool := starts_with "/" path.

Section Script.
Variable verbose : bool.
Variable is_dir : gmap string string → string → bool.

(** The child process of [subprocess.Popen(cmd, ...)], run in a directory
    on the files: the files it leaves, its exit code, and what it wrote to
    its standard output and standard error. *)
Variable exec : list string → string → gmap string string →
                gmap string string * (Z * string * string).

Definition print (l : Line) : M unit := λ s,
  (with_printed (printed s ++ [l]) s, Returns tt).

(** Lines 177-179. *)
Definition log (l : Line) : M unit :=
  if verbose then print l else ret tt.

(** [open(path, "r").read()] *)
Definition read_file (path : string) : M string := λ s,
  match files s !! resolve (cwd s) path with
  | Some str => (s, Returns str)
  | None => (s, Raises (IOError path))
  end.

(** [open(path, "w").write(str)] *)
Definition write_file (path str : string) : M unit := λ s,
  (with_files (<[resolve (cwd s) path := str]> (files s)) s, Returns tt).

(** [open(path, "a").write(str)] *)
Definition append_file (path str : string) : M unit := λ s,
  let p := resolve (cwd s) path in
  (with_files (<[p := default "" (files s !! p) +:+ str]> (files s)) s, Returns tt).

(** [os.chdir(path)] *)
Definition chdir (path : string) : M unit := λ s,
  let p := resolve (cwd s) path in
  if is_dir (files s) p then (with_cwd p s, Returns tt)
  else (s, Raises (OSError path)).

(** What [run_cmd] returns: the exit code alone when the output is
    streamed, else the exit code with the captured output. *)
Inductive CmdResult :=
| ExitCode (exit_code : Z)
| Captured (exit_code : Z) (stdout stderr : string).

(** Lines 102-141, [env] being [None] in every call.  The exit code is a
    small integer, for which [is not 0] is [!= 0]. *)
Definition run_cmd (cmd : list string) (throw_on_error : bool)
    (stream_output : bool) : M CmdResult :=
  let* _ := log (RunningCommand cmd) in
  λ s,
    let '(fs, (exit_code, stdout, stderr)) := exec cmd (cwd s) (files s) in
    let s' := with_files fs s in
    if throw_on_error && negb (exit_code =? 0)
    then (s', Raises (NonZeroExit exit_code))
    else (s', Returns (if stream_output then ExitCode exit_code
                       else Captured exit_code stdout stderr)).

(** Lines 144-151. *)
Definition append (src dst : string) : M unit :=
  let* _ := log (Text ("Appending " +:+ src +:+ " to " +:+ dst)) in
  let* str := read_file src in
  append_file dst str.

(** Lines 154-162. *)
Definition replace (file pattern replacement : string) : M unit :=
  let* _ := log (Text ("Replacing " +:+ pattern +:+ " with " +:+ replacement
                        +:+ " in file " +:+ file)) in
  let* str := read_file file in
  write_file file (str_replace str pattern replacement).

(** Lines 165-174, as the [with] statement runs them: the directory at
    hand is noted when the object is made, [__enter__] changes to the new
    one, and [__exit__] changes back whether the body returned or raised;
    it returns [None], so an exception of the body goes on. *)
Definition WorkingDirectory {A} (working_directory : string) (body : M A) : M A :=
  λ s,
    let old_workdir := cwd s in
    match chdir working_directory s with
    | (s1, Raises e) => (s1, Raises e)
    | (s1, Returns _) =>
        let '(s2, r) := body s1 in
        match chdir old_workdir s2 with
        | (s3, Raises e) => (s3, Raises e)
        | (s3, Returns _) => (s3, r)
        end
    end.

Fixpoint for_each {A} (xs : list A) (body : A → M unit) : M unit :=
  match xs with
  | [] => ret tt
  | x :: xs' => let* _ := body x in for_each xs' body
  end.

(** Lines 69-84, the body of the loop.  The inner loop ends within
    [slash_count] rounds. *)
Definition patch_javadoc_file (javadoc_file : string) : M unit :=
  let slash_count := str_count javadoc_file "/" in
  let path := default "" (path_to_js_file (S slash_count) javadoc_file) in
  replace javadoc_file "</body>" (javadoc_script_elements path +:+ "</body>").

(** Lines 36-37: where the script lies. *)
Variable docs_root_dir : string.
Variable repo_root_dir : string.

Definition scaladoc_gen_dir : string := repo_root_dir +:+ "/target/scala-2.12/unidoc".
Definition javadoc_gen_dir : string := repo_root_dir +:+ "/target/javaunidoc".
Definition all_api_docs_final_dir : string := docs_root_dir +:+ "/_site/api".
Definition scala_api_docs_final_dir : string := all_api_docs_final_dir +:+ "/scala".
Definition java_api_docs_final_dir : string := all_api_docs_final_dir +:+ "/java".

(** Lines 58-90. *)
Definition patch_javadoc : M unit :=
  let* found := run_cmd ["find"; "."; "-name"; "*.html"; "-mindepth"; "2"] true false in
  match found with
  | ExitCode _ => raise TypeError
  | Captured _ stdout _ =>
      let* _ := log (Text ("HTML files found:" +:+ nl +:+ stdout)) in
      let* _ := for_each (javadoc_files stdout) patch_javadoc_file in
      let* _ := run_cmd ["mkdir"; "-p"; "./lib"] true false in
      let* _ := run_cmd ["cp"; scaladoc_gen_dir +:+ "/lib/jquery.js"; "./lib/"] true false in
      let* _ := run_cmd ["cp"; docs_root_dir +:+ "/api-javadocs.js"; "./lib/"] true false in
      append (docs_root_dir +:+ "/api-javadocs.css") "./stylesheet.css"
  end.

(** The four lines that [main] prints itself. *)
Definition banners : list Line :=
  [ Text "## Generating ScalaDoc and JavaDoc ...";
    Text "## Patching ScalaDoc ...";
    Text "## Patching JavaDoc ...";
    Text ("## API docs generated in " +:+ all_api_docs_final_dir) ].

(** Lines 33-99 of [main], [verbose] being [args.verbose]. *)
Definition main_body : M unit :=
  let* _ := print (Text "## Generating ScalaDoc and JavaDoc ...") in
  let* _ := WorkingDirectory repo_root_dir
              (run_cmd ["build/sbt"; ";clean;unidoc"] true verbose) in
  let* _ := print (Text "## Patching ScalaDoc ...") in
  let* _ := WorkingDirectory scaladoc_gen_dir
              (let* _ := append (docs_root_dir +:+ "/api-docs.js") "./lib/template.js" in
               append (docs_root_dir +:+ "/api-docs.css") "./lib/template.css") in
  let* _ := print (Text "## Patching JavaDoc ...") in
  let* _ := WorkingDirectory javadoc_gen_dir patch_javadoc in
  let* _ := log (Text ("Copying to API doc directory " +:+ all_api_docs_final_dir)) in
  let* _ := run_cmd ["rm"; "-rf"; all_api_docs_final_dir] true false in
  let* _ := run_cmd ["mkdir"; "-p"; all_api_docs_final_dir] true false in
  let* _ := run_cmd ["cp"; "-r"; scaladoc_gen_dir; scala_api_docs_final_dir] true false in
  let* _ := run_cmd ["cp"; "-r"; javadoc_gen_dir; java_api_docs_final_dir] true false in
  print (Text ("## API docs generated in " +:+ all_api_docs_final_dir)).

End Script.

(** What [parser.parse_args()] makes of the command line (lines 29-31):
    the value of the flag; or, for [-h] and for a command line that the
    parser refuses, the status it exits with and what it has written to
    standard output before (the help; an error goes to standard error). *)
Inductive Parsed :=
| Args (verbose : bool)
| ParserExit (status : Z) (shown : option string).

(** Lines 27-99. *)
Definition main (args : Parsed)
    (is_dir : gmap string string → string → bool)
    (exec : list string → string → gmap string string →
            gmap string string * (Z * string * string))
    (docs_root_dir repo_root_dir : string) : M unit :=
  match args with
  | ParserExit status shown =>
      let* _ := match shown with
                | Some text => print (Text text)
                | None => ret tt
                end in
      raise (SystemExit status)
  | Args verbose => main_body verbose is_dir exec docs_root_dir repo_root_dir
  end.

(** ** What a statement leaves behind *)

(** It prints nothing. *)
Definition quiet {A} (m : M A) : Prop :=
  ∀ s s' r, m s = (s', r) → printed s' = printed s.

(** It prints the lines [ls] in order, as far as it gets, and all of them
    exactly when it returns. *)
Definition says {A} (ls : list Line) (m : M A) : Prop :=
  ∀ s s' r, m s = (s', r) →
    ∃ k, (k ≤ length ls)%nat ∧ printed s' = printed s ++ take k ls ∧
         ((∃ a, r = Returns a) ↔ k = length ls).

(** It ends in the directory it began in. *)
Definition keeps_cwd {A} (m : M A) : Prop :=
  ∀ s s' r, m s = (s', r) → cwd s' = cwd s.

(** It ends in the directory it began in, or raises because that
    directory is no more. *)
Definition restores {A} (m : M A) : Prop :=
  ∀ s s' r, absolute (cwd s) = true → m s = (s', r) →
    cwd s' = cwd s ∨ r = Raises (OSError (cwd s)).

(** ** A sample documentation tree *)

Definition sample_page : string :=
  "<html><body><h1>DeltaTable</h1></body></html>".

Definition sample_files : gmap string string :=
  {[ "/repo/docs/api-docs.js" := "function showApi() {}";
     "/repo/docs/api-docs.css" := ".api { color: black }";
     "/repo/docs/api-javadocs.css" := ".javadoc { color: black }";
     "/repo/target/javaunidoc/./io/delta/tables/DeltaTable.html" := sample_page;
     "/repo/target/javaunidoc/./io/delta/package.html" := "<html>io.delta</html>" ]}.

(** In the directory of the script. *)
Definition sample_sys : Sys :=
  {| files := sample_files; cwd := "/repo/docs"; printed := [] |}.

(** In the JavaDoc directory. *)
Definition sample_javadoc_sys : Sys :=
  {| files := sample_files; cwd := "/repo/target/javaunidoc"; printed := [] |}.

Definition sample_is_dir : gmap string string → string → bool := λ _ _, true.

(** Every command succeeds and leaves the files alone; [find] reports the
    two pages. *)
Definition sample_exec (cmd : list string) (dir : string) (fs : gmap string string)
    : gmap string string * (Z * string * string) :=
  (fs, (0,
        match cmd with
        | "find" :: _ =>
            unlines ["./io/delta/tables/DeltaTable.html"; "./io/delta/package.html"]
        | _ => ""
        end,
        "")).

End ApiDocs.

(** * Properties of the script *)

Section HarnessFacts.
Context {T : Type} `{!DeltaTable T}.
Variable cfg : Config.
Variable w : World.

Lemma wf_init (tb : T) : wf cfg w (init tb).
Proof. split_and!; [discriminate | intros n Hn; cbn in Hn; by rewrite lookup_nil in Hn | done]. Qed.

Lemma forallb_finished_lookup (ts : list TaskSt) :
  forallb finished ts = true ↔ ∀ n t, ts !! n = Some t → finished t = true.
Proof.
  rewrite forallb_forall. split.
  - intros Hf n t Hn. apply Hf, list_elem_of_In, list_elem_of_lookup. eauto.
  - intros Hf t Hin. apply list_elem_of_In, list_elem_of_lookup in Hin as [n Hn]. eauto.
Qed.

Lemma existsb_failed_lookup (ts : list TaskSt) :
  existsb is_failed ts = false ↔ ∀ n t, ts !! n = Some t → t ≠ Failed.
Proof.
  split.
  - intros He n t Hn ->.
    assert (existsb is_failed ts = true); [|congruence].
    apply existsb_exists. exists Failed. split; [|done].
    apply list_elem_of_In, list_elem_of_lookup. eauto.
  - intros Hf. destruct (existsb is_failed ts) eqn:E; [|done].
    apply existsb_exists in E as (t & Hin & Ht).
    apply list_elem_of_In, list_elem_of_lookup in Hin as [n Hn].
    destruct t; try discriminate. by destruct (Hf n Failed).
Qed.

Lemma map_returned_all_done (ts : list TaskSt) :
  (∀ n, ts !! n = Some Dropped → ∃ m, ts !! m = Some Failed) →
  forallb finished ts = true → existsb is_failed ts = false →
  ∀ n t, ts !! n = Some t → t = Done.
Proof.
  intros Hd Hf He n t Hn.
  rewrite forallb_finished_lookup in Hf. rewrite existsb_failed_lookup in He.
  specialize (Hf n t Hn). destruct t; try done.
  - by destruct (He n Failed).
  - destruct (Hd n Hn) as [m Hm]. by destruct (He m Failed).
Qed.

Lemma step_main_wf (s s' : @State T) : wf cfg w s → step_main cfg w s = Some s' → wf cfg w s'.
Proof.
  intros (Hstop & Hdrop & Hpc) Hs. unfold step_main in Hs.
  destruct (main s) eqn:Hm; simplify_eq.
  all: repeat case_match; simplify_eq.
  all: unfold wf, all_done, all_terminated in *; cbn; rewrite ?Hm.
  all: destruct_and?.
  all: split_and?; try done; try congruence.
  - match goal with H : read_threads s = [] |- _ => rewrite H end. cbn. lia.
  - rewrite length_app. cbn. lia.
  - lia.
  - intros k' Hk'. apply lookup_replicate in Hk' as [? _]. done.
  - apply length_replicate.
  - by apply map_returned_all_done.
  - lia.
  - intros; lia.
  - match goal with H : read_threads s !! _ = Some _ |- _ => by apply lookup_lt_Some in H end.
  - intros i r0 Hi Hr0. destruct (decide (i = k)) as [->|]; [congruence|].
    match goal with H : ∀ i r, (i < k)%nat → _ |- _ => apply (H i); [lia|done] end.
  - intros i r Hr.
    match goal with H : ∀ i r, (i < _)%nat → _ |- _ => apply (H i); [|done] end.
    apply lookup_lt_Some in Hr.
    match goal with H : read_threads s !! _ = None |- _ => apply lookup_ge_None in H end.
    lia.
  - unfold elapsed. congruence.
Qed.

Lemma step_reader_inv i (s s' : @State T) :
  step_reader w i s = Some s' →
  ∃ r r', read_threads s !! i = Some r ∧ terminated r = false ∧
          read_threads s' = <[i := r']> (read_threads s) ∧
          main s' = main s ∧ tasks s' = tasks s ∧
          stop_reading s' = stop_reading s ∧ start_t s' = start_t s ∧
          (r = RTest → r' = if stop_reading s then RReturned else RCount).
Proof.
  unfold step_reader. intros Hs.
  destruct (read_threads s !! i) as [[]|] eqn:Hi; try done;
    repeat case_match; simplify_eq; cbn; eexists _, _; split_and!; try done.
Qed.

Lemma step_reader_wf i (s s' : @State T) :
  wf cfg w s → step_reader w i s = Some s' → wf cfg w s'.
Proof.
  intros (Hstop & Hdrop & Hpc) Hs.
  apply step_reader_inv in Hs as (r & r' & Hi & Hr & Hrs & Hm & Hts & Hst & Ht0 & _).
  assert (Hne : ∀ j r0, <[i := r']> (read_threads s) !! j = Some r0 →
                 terminated r0 = true → j ≠ i → read_threads s !! j = Some r0).
  { intros j r0 Hj _ Hji. by rewrite list_lookup_insert_ne in Hj. }
  unfold wf, all_done, all_terminated in *.
  rewrite Hm, Hts, Hst, Ht0, Hrs. split_and!; [done..|].
  destruct (main s); rewrite ?length_insert; destruct_and?; split_and?; try done.
  all: try match goal with H : read_threads _ = [] |- _ =>
         by rewrite H in Hi end.
  all: try match goal with H : ∀ i r, read_threads _ !! i = Some r → _ |- _ =>
         specialize (H _ _ Hi); congruence end.
  intros j r0 Hj Hr0. destruct (decide (j = i)) as [->|Hji].
  - match goal with H : ∀ i r, (i < _)%nat → _ |- _ =>
      specialize (H i r Hj Hi) end. congruence.
  - rewrite list_lookup_insert_ne in Hr0 by done. eauto.
Qed.

Lemma step_writer_inv n (s s' : @State T) :
  step_writer cfg w n s = Some s' →
  ∃ t t', tasks s !! n = Some t ∧ finished t = false ∧ t' ≠ Dropped ∧
          tasks s' = <[n := t']> (tasks s) ∧
          main s' = main s ∧ read_threads s' = read_threads s ∧
          stop_reading s' = stop_reading s ∧ start_t s' = start_t s.
Proof.
  unfold step_writer. intros Hs.
  destruct (tasks s !! n) as [[]|] eqn:Hn; try done;
    repeat case_match; simplify_eq; cbn; eexists _, _; split_and!; try done.
  all: by repeat case_match.
Qed.

Lemma step_abandon_inv n (s s' : @State T) :
  step_abandon n s = Some s' →
  tasks s !! n = Some Pending ∧ (∃ m, tasks s !! m = Some Failed) ∧
  s' = with_tasks (<[n := Dropped]> (tasks s)) s.
Proof.
  unfold step_abandon. intros Hs.
  destruct (tasks s !! n) as [[]|] eqn:Hn; try done.
  destruct (existsb is_failed (tasks s)) eqn:He; simplify_eq.
  split_and!; try done.
  apply existsb_exists in He as (t & Hin & Ht).
  apply list_elem_of_In, list_elem_of_lookup in Hin as [m Hm].
  destruct t; try done. eauto.
Qed.

Lemma tasks_update_wf n t t' (s s' : @State T) :
  wf cfg w s →
  tasks s !! n = Some t → finished t = false →
  (t' = Dropped → ∃ m, tasks s !! m = Some Failed) →
  tasks s' = <[n := t']> (tasks s) →
  main s' = main s → read_threads s' = read_threads s →
  stop_reading s' = stop_reading s → start_t s' = start_t s →
  wf cfg w s'.
Proof.
  intros (Hstop & Hdrop & Hpc) Hn Ht Ht' Hts Hm Hrs Hst Ht0.
  unfold wf, all_done, all_terminated in *.
  rewrite Hm, Hts, Hst, Ht0, Hrs, length_insert.
  assert (Hnd : ¬ (∀ n t, tasks s !! n = Some t → t = Done)).
  { intros Hd. specialize (Hd n t Hn). by subst t. }
  split_and!.
  - intros Hs. by destruct (Hstop Hs).
  - intros j Hj.
    assert (∃ m, tasks s !! m = Some Failed) as [m Hmf].
    { destruct (decide (j = n)) as [->|Hjn].
      - apply Ht'. rewrite list_lookup_insert_eq in Hj by by eapply lookup_lt_Some.
        congruence.
      - rewrite list_lookup_insert_ne in Hj by done. eauto. }
    exists m. rewrite list_lookup_insert_ne; [done|]. intros ->.
    rewrite Hn in Hmf. by simplify_eq.
  - destruct (main s); destruct_and?; split_and?; try done.
    all: match goal with H : tasks _ = [] |- _ => by rewrite H in Hn end.
Qed.

Lemma step_wf who (s s' : @State T) :
  wf cfg w s → step cfg w who s = Some s' → wf cfg w s'.
Proof.
  intros Hwf Hs. destruct who as [|i|n|n]; cbn in Hs.
  - by eapply step_main_wf.
  - by eapply step_reader_wf.
  - apply step_writer_inv in Hs as (t & t' & ? & ? & ? & ? & ? & ? & ? & ?).
    eapply tasks_update_wf; eauto. done.
  - apply step_abandon_inv in Hs as (? & ? & ->).
    eapply (tasks_update_wf n Pending Dropped); eauto.
Qed.

Lemma reachable_wf (tb : T) (s : @State T) : reachable cfg w tb s → wf cfg w s.
Proof.
  induction 1 as [|s who s' _ IH Hs]; [apply wf_init | by eapply step_wf].
Qed.
Lemma head_app_Some {A} (l k : list A) x : head l = Some x → head (l ++ k) = Some x.
Proof. by destruct l. Qed.

Lemma tinv_init (tb : T) : tinv cfg w (init tb).
Proof. split; [|done]. intros e He. cbn in He. by apply elem_of_nil in He. Qed.

Ltac trace_simpl :=
  unfold main_loads, main_saves, tput_lines, stdout in *;
  cbn [trace emit goto with_table with_stop with_readers with_tasks with_start_t main] in *;
  rewrite ?omap_app; cbn [omap printed list_omap fst snd app]; rewrite ?app_nil_r.

Lemma step_main_tinv (s s' : @State T) :
  wf cfg w s → tinv cfg w s → step_main cfg w s = Some s' → tinv cfg w s'.
Proof.
  intros (_ & _ & Hpc) (Hw & Ht) Hs. unfold step_main in Hs.
  destruct (main s) eqn:Hm; simplify_eq.
  all: repeat case_match; simplify_eq.
  all: unfold tinv; cbn [main emit goto with_table with_stop with_readers with_tasks with_start_t]; rewrite ?Hm.
  all: (split; [cbn; intros ev Hev; rewrite ?elem_of_app, ?list_elem_of_singleton in Hev;
                intros ? ? ? ->; destruct_or?; simplify_eq; by eauto|]).
  all: destruct_and?.
  all: trace_simpl.
  all: repeat match goal with H : ∃ _, _ |- _ => destruct H as (? & ?) end; destruct_and?.
  all: repeat match goal with H : omap _ _ = _ |- _ => rewrite H end.
  all: rewrite ?last_snoc; try rewrite Ht; subst; unfold throughput.
  all: by (split_and?; eauto using head_app_Some).
Qed.

Lemma tinv_frame (s s' : @State T) who evs :
  tinv cfg w s → main s' = main s → trace s' = trace s ++ evs →
  who ≠ Main →
  (evs = [] ∨ ∃ act, evs = [(who, act)] ∧
     (∀ n rows ok, who = Writer n → act = ASave rows ok → rows = write_tx_rows w n) ∧
     (∀ l, act = APrint l → (∃ t, l = LText t) ∧ ∀ a, main s ≠ PAssert a) ∧
     main s ≠ PStart ∧ (∀ c, main s ≠ PExit c)) →
  tinv cfg w s'.
Proof.
  intros (Hw & Ht) Hm Htr Hwho [->|(act & -> & Hsave & Hprint & Hstart & Hexit)].
  { rewrite app_nil_r in Htr. unfold tinv, main_loads, main_saves, tput_lines, stdout in *.
    by rewrite Hm, Htr. }
  assert (Hloads : main_loads s' = main_loads s).
  { unfold main_loads. rewrite Htr, omap_app. cbn.
    destruct who; try done; by rewrite app_nil_r. }
  assert (Hsaves : main_saves s' = main_saves s).
  { unfold main_saves. rewrite Htr, omap_app. cbn.
    destruct who; try done; by rewrite app_nil_r. }
  assert (Hout : (stdout s' = stdout s ∧ ∀ l, act ≠ APrint l) ∨
                 ∃ t, act = APrint (LText t) ∧ stdout s' = stdout s ++ [LText t]).
  { unfold stdout. rewrite Htr, omap_app. cbn.
    destruct act; try (left; split; [by rewrite app_nil_r|done]).
    right. destruct (Hprint l eq_refl) as [[t ->] _]. eauto. }
  assert (Htput : tput_lines s' = tput_lines s).
  { unfold tput_lines. destruct Hout as [[-> _]|(t & _ & ->)]; [done|].
    rewrite omap_app. cbn. by rewrite app_nil_r. }
  assert (Hhead : ∀ x, head (stdout s) = Some x → head (stdout s') = Some x).
  { intros x Hx. destruct Hout as [[-> _]|(t & _ & ->)]; [done|].
    by apply head_app_Some. }
  unfold tinv. rewrite Hm, Hloads, Hsaves, Htput. split.
  - intros e He n rows ok ->. rewrite Htr, elem_of_app, list_elem_of_singleton in He.
    destruct He as [He|He]; [by eapply Hw|]. simplify_eq. by eapply Hsave.
  - destruct (main s) eqn:Hpc; try done; destruct_and?; split_and?; try done.
    all: try match goal with
             | H : ∃ path, _ ∧ head _ = _ |- ∃ path, _ =>
                 destruct H as (path & ? & ?); exists path; split; [done|by apply Hhead]
             end.
    + match goal with H : last _ = _ |- _ => rewrite <- H end.
      destruct Hout as [[-> _]|(t & -> & _)]; [done|].
      destruct (Hprint _ eq_refl) as [_ Hna]. by destruct (Hna actual).
    + by destruct (Hexit code).
Qed.

Lemma step_reader_trace i (s s' : @State T) :
  step_reader w i s = Some s' →
  ∃ act, trace s' = trace s ++ [(Reader i, act)] ∧
         (∀ rows ok, act ≠ ASave rows ok) ∧
         (∀ l, act = APrint l → ∃ t, l = LText t).
Proof.
  unfold step_reader. intros Hs.
  destruct (read_threads s !! i) as [[]|] eqn:Hi; try done;
    repeat case_match; simplify_eq; cbn; eexists; split_and!; try done.
  all: intros; simplify_eq; eauto.
Qed.

Lemma step_writer_trace n (s s' : @State T) :
  step_writer cfg w n s = Some s' →
  trace s' = trace s ∨
  ∃ ok, trace s' = trace s ++ [(Writer n, ASave (write_tx_rows w n) ok)].
Proof.
  unfold step_writer. intros Hs.
  destruct (tasks s !! n) as [[]|] eqn:Hn; try done;
    repeat case_match; simplify_eq; cbn; eauto.
Qed.

Lemma step_tinv who (s s' : @State T) :
  wf cfg w s → tinv cfg w s → step cfg w who s = Some s' → tinv cfg w s'.
Proof.
  intros Hwf Ht Hs. destruct who as [|i|n|n]; cbn in Hs.
  - by eapply step_main_tinv.
  - destruct (step_reader_trace _ _ _ Hs) as (act & Htr & Hns & Hp).
    apply step_reader_inv in Hs as (r & r' & Hi & Hr & _ & Hm & _).
    destruct Hwf as (_ & _ & Hpc).
    eapply (tinv_frame s s' (Reader i)); eauto. right. exists act. split_and!; try done.
    + intros l ->. split; [eauto|]. intros a Ha. rewrite Ha in Hpc.
      destruct Hpc as (_ & _ & _ & Hall). specialize (Hall _ _ Hi). congruence.
    + intros Ha. rewrite Ha in Hpc. destruct Hpc as [Hnil _]. by rewrite Hnil in Hi.
    + intros c Ha. rewrite Ha in Hpc. destruct Hpc as [Hnil _]. by rewrite Hnil in Hi.
  - destruct (step_writer_trace _ _ _ Hs) as [Htr|[ok Htr]];
      apply step_writer_inv in Hs as (t & t' & Hn & _ & _ & _ & Hm & _);
      destruct Hwf as (_ & _ & Hpc).
    + eapply (tinv_frame s s' (Writer n) []); eauto. by rewrite app_nil_r.
    + eapply (tinv_frame s s' (Writer n)); eauto. right. eexists. split_and!; try done.
      * intros; by simplify_eq.
      * intros Ha. rewrite Ha in Hpc. destruct Hpc as (_ & Hnil & _). by rewrite Hnil in Hn.
      * intros c Ha. rewrite Ha in Hpc. destruct Hpc as (_ & Hnil & _). by rewrite Hnil in Hn.
  - apply step_abandon_inv in Hs as (_ & _ & ->).
    eapply (tinv_frame s _ (Abandon n) []); eauto. by rewrite app_nil_r.
Qed.

Lemma reachable_tinv (tb : T) (s : @State T) : reachable cfg w tb s → tinv cfg w s.
Proof.
  induction 1 as [|s who s' Hr IH Hs]; [apply tinv_init|].
  eapply step_tinv; eauto. by eapply reachable_wf.
Qed.

Lemma acts_snoc who who' act (s s' : @State T) :
  trace s' = trace s ++ [(who', act)] →
  acts who s' = acts who s ++ (if decide (who' = who) then [act] else []).
Proof. unfold acts. intros ->. rewrite omap_app. cbn. by case_decide. Qed.

Lemma acts_frame who (s s' : @State T) evs :
  trace s' = trace s ++ evs → (∀ e, e ∈ evs → e.1 ≠ who) →
  acts who s' = acts who s.
Proof.
  unfold acts. intros -> Hevs. rewrite omap_app.
  induction evs as [|e evs IH]; cbn; [by rewrite app_nil_r|].
  case_decide as He; [by destruct (Hevs e (list_elem_of_here _ _))|].
  apply IH. intros e' He'. apply Hevs. by right.
Qed.

Lemma step_main_frame (s s' : @State T) :
  step_main cfg w s = Some s' →
  (∃ evs, trace s' = trace s ++ evs ∧ ∀ e, e ∈ evs → e.1 = Main ∧ ∀ b, e.2 ≠ AIsSet b) ∧
  (read_threads s' = read_threads s ∨ read_threads s' = read_threads s ++ [RTest]) ∧
  (stop_reading s = true → stop_reading s' = true).
Proof.
  unfold step_main. intros Hs.
  destruct (main s) eqn:Hm; simplify_eq.
  all: repeat case_match; simplify_eq; cbn.
  all: split_and!; eauto.
  all: try (by (eexists [_]; split; [done|]; intros ? ->%list_elem_of_singleton)).
  all: try (by (exists []; split; [by rewrite app_nil_r|]; intros ? []%elem_of_nil)).
  all: try (eexists [_; _]; rewrite <- app_assoc; (split; [done|]);
  intros ? He; rewrite !elem_of_cons in He; by destruct He as [->|[->|[]%elem_of_nil]]).
Qed.

Lemma polling_init : polling w RTest [].
Proof. exists [], []. split_and!; [done|constructor|done]. Qed.

Lemma polling_step i (s s' : @State T) r h :
  step_reader w i s = Some s' → read_threads s !! i = Some r →
  polling w r h →
  ∃ r' act, read_threads s' !! i = Some r' ∧
            trace s' = trace s ++ [(Reader i, act)] ∧
            (act = AIsSet true → stop_reading s = true) ∧
            stop_reading s' = stop_reading s ∧
            polling w r' (h ++ [act]).
Proof.
  unfold step_reader. intros Hs Hi (rounds & tail & -> & Hrounds & Htail).
  assert (Hlt : (i < length (read_threads s))%nat) by by eapply lookup_lt_Some.
  rewrite Hi in Hs. destruct r; try done; cbn in Htail.
  - subst tail. simplify_eq. eexists _, _. cbn. rewrite list_lookup_insert_eq by done.
    split_and!; try done.
    { intros [= Hb]. by rewrite Hb. }
    exists rounds, [AIsSet (stop_reading s)].
    split_and!; [by rewrite app_nil_r|done|by destruct (stop_reading s)].
  - subst tail. destruct (load (table s)) as [tb [rows|]] eqn:Hl; simplify_eq;
      eexists _, _; cbn; rewrite list_lookup_insert_eq by done;
      (split_and!; try done); exists rounds; eexists;
      (split_and!; [by rewrite <- app_assoc|done|cbn; eauto]).
  - destruct Htail as (rows & -> & ->). simplify_eq.
    eexists _, _; cbn; rewrite list_lookup_insert_eq by done.
    split_and!; try done. exists rounds. eexists.
    split_and!; [by rewrite <- app_assoc|done|cbn; eauto].
  - destruct Htail as (rows & ->). simplify_eq.
    eexists _, _; cbn; rewrite list_lookup_insert_eq by done.
    split_and!; try done. exists (rounds ++ poll_round w rows), [].
    split_and!; [by rewrite app_nil_r, <- app_assoc|by constructor|done].
Qed.

Lemma rinv_init (tb : T) : rinv w (init tb).
Proof. split; [intros i; cbn; by rewrite lookup_nil|intros i []%elem_of_nil]. Qed.

Lemma step_rinv who (s s' : @State T) :
  rinv w s → step cfg w who s = Some s' → rinv w s'.
Proof.
  intros [Hpoll Hseen] Hs. destruct who as [|j|n|n]; cbn in Hs.
  - apply step_main_frame in Hs as ((evs & Htr & Hevs) & Hrs & Hstop). split.
    + intros i. specialize (Hpoll i).
      rewrite (acts_frame (Reader i) s s' evs Htr)
        by (intros e He; destruct (Hevs e He) as [Hmain _]; by rewrite Hmain).
      destruct Hrs as [->| ->]; [done|].
      destruct (read_threads s !! i) as [r|] eqn:Hi.
      * rewrite lookup_app_l by (by eapply lookup_lt_Some). by rewrite Hi.
      * destruct ((read_threads s ++ [RTest]) !! i) as [r|] eqn:Hi'; [|done].
        apply lookup_ge_None in Hi. rewrite lookup_app_r in Hi' by done.
        apply list_lookup_singleton_Some in Hi' as [_ <-]. rewrite Hpoll.
        apply polling_init.
    + intros i Hi. rewrite Htr, elem_of_app in Hi. destruct Hi as [Hi|Hi]; [by eauto|].
      destruct (Hevs _ Hi) as [? _]. done.
  - destruct (read_threads s !! j) as [r|] eqn:Hj;
      [|unfold step_reader in Hs; by rewrite Hj in Hs].
    pose proof (Hpoll j) as Hpj. rewrite Hj in Hpj.
    destruct (polling_step j s s' r _ Hs Hj Hpj) as (r' & act & Hj' & Htr & Hact & Hst & Hp').
    apply step_reader_inv in Hs as (? & r'' & ? & _ & Hrs & _).
    split.
    + intros i. rewrite (acts_snoc (Reader i) (Reader j) act s s' Htr).
      destruct (decide (i = j)) as [->|Hij].
      * rewrite Hj'. by rewrite decide_True.
      * rewrite decide_False by congruence. rewrite app_nil_r.
        rewrite Hrs, list_lookup_insert_ne by done. apply Hpoll.
    + intros i Hi. rewrite Hst. rewrite Htr, elem_of_app, list_elem_of_singleton in Hi.
      destruct Hi as [Hi|Hi]; [by eauto|]. simplify_eq. by apply Hact.
  - destruct (step_writer_trace _ _ _ Hs) as [Htr|[ok Htr]];
      apply step_writer_inv in Hs as (t & t' & _ & _ & _ & _ & _ & Hrs & Hst & _).
    + unfold rinv, acts. by rewrite Htr, Hrs, Hst.
    + split.
      * intros i. rewrite (acts_snoc (Reader i) (Writer n) _ s s' Htr).
        rewrite decide_False by done. rewrite app_nil_r, Hrs. apply Hpoll.
      * intros i Hi. rewrite Hst. rewrite Htr, elem_of_app, list_elem_of_singleton in Hi.
        destruct Hi as [Hi|Hi]; [by eauto|]. done.
  - apply step_abandon_inv in Hs as (_ & _ & ->). done.
Qed.

Lemma reachable_rinv (tb : T) (s : @State T) : reachable cfg w tb s → rinv w s.
Proof.
  induction 1 as [|s who s' Hr IH Hs]; [apply rinv_init|by eapply step_rinv].
Qed.

Lemma run_reachable (tb : T) sched (s s' : @State T) :
  reachable cfg w tb s → run cfg w sched s = Some s' → reachable cfg w tb s'.
Proof.
  revert s. induction sched as [|who sched IH]; intros s Hr Hrun; cbn in Hrun.
  - by simplify_eq.
  - destruct (step cfg w who s) as [s1|] eqn:Hs; [|done].
    eapply IH; [|done]. by eapply reach_step.
Qed.

(** Once every call is done and every reader has ended, only the main
    thread can move. *)
Lemma quiescent (s : @State T) who :
  all_done s → all_terminated s → who ≠ Main → step cfg w who s = None.
Proof.
  intros Hd Ht Hwho. destruct who as [|i|n|n]; [done|..]; cbn.
  - unfold step_reader. destruct (read_threads s !! i) as [r|] eqn:Hi; [|done].
    specialize (Ht i r Hi). by destruct r.
  - unfold step_writer. destruct (tasks s !! n) as [t|] eqn:Hn; [|done].
    by rewrite (Hd n t Hn).
  - unfold step_abandon. destruct (tasks s !! n) as [t|] eqn:Hn; [|done].
    by rewrite (Hd n t Hn).
Qed.

(** C5. The stop signal is given only once every call [write_tx(n)] of the
    run has completed, and when the main thread stands at the final count
    every call is done and every reader thread has ended: from there no
    thread but the main thread can take a step. *)
Theorem final_count_after_writers_and_readers (tb : T) (s : @State T) :
  reachable cfg w tb s →
  (stop_reading s = true →
     all_done s ∧ length (tasks s) = Z.to_nat (num_rows cfg)) ∧
  (main s = PCount →
     stop_reading s = true ∧
     all_done s ∧ length (tasks s) = Z.to_nat (num_rows cfg) ∧
     all_terminated s ∧
     length (read_threads s) = Z.to_nat (concurrent_readers cfg) ∧
     ∀ who, who ≠ Main → step cfg w who s = None).
Proof.
  intros Hr. destruct (reachable_wf tb s Hr) as (Hstop & _ & Hpc).
  split; [done|]. intros Hm. rewrite Hm in Hpc.
  destruct Hpc as (Hlen & Hst & _ & Hterm). destruct (Hstop Hst) as [Hd Hn].
  split_and!; try done. intros who Hwho. by apply quiescent.
Qed.

(** A state in which the main thread has ended by an exception after the
    readers were joined. *)
Lemma raised_is_final (s : @State T) e :
  all_done s → all_terminated s → main s = PRaised e →
  ∀ who, step cfg w who s = None.
Proof.
  intros Hd Ht Hm who. destruct (decide (who = Main)) as [->|Hwho].
  - cbn. unfold step_main. by rewrite Hm.
  - by apply quiescent.
Qed.


(** C4 (amended). When the final count differs from [num_rows] the
    assertion raises an [AssertionError] that carries no message and prints
    nothing.  The count observed is the last line printed before it, the
    number expected stands in the settings printed first, and after the
    exception no thread takes a step: nothing is retried. *)
Theorem count_mismatch_halts (tb : T) (s : @State T) (actual : Z) :
  reachable cfg w tb s → main s = PAssert actual → actual ≠ num_rows cfg →
  ∃ s', step cfg w Main s = Some s' ∧
        main s' = PRaised (AssertionError None) ∧
        stdout s' = stdout s ∧
        last (stdout s) = Some (LText (written_line actual)) ∧
        (∃ path, delta_table_path cfg = Some path ∧
                 head (stdout s) = Some (LText (test_log cfg path))) ∧
        (∀ who, step cfg w who s' = None).
Proof.
  intros Hr Hm Hne. pose proof (reachable_wf tb s Hr) as (Hstop & _ & Hpc).
  pose proof (reachable_tinv tb s Hr) as (_ & Ht).
  rewrite Hm in Hpc, Ht.
  destruct Hpc as (_ & Hst & _ & Hterm). destruct (Hstop Hst) as [Hd Hn].
  destruct Ht as (Hhead & _ & _ & _ & Hlast).
  cbn. unfold step_main. rewrite Hm, decide_False by done.
  eexists. split_and!; try done.
  - unfold stdout. cbn. by rewrite omap_app, app_nil_r.
  - by apply (raised_is_final _ (AssertionError None)).
Qed.

(** C7. At most one throughput line is ever printed, and a run that
    reaches the end of the script has printed exactly one.  Its figure is
    [num_rows] divided by the difference of two clock readings: the first is
    taken when no call [write_tx(n)] has been handed out yet, by the
    statement right before [pool.map], the second after the assertion. *)
Theorem throughput_reported_once (tb : T) (s : @State T) :
  reachable cfg w tb s →
  (tput_lines s = [] ∨ tput_lines s = [throughput cfg w]) ∧
  (main s = PDone → tput_lines s = [throughput cfg w]) ∧
  (main s = PTimer →
     tasks s = [] ∧ start_t s = None ∧
     ∃ s', step cfg w Main s = Some s' ∧ main s' = PMap ∧
           start_t s' = Some (time_time w 0) ∧ tasks s' = []) ∧
  (main s = PElapsed →
     ∃ s', step cfg w Main s = Some s' ∧
           main s' = PReport (Qminus (time_time w 1) (time_time w 0))) ∧
  (∀ t, main s = PReport t → Qeq_bool t 0 = false →
     ∃ s', step cfg w Main s = Some s' ∧ main s' = PScan ∧
           stdout s' = stdout s ++ [LThroughput (throughput cfg w)]).
Proof.
  intros Hr. pose proof (reachable_wf tb s Hr) as (Hstop & _ & Hpc).
  pose proof (reachable_tinv tb s Hr) as (_ & Ht).
  split_and!.
  - destruct (main s); destruct_and?; eauto.
    left. unfold tput_lines, stdout. by rewrite Ht.
    left. unfold tput_lines, stdout.
    match goal with H : trace s = _ |- _ => by rewrite H end.
  - intros Hm. rewrite Hm in Ht. by destruct Ht as (_ & ? & _).
  - intros Hm. rewrite Hm in Hpc. destruct Hpc as (_ & Hts & _ & Ht0).
    split_and!; try done. cbn. unfold step_main. rewrite Hm. eauto.
  - intros Hm. rewrite Hm in Hpc. destruct Hpc as (_ & _ & Ht0 & _).
    cbn. unfold step_main. rewrite Hm, Ht0. eauto.
  - intros t Hm Hnz. rewrite Hm in Hpc. destruct Hpc as (_ & _ & _ & _ & ->).
    cbn. unfold step_main. rewrite Hm, Hnz. eexists. split_and!; try done.
    unfold stdout. cbn. by rewrite omap_app.
Qed.

Lemma poll_rounds_flat_map (h : list Action) :
  poll_rounds w h → ∃ polled, h = flat_map (poll_round w) polled.
Proof.
  induction 1 as [|h rows _ [polled ->]]; [by exists []|].
  exists (polled ++ [rows]). rewrite flat_map_app. cbn. by rewrite ?app_nil_r.
Qed.

(** C6. While the writers run there are [concurrent_readers] reader
    threads.  What each of them has done so far is a number of full rounds
    followed by the round it is in.  A full round is: test the stop signal
    and find it unset; load the table; print [Reading n rows ...], where [n]
    is the number of loaded rows whose [run_id] is the run identifier; sleep
    one second.  The round a reader is in is the beginning of such a round,
    or the test that found the signal set, or a load that raised.  A reader
    found the signal set only after it was given; a reader that tests the
    signal once it is given returns, and a reader that has returned takes
    no further step. *)
Theorem readers_poll_until_stopped (tb : T) (s : @State T) :
  reachable cfg w tb s →
  (main s = PWait →
     length (read_threads s) = Z.to_nat (concurrent_readers cfg)) ∧
  (∀ i r, read_threads s !! i = Some r → polling w r (acts (Reader i) s)) ∧
  (∀ i, (Reader i, AIsSet true) ∈ trace s → stop_reading s = true) ∧
  (∀ i, read_threads s !! i = Some RTest → stop_reading s = true →
     ∃ s', step cfg w (Reader i) s = Some s' ∧
           read_threads s' !! i = Some RReturned) ∧
  (∀ i, read_threads s !! i = Some RReturned →
     step cfg w (Reader i) s = None) ∧
  (let round := λ rows : list Row,
       [AIsSet false; ALoad (Some rows);
        APrint (LText ("Reading "
                       +:+ pretty (Z.of_nat (length (filter (λ r : Row, run_id r = uuid4 w)
                                                            rows)))
                       +:+ " rows ..."));
        ASleep 1] in
   ∀ i r, read_threads s !! i = Some r →
     ∃ polled tail,
       acts (Reader i) s = flat_map round polled ++ tail ∧
       (tail = [AIsSet true] ∧ r = RReturned ∨
        tail = [AIsSet false; ALoad None] ∧ r = RDied ∨
        ∃ rows k, (k < 4)%nat ∧ tail = take k (round rows))).
Proof.
  intros Hr. pose proof (reachable_wf tb s Hr) as (_ & _ & Hpc).
  pose proof (reachable_rinv tb s Hr) as (Hpoll & Hseen).
  split_and!.
  - intros Hm. rewrite Hm in Hpc. by destruct Hpc as [? _].
  - intros i r Hi. specialize (Hpoll i). by rewrite Hi in Hpoll.
  - done.
  - intros i Hi Hst. cbn. unfold step_reader. rewrite Hi, Hst.
    eexists. split; [done|]. cbn. apply list_lookup_insert_eq.
    by eapply lookup_lt_Some.
  - intros i Hi. cbn. unfold step_reader. by rewrite Hi.
  - intros round i r Hi. specialize (Hpoll i). rewrite Hi in Hpoll.
    destruct Hpoll as (rounds & tail & -> & Hrounds & Htail).
    apply poll_rounds_flat_map in Hrounds as [polled ->].
    exists polled, tail. split; [done|].
    destruct r; cbn in Htail.
    + right; right. exists [], 0%nat. by split; [lia|].
    + right; right. exists [], 1%nat. by split; [lia|].
    + destruct Htail as (rows & _ & ->). right; right. exists rows, 2%nat.
      by split; [lia|].
    + destruct Htail as (rows & ->). right; right. exists rows, 3%nat.
      by split; [lia|].
    + by left.
    + right; by left.
Qed.

(** C3 (amended). Every append a writer makes saves one row; the row is
    tagged with the run identifier of the run, its [id] is the number drawn
    by [random.randrange(2**16)] and lies in [range(2**16)], and its [a] is
    the number of the transaction.  The rows of two different transactions
    differ in [a]; nothing makes their [id]s differ. *)
Theorem writer_rows_tagged (tb : T) (s : @State T) n rows ok :
  randrange_ok w →
  reachable cfg w tb s → (Writer n, ASave rows ok) ∈ trace s →
  (∃ row, rows = [row] ∧
          run_id row = RUN_ID w ∧ id row = randrange w n ∧
          0 ≤ id row < 2 ^ 16 ∧ a row = Z.of_nat n) ∧
  (∀ m rows' ok', (Writer m, ASave rows' ok') ∈ trace s → n ≠ m →
     ∀ row row', row ∈ rows → row' ∈ rows' → a row ≠ a row').
Proof.
  intros Hrand Hr Hn. pose proof (reachable_tinv tb s Hr) as (Hw & _).
  pose proof (Hw _ Hn _ _ _ eq_refl) as ->. split.
  - eexists. split; [done|]. cbn. split_and!; try done; apply Hrand.
  - intros m rows' ok' Hm Hnm row row' Hrow Hrow'.
    pose proof (Hw _ Hm _ _ _ eq_refl) as ->.
    apply list_elem_of_singleton in Hrow as ->.
    apply list_elem_of_singleton in Hrow' as ->. cbn. lia.
Qed.

End HarnessFacts.
Section IdealTable.
Variable cfg : Config.
Variable w : World.
Variable tb : list Row.

Lemma written_snoc (s s' : @State (list Row)) who act :
  trace s' = trace s ++ [(who, act)] →
  written s' = written s ++
    match who, act with
    | Writer _, ASave rows true => rows
    | _, _ => []
    end.
Proof.
  unfold written. intros ->. rewrite omap_app, join_app. f_equal.
  destruct who, act as [| | |? []| | | | | | | | | | |]; cbn; by rewrite ?app_nil_r.
Qed.

Lemma main_loads_snoc (s s' : @State (list Row)) who act :
  trace s' = trace s ++ [(who, act)] →
  main_loads s' = main_loads s ++
    match who, act with
    | Main, ALoad r => [r]
    | _, _ => []
    end.
Proof.
  unfold main_loads. intros ->. rewrite omap_app. f_equal.
  destruct who, act; done.
Qed.

Lemma done_tasks_insert (ts : list TaskSt) n t t' :
  ts !! n = Some t → t ≠ Done →
  length (filter (λ t, t = Done) (<[n := t']> ts)) =
  (length (filter (λ t, t = Done) ts) + if decide (t' = Done) then 1 else 0)%nat.
Proof.
  revert n. induction ts as [|x ts IH]; intros [|n] Hn Ht; simplify_eq.
  - change (<[0%nat := t']> (x :: ts)) with (t' :: ts).
    rewrite !filter_cons. cbn in Hn. simplify_eq.
    rewrite (decide_False (P := t = Done)) by done.
    case_decide; cbn [length]; lia.
  - change (<[S n := t']> (x :: ts)) with (x :: <[n := t']> ts).
    rewrite !filter_cons. cbn in Hn.
    destruct (decide (x = Done)); cbn [length]; rewrite (IH n Hn Ht); lia.
Qed.

Lemma done_tasks_pending (n : nat) :
  filter (λ t, t = Done) (replicate n Pending) = [].
Proof.
  induction n as [|n IH]; [done|].
  change (replicate (S n) Pending) with (Pending :: replicate n Pending).
  by rewrite filter_cons, decide_False.
Qed.

Lemma step_main_ideal (s s' : @State (list Row)) :
  wf cfg w s → step_main cfg w s = Some s' →
  table s' = table s ∧ written s' = written s ∧
  (stop_reading s = true → stop_reading s' = true) ∧
  (tasks s' = tasks s ∨
   (tasks s = [] ∧ ∃ n, tasks s' = replicate n Pending)) ∧
  (main_loads s' = main_loads s ∨
   (main s = PCount ∧ stop_reading s' = true ∧
    main_loads s' = main_loads s ++ [Some (table s)])).
Proof.
  intros (_ & _ & Hpc) Hs. unfold step_main in Hs.
  destruct (main s) eqn:Hm; cbn in Hs; repeat case_match; simplify_eq.
  all: unfold written, main_loads;
       cbn [trace table tasks stop_reading emit goto with_table with_stop
            with_readers with_tasks with_start_t];
       rewrite ?omap_app; cbn [omap list_omap mjoin app]; rewrite ?app_nil_r.
  all: destruct_and?; split_and!; eauto.
Qed.

Lemma ideal_inv_update (s s' : @State (list Row)) extra :
  ideal_inv cfg w tb s →
  table s' = table s ++ extra → written s' = written s ++ extra →
  done_tasks s' = (done_tasks s + length extra)%nat →
  main_loads s' = main_loads s → stop_reading s' = stop_reading s →
  (extra = [] ∨ main_loads s = []) →
  ideal_inv cfg w tb s'.
Proof.
  intros (Htb & Hlen & Hloads) Ht Hw Hd Hl Hst Hex. unfold ideal_inv.
  rewrite Ht, Hw, Hd, Hl, Hst, Htb, length_app, Hlen, <- app_assoc.
  split_and!; [done..|].
  destruct Hex as [->|Hnil]; [|by left].
  rewrite app_nil_r, <- Htb. done.
Qed.

Lemma step_ideal_inv who (s s' : @State (list Row)) :
  wf cfg w s → tinv cfg w s → ideal_inv cfg w tb s →
  step cfg w who s = Some s' → ideal_inv cfg w tb s'.
Proof.
  intros Hwf Hti Hinv Hs. pose proof Hinv as (Htb & Hlen & Hloads).
  destruct who as [|i|n|n]; cbn in Hs.
  - destruct (step_main_ideal s s' Hwf Hs) as (Ht & Hw & Hst & Hts & Hl).
    unfold ideal_inv, done_tasks in *. rewrite Ht, Hw. split_and!; [done| |].
    + destruct Hts as [->|[Hnil [n ->]]]; [done|].
      rewrite Hnil in Hlen. by rewrite done_tasks_pending.
    + destruct Hl as [->|(Hpc & Hstop & ->)].
      * destruct Hloads as [?|[? ?]]; eauto.
      * right. split; [done|]. destruct Hti as [_ Hti]. rewrite Hpc in Hti.
        destruct Hti as (_ & _ & -> & _). done.
  - destruct (step_reader_trace w i s s' Hs) as (act & Htr & Hns & _).
    assert (Ht : table s' = table s).
    { unfold step_reader in Hs. repeat case_match; cbn in *; by simplify_eq. }
    apply (step_reader_inv w) in Hs as (_ & _ & _ & _ & _ & _ & Hts & Hst & _).
    apply (ideal_inv_update s s' []); rewrite ?app_nil_r; eauto.
    + rewrite (written_snoc s s' _ _ Htr). cbn. by rewrite app_nil_r.
    + unfold done_tasks. rewrite Hts. cbn. lia.
    + rewrite (main_loads_snoc s s' _ _ Htr). cbn. by rewrite app_nil_r.
  - unfold step_writer in Hs.
    destruct (tasks s !! n) as [[]|] eqn:Hn; try done.
    + case_decide; simplify_eq.
      apply (ideal_inv_update s _ []); rewrite ?app_nil_r; eauto.
      unfold done_tasks. cbn [tasks with_tasks].
      rewrite (done_tasks_insert _ n Pending Running) by done.
      rewrite decide_False by done. cbn. lia.
    + cbn in Hs. simplify_eq.
      assert (Hnl : main_loads s = []).
      { destruct Hloads as [?|[Hstop _]]; [done|].
        destruct Hwf as (Hall & _). destruct (Hall Hstop) as [Hd _].
        by specialize (Hd n Running Hn). }
      apply (ideal_inv_update s _ (write_tx_rows w n)); eauto.
      * erewrite written_snoc by (cbn; reflexivity). done.
      * unfold done_tasks. cbn [tasks with_tasks with_table emit].
        rewrite (done_tasks_insert _ n Running Done) by done.
        by rewrite decide_True by done.
      * erewrite main_loads_snoc by (cbn; reflexivity). cbn. by rewrite app_nil_r.
  - apply step_abandon_inv in Hs as (Hn & _ & ->).
    apply (ideal_inv_update s _ []); rewrite ?app_nil_r; eauto.
    unfold done_tasks. cbn [tasks with_tasks].
    rewrite (done_tasks_insert _ n Pending Dropped) by done.
    rewrite decide_False by done. cbn. lia.
Qed.

Lemma reachable_ideal_inv (s : @State (list Row)) :
  reachable cfg w tb s → ideal_inv cfg w tb s.
Proof.
  induction 1 as [|s who s' Hr IH Hs].
  - split_and!; [by rewrite app_nil_r|done|by left].
  - eapply step_ideal_inv; eauto using reachable_wf, reachable_tinv.
Qed.

Lemma written_run_id (s : @State (list Row)) r :
  tinv cfg w s → r ∈ written s → run_id r = RUN_ID w.
Proof.
  intros [Hw _] Hr. unfold written in Hr.
  apply list_elem_of_join in Hr as (rows & Hr & Hrows).
  apply list_elem_of_omap in Hrows as ([who act] & He & Hsome).
  destruct who, act as [| | |? []| | | | | | | | | | |]; simplify_eq.
  rewrite (Hw _ He _ _ _ eq_refl) in Hr.
  apply list_elem_of_singleton in Hr as ->. done.
Qed.

Lemma count_rows_app rows1 rows2 :
  count_rows w (rows1 ++ rows2) = count_rows w rows1 + count_rows w rows2.
Proof. unfold count_rows. rewrite filter_app, length_app. lia. Qed.

Lemma count_rows_fresh rows :
  (∀ r, r ∈ rows → run_id r ≠ RUN_ID w) → count_rows w rows = 0.
Proof.
  intros Hf. unfold count_rows.
  induction rows as [|r rows IH]; [done|]. rewrite filter_cons.
  rewrite decide_False by (apply Hf; left). apply IH. intros r' Hr'. apply Hf. by right.
Qed.

Lemma count_rows_run rows :
  (∀ r, r ∈ rows → run_id r = RUN_ID w) → count_rows w rows = Z.of_nat (length rows).
Proof.
  intros Hf. unfold count_rows. f_equal. f_equal.
  induction rows as [|r rows IH]; [done|]. rewrite filter_cons.
  rewrite decide_True by (apply Hf; left). f_equal. apply IH.
  intros r' Hr'. apply Hf. by right.
Qed.

(** C9. The statement that creates the table saves an empty record set.
    On a table that behaves as documented and holds no row of the run
    identifier beforehand: the table holds what it held plus the rows the
    writers committed, the count for the run is the number of those rows
    (zero as long as no writer has committed, in particular while no call
    has been handed out), and the count the assertion checks is that
    number. *)
Theorem create_appends_nothing (s : @State (list Row)) :
  (∀ r, r ∈ tb → run_id r ≠ RUN_ID w) →
  reachable cfg w tb s →
  (∀ rows, rows ∈ main_saves s → rows = []) ∧
  table s = tb ++ written s ∧
  count_rows w (table s) = Z.of_nat (length (written s)) ∧
  length (written s) = done_tasks s ∧
  (tasks s = [] → count_rows w (table s) = 0) ∧
  (∀ actual, main s = PAssert actual → actual = Z.of_nat (length (written s))).
Proof.
  intros Hfresh Hr.
  pose proof (reachable_tinv cfg w tb s Hr) as Ht.
  pose proof (reachable_ideal_inv s Hr) as (Htb & Hlen & Hloads).
  assert (Hcount : count_rows w (table s) = Z.of_nat (length (written s))).
  { rewrite Htb, count_rows_app, (count_rows_fresh tb Hfresh).
    rewrite count_rows_run; [lia|]. intros r. by apply written_run_id. }
  split_and!; try done.
  - intros rows Hrows. destruct Ht as [_ Ht].
    destruct (main s); destruct_and?;
      repeat match goal with
             | H : main_saves s = _ |- _ => rewrite H in Hrows
             | H : main_saves s = _ ∨ _ |- _ => destruct H
             | H : trace s = _ |- _ => unfold main_saves in Hrows; rewrite H in Hrows
             end; cbn in Hrows;
      try (by apply elem_of_nil in Hrows);
      by apply list_elem_of_singleton in Hrows.
  - intros Hnil. rewrite Hcount, Hlen. unfold done_tasks. by rewrite Hnil.
  - intros actual Hm. destruct Ht as [_ Ht]. rewrite Hm in Ht.
    destruct Ht as (_ & _ & _ & (rows & Hl & ->) & _).
    destruct Hloads as [Hnil|[_ Hl']]; [by rewrite Hnil in Hl|].
    rewrite Hl in Hl'. by simplify_eq.
Qed.

End IdealTable.

(** * The script as a whole, and sample runs *)

Lemma state_after_reachable {T : Type} `{!DeltaTable T} cfg w sched (tb : T) :
  is_Some (run cfg w sched (init tb)) →
  reachable cfg w tb (state_after cfg w sched tb).
Proof.
  intros [s Hs]. unfold state_after. rewrite Hs. cbn.
  eapply run_reachable; [apply reach_init|done].
Qed.

Lemma load_config_path py env cfg :
  load_config py env = Ok cfg → delta_table_path cfg = env !! "DELTA_TABLE_PATH".
Proof.
  unfold load_config, bind. intros Hl. repeat case_match; by simplify_eq.
Qed.

Lemma skip_only {T : Type} `{!DeltaTable T} cfg w (tb : T) (s : @State T) :
  delta_table_path cfg = None → reachable cfg w tb s →
  s = init tb ∨
  s = emit Main (AExit 0)
        (emit Main (APrint (LText skip_message)) (goto (PExit 0) (init tb))).
Proof.
  intros Hp. induction 1 as [|s who s' _ IH Hs]; [by left|]. right.
  destruct IH as [-> | ->]; destruct who; cbn in Hs; try done.
  unfold step_main in Hs. cbn in Hs. rewrite Hp in Hs. by simplify_eq.
Qed.

(** C10. With the table path set and no other variable of the script
    present in the environment, the settings are: 2 writers, 2 readers, 16
    rows, the store class [io.delta.storage.DynamoDBLogStore], the DynamoDB
    table [delta_log_test] in region [us-west-2], and empty error rates. *)
Theorem load_config_defaults (py : Python) (env : Environ) (path : string) :
  env !! "DELTA_TABLE_PATH" = Some path →
  env !! "DELTA_CONCURRENT_WRITERS" = None →
  env !! "DELTA_CONCURRENT_READERS" = None →
  env !! "DELTA_NUM_ROWS" = None →
  env !! "DELTA_STORAGE" = None →
  env !! "DELTA_DYNAMO_TABLE" = None →
  env !! "DELTA_DYNAMO_REGION" = None →
  env !! "DELTA_DYNAMO_ERROR_RATES" = None →
  load_config py env =
    Ok {| delta_table_path := Some path;
          concurrent_writers := 2;
          concurrent_readers := 2;
          num_rows := 16;
          delta_storage := "io.delta.storage.DynamoDBLogStore";
          dynamo_table_name := "delta_log_test";
          dynamo_region := "us-west-2";
          dynamo_error_rates := "" |}.
Proof.
  intros Hp Hw Hr Hn Hs Ht Hg He.
  unfold load_config, environ_get, environ_get_str.
  rewrite Hp, Hw, Hr, Hn, Hs, Ht, Hg, He. reflexivity.
Qed.

Lemma load_config_defaults_witness :
  load_config python_sample env_defaults = Ok cfg_defaults.
Proof.
  apply (load_config_defaults python_sample env_defaults
           "s3a://test-bucket/delta-test/"); reflexivity.
Defined.

(** C8 (amended). When the table path is not set and each of the three
    numeric settings is absent or converts with [int], the script prints
    the skip message and leaves with status 0: that is the only step ever
    taken, so no session is created and nothing is saved, loaded or
    asserted. *)
Theorem skip_when_table_path_unset {T : Type} `{!DeltaTable T}
    (env : Environ) (w : World) (tb : T) :
  env !! "DELTA_TABLE_PATH" = None →
  (∀ key v,
     key ∈ ["DELTA_CONCURRENT_WRITERS"; "DELTA_CONCURRENT_READERS"; "DELTA_NUM_ROWS"] →
     env !! key = Some v → ∃ z, int_of_str (python w) v = Ok z) →
  ∃ cfg s1,
    load_config (python w) env = Ok cfg ∧
    step cfg w Main (init tb) = Some s1 ∧
    main s1 = PExit 0 ∧
    trace s1 = [(Main, APrint (LText skip_message)); (Main, AExit 0)] ∧
    table s1 = tb ∧ read_threads s1 = [] ∧ tasks s1 = [] ∧
    (∀ who, step cfg w who s1 = None) ∧
    (∀ s, script_reachable env w tb s → s = init tb ∨ s = s1).
Proof.
  intros Hp Hnum.
  assert (Hconv : ∀ key d, key ∈ ["DELTA_CONCURRENT_WRITERS";
                                   "DELTA_CONCURRENT_READERS"; "DELTA_NUM_ROWS"] →
                  ∃ z, py_int (python w) (environ_get env key (VInt d)) = Ok z).
  { intros key d Hkey. unfold environ_get.
    destruct (env !! key) as [v|] eqn:Hv; [|by eexists].
    by apply (Hnum key v). }
  destruct (Hconv "DELTA_CONCURRENT_WRITERS" 2) as [zw Hzw]; [set_solver|].
  destruct (Hconv "DELTA_CONCURRENT_READERS" 2) as [zr Hzr]; [set_solver|].
  destruct (Hconv "DELTA_NUM_ROWS" 16) as [zn Hzn]; [set_solver|].
  assert (∃ cfg, load_config (python w) env = Ok cfg) as [cfg Hcfg].
  { unfold load_config. rewrite Hzw, Hzr, Hzn. cbn. by eexists. }
  pose proof (load_config_path _ env cfg Hcfg) as Hpath. rewrite Hp in Hpath.
  exists cfg. eexists. split; [done|]. split.
  { cbn. unfold step_main. cbn. by rewrite Hpath. }
  split_and!; try done.
  - by intros [].
  - intros s (cfg' & Hcfg' & Hs). rewrite Hcfg in Hcfg'. simplify_eq.
    by apply (skip_only cfg' w tb s).
Qed.

Lemma skip_when_table_path_unset_witness :
  ∃ s1 : @State (list Row),
    load_config python_sample env_no_path = Ok cfg_no_path ∧
    step cfg_no_path world_sample Main (init []) = Some s1 ∧
    main s1 = PExit 0 ∧
    stdout s1 =
      [LText (nl +:+ "Skipping Python test dynamodb_logstore.py due to the missing env variable `DELTA_TABLE_PATH`"
              +:+ nl +:+ "=====================")].
Proof.
  destruct (skip_when_table_path_unset env_no_path world_sample ([] : list Row))
    as (cfg & s1 & Hcfg & Hs & Hm & Htr & _).
  - reflexivity.
  - intros key v Hkey Hv. rewrite !elem_of_cons in Hkey.
    destruct Hkey as [->|[->|[->|[]%elem_of_nil]]];
      vm_compute in Hv; simplify_eq.
    by eexists.
  - vm_compute in Hcfg. injection Hcfg as <-.
    exists s1. split_and!; [reflexivity|done|done|].
    unfold stdout. by rewrite Htr.
Defined.

(** C8, as stated, fails: with no table path and [DELTA_NUM_ROWS=abc] the
    script ends by a [ValueError] at line 49, before the test of line 57. *)
Lemma skip_when_table_path_unset_counterexample :
  env_no_path_bad_rows !! "DELTA_TABLE_PATH" = None ∧
  load_config python_sample env_no_path_bad_rows = Raise ValueError ∧
  ¬ ∃ (s : @State (list Row)),
      script_reachable env_no_path_bad_rows world_sample [] s.
Proof.
  split_and!; [reflexivity|reflexivity|].
  intros (s & cfg & Hcfg & _). vm_compute in Hcfg. discriminate.
Qed.

Lemma final_count_after_writers_and_readers_witness :
  main s_small_at_count = PCount ∧
  stop_reading s_small_at_count = true ∧
  tasks s_small_at_count = [Done; Done; Done] ∧
  read_threads s_small_at_count = [RReturned] ∧
  ∀ who, who ≠ Main → step cfg_small world_sample who s_small_at_count = None.
Proof.
  destruct (final_count_after_writers_and_readers cfg_small world_sample
              tb_earlier_run s_small_at_count) as [_ Hcount].
  - apply state_after_reachable. vm_compute. by eexists.
  - destruct (Hcount eq_refl) as (_ & _ & _ & _ & _ & Hq).
    split_and!; [reflexivity..|done].
Defined.



Lemma count_mismatch_halts_witness :
  ∃ s', step cfg_small world_sample Main s_lossy_at_assert = Some s' ∧
        main s' = PRaised (AssertionError None) ∧
        stdout s' = stdout s_lossy_at_assert ∧
        last (stdout s_lossy_at_assert) = Some (LText "Number of written rows: 0") ∧
        ∀ who, step cfg_small world_sample who s' = None.
Proof.
  destruct (count_mismatch_halts cfg_small world_sample {| kept := [] |}
              s_lossy_at_assert 0) as (s' & Hs & Hm & Hout & Hlast & _ & Hfin).
  - apply state_after_reachable. vm_compute. by eexists.
  - reflexivity.
  - cbn. lia.
  - exists s'. split_and!; done.
Defined.

(** C4, as stated, fails: the exception that ends the run carries no
    message, and the lines printed are the settings, one progress line and
    the count observed; no line sets 3 expected against 0 observed. *)
Lemma count_mismatch_halts_counterexample :
  reachable cfg_small world_sample {| kept := [] |} s_lossy_failed ∧
  num_rows cfg_small = 3 ∧
  main s_lossy_failed = PRaised (AssertionError None) ∧
  stdout s_lossy_failed =
    [LText (test_log cfg_small "s3a://test-bucket/delta-test/");
     LText "Reading 0 rows ...";
     LText "Number of written rows: 0"].
Proof.
  split_and!; [|reflexivity..].
  apply state_after_reachable. vm_compute. by eexists.
Qed.

Lemma readers_poll_until_stopped_witness :
  read_threads s_small_polled !! 0%nat = Some RReturned ∧
  polling world_sample RReturned (acts (Reader 0) s_small_polled) ∧
  acts (Reader 0) s_small_polled =
    [ AIsSet false;
      ALoad (Some [ {| run_id := "0b7d5c3e-0000-4000-8000-00000000000f";
                       id := 41; a := 0 |};
                    {| run_id := "6f1c2a9e-0000-4000-8000-000000000001";
                       id := 7; a := 0 |} ]);
      APrint (LText "Reading 1 rows ...");
      ASleep 1;
      AIsSet true ] ∧
  step cfg_small world_sample (Reader 0) s_small_polled = None.
Proof.
  destruct (readers_poll_until_stopped cfg_small world_sample
              tb_earlier_run s_small_polled) as (_ & Hpoll & _ & _ & Hret & _).
  - apply state_after_reachable. vm_compute. by eexists.
  - split_and!; [reflexivity|by apply Hpoll|reflexivity|by apply Hret].
Defined.

Lemma throughput_reported_once_witness :
  main s_small_done = PDone ∧
  tput_lines s_small_done = [throughput cfg_small world_sample] ∧
  throughput cfg_small world_sample = Qdiv (inject_Z 3) (Qminus (inject_Z 12) (inject_Z 10)).
Proof.
  destruct (throughput_reported_once cfg_small world_sample
              tb_earlier_run s_small_done) as (_ & Hdone & _).
  - apply state_after_reachable. vm_compute. by eexists.
  - split_and!; [reflexivity|by apply Hdone|reflexivity].
Defined.

Lemma world_sample_randrange_ok : randrange_ok world_sample.
Proof. intros n. cbn. lia. Qed.

Lemma writer_rows_tagged_witness :
  ∃ row, [ {| run_id := uuid4 world_sample; id := 7; a := 1 |} ] = [row] ∧
         run_id row = RUN_ID world_sample ∧ id row = randrange world_sample 1 ∧
         0 ≤ id row < 2 ^ 16 ∧ a row = 1.
Proof.
  destruct (writer_rows_tagged cfg_small world_sample tb_earlier_run
              s_small_at_count 1
              [ {| run_id := uuid4 world_sample; id := 7; a := 1 |} ] true)
    as [Hrow _].
  - apply world_sample_randrange_ok.
  - apply state_after_reachable. vm_compute. by eexists.
  - apply list_elem_of_lookup. exists 11%nat. reflexivity.
  - exact Hrow.
Defined.

(** C3, as stated, fails: two transactions of one run that drew the same
    number carry the same [id]. *)
Lemma writer_rows_tagged_counterexample :
  randrange_ok world_sample ∧
  reachable cfg_small world_sample tb_earlier_run s_small_at_count ∧
  ∃ row0 row1,
    (Writer 0, ASave [row0] true) ∈ trace s_small_at_count ∧
    (Writer 1, ASave [row1] true) ∈ trace s_small_at_count ∧
    run_id row0 = run_id row1 ∧ id row0 = id row1.
Proof.
  split_and!; [apply world_sample_randrange_ok| |].
  - apply state_after_reachable. vm_compute. by eexists.
  - exists {| run_id := uuid4 world_sample; id := 7; a := 0 |},
           {| run_id := uuid4 world_sample; id := 7; a := 1 |}.
    split_and!; [| |reflexivity..].
    + apply list_elem_of_lookup. exists 8%nat. reflexivity.
    + apply list_elem_of_lookup. exists 11%nat. reflexivity.
Qed.

Lemma create_appends_nothing_witness :
  table s_small_done = tb_earlier_run ++ written s_small_done ∧
  length (written s_small_done) = 3%nat ∧
  count_rows world_sample (table s_small_done) = 3 ∧
  main_saves s_small_done = [[]].
Proof.
  destruct (create_appends_nothing cfg_small world_sample tb_earlier_run
              s_small_done) as (_ & Htb & Hcount & _).
  - intros r Hr. apply list_elem_of_singleton in Hr as ->. cbn. discriminate.
  - apply state_after_reachable. vm_compute. by eexists.
  - split_and!; [done|reflexivity| |reflexivity].
    rewrite Hcount. reflexivity.
Defined.

(** * Properties of the log store model *)

Module LogStoreFacts.
Import LogStore.

(** ** How the calls change the two services *)

Lemma put_new_objects p b s q :
  objects (put_new p b s) !! q =
  if decide (p = q) then Some (default b (objects s !! p)) else objects s !! q.
Proof.
  unfold put_new. case_decide as Hpq; [subst q|].
  - destruct (objects s !! p) eqn:Hp; cbn; [done|]. by rewrite lookup_insert_eq.
  - destruct (objects s !! p); cbn; [done|]. by rewrite lookup_insert_ne.
Qed.

Lemma put_new_rest p b s :
  ledger (put_new p b s) = ledger s ∧ next_suffix (put_new p b s) = next_suffix s ∧
  writers (put_new p b s) = writers s ∧ recoverers (put_new p b s) = recoverers s.
Proof. unfold put_new. by destruct (objects s !! p). Qed.

Lemma put_if_absent_ledger k e s k' :
  ledger (put_if_absent k e s) !! k' =
  if decide (k = k') then Some (default e (ledger s !! k)) else ledger s !! k'.
Proof.
  unfold put_if_absent. case_decide as Hk; [subst k'|].
  - destruct (ledger s !! k) eqn:Hl; cbn; [done|]. by rewrite lookup_insert_eq.
  - destruct (ledger s !! k); cbn; [done|]. by rewrite lookup_insert_ne.
Qed.

Lemma put_if_absent_rest k e s :
  objects (put_if_absent k e s) = objects s ∧
  next_suffix (put_if_absent k e s) = next_suffix s ∧
  writers (put_if_absent k e s) = writers s ∧
  recoverers (put_if_absent k e s) = recoverers s.
Proof. unfold put_if_absent. by destruct (ledger s !! k). Qed.

Lemma mark_complete_ledger k s k' :
  ledger (mark_complete k s) !! k' =
  if decide (k = k')
  then (λ e, {| tempPath := tempPath e; complete := true |}) <$> ledger s !! k
  else ledger s !! k'.
Proof.
  unfold mark_complete. cbn. case_decide as Hk; [subst k'|].
  - by rewrite lookup_alter_eq.
  - by rewrite lookup_alter_ne.
Qed.

Ltac ls_simpl :=
  repeat first
    [ progress cbn [objects ledger next_suffix writers recoverers
                    with_objects with_ledger with_suffix set_writer set_recoverer
                    mark_complete at_pc at_rpc staging
                    w_key w_payload w_tmp w_pc r_key r_pc] in *
    | rewrite (proj1 (put_new_rest _ _ _)) in *
    | rewrite (proj1 (proj2 (put_new_rest _ _ _))) in *
    | rewrite (proj1 (proj2 (proj2 (put_new_rest _ _ _)))) in *
    | rewrite (proj2 (proj2 (proj2 (put_new_rest _ _ _)))) in *
    | rewrite (proj1 (put_if_absent_rest _ _ _)) in *
    | rewrite (proj1 (proj2 (put_if_absent_rest _ _ _))) in *
    | rewrite (proj1 (proj2 (proj2 (put_if_absent_rest _ _ _)))) in *
    | rewrite (proj2 (proj2 (proj2 (put_if_absent_rest _ _ _)))) in * ].

Ltac step_cases H :=
  unfold step, step_writer, step_recoverer, copy_canonical in H;
  repeat (case_match; simplify_eq); ls_simpl.

Lemma objects_monotone who f s s' p b :
  step who f s = Some s' → objects s !! p = Some b → objects s' !! p = Some b.
Proof.
  intros Hs Hp. step_cases Hs; try done.
  all: rewrite put_new_objects; case_decide; subst; ls_simpl; by rewrite ?Hp.
Qed.

Lemma suffix_monotone who f s s' :
  step who f s = Some s' → (next_suffix s ≤ next_suffix s')%nat.
Proof. intros Hs. step_cases Hs; lia. Qed.

Lemma ledger_monotone who f s s' k e :
  step who f s = Some s' → ledger s !! k = Some e →
  ∃ e', ledger s' !! k = Some e' ∧ tempPath e' = tempPath e.
Proof.
  intros Hs Hk. step_cases Hs; eauto.
  all: try (rewrite put_if_absent_ledger; case_decide; subst; rewrite ?Hk; by eauto).
  all: rewrite lookup_alter; case_decide; subst; rewrite ?Hk; by eauto.
Qed.

(** What a step does to one writer. *)
Lemma writers_effect who f s s' j wr' :
  inv s → step who f s = Some s' → writers s' !! j = Some wr' →
  ∃ wr, writers s !! j = Some wr ∧
        w_key wr' = w_key wr ∧ w_payload wr' = w_payload wr ∧
    (wr' = wr ∨
     (who = AWriter j ∧
      match w_pc wr' with
      | WStage => False
      | WClaim =>
          (w_pc wr = WStage ∧ w_tmp wr = None ∧
           w_tmp wr' = Some (Temp (w_key wr) (next_suffix s)) ∧
           objects s !! Temp (w_key wr) (next_suffix s) = None ∧
           objects s' !! Temp (w_key wr) (next_suffix s) = Some (w_payload wr)) ∨
          (w_pc wr = WReconcile ∧ w_tmp wr' = w_tmp wr)
      | WReconcile => w_pc wr = WClaim ∧ w_tmp wr' = w_tmp wr
      | WCopy =>
          w_tmp wr' = w_tmp wr ∧
          ∃ e, ledger s' !! w_key wr = Some e ∧ w_tmp wr = Some (tempPath e)
      | WMark => w_pc wr = WCopy ∧ w_tmp wr' = w_tmp wr
      | WReturned Committed => w_pc wr = WMark ∧ w_tmp wr' = w_tmp wr
      | WReturned CorruptRecovery =>
          w_pc wr = WCopy ∧ w_tmp wr' = w_tmp wr ∧
          ∃ old, objects s !! Canonical (w_key wr) = Some old ∧ old ≠ w_payload wr
      | WReturned _ => w_tmp wr' = w_tmp wr ∧ won wr = false
      end)).
Proof.
  intros (Htemps & Hstaged & Huniq & Howned & Hwon & Hcanon & Hrec & Hsound) Hs Hj.
  destruct who as [i|i]; cbn in Hs.
  2:{ exists wr'. split_and!; try done; [|by left].
      unfold step_recoverer, copy_canonical in Hs.
      repeat (case_match; simplify_eq); ls_simpl; done. }
  destruct (decide (i = j)) as [->|Hij].
  2:{ exists wr'. split_and!; try done; [|by left].
      unfold step_writer, copy_canonical in Hs.
      repeat (case_match; simplify_eq); ls_simpl;
        rewrite ?list_lookup_insert_ne in Hj by done; done. }
  unfold step_writer in Hs.
  destruct (writers s !! j) as [wr|] eqn:Hwr; [|done].
  assert (Hlt : (j < length (writers s))%nat) by by eapply lookup_lt_Some.
  exists wr. cbn in Hs. unfold copy_canonical in Hs.
  assert (Hnone : w_pc wr = WStage → w_tmp wr = None).
  { intros Hpc. destruct (w_tmp wr) as [tmp|] eqn:Htmp; [|done].
    by destruct (Hstaged j wr tmp Hwr Htmp) as (_ & _ & ?). }
  assert (Hfresh : ∀ k, objects s !! Temp k (next_suffix s) = None).
  { intros k. destruct (objects s !! Temp k (next_suffix s)) eqn:Ho; [|done].
    pose proof (Htemps k (next_suffix s) (mk_is_Some _ _ Ho)). lia. }
  assert (Hown : won wr = true →
            ∃ e, ledger s !! w_key wr = Some e ∧ w_tmp wr = Some (tempPath e)).
  { intros Hw. destruct (Hwon j wr Hwr Hw) as (wr0 & e & ? & ? & _ & ?).
    simplify_eq. eauto. }
  destruct (w_pc wr) eqn:Hpc; [..|done];
    destruct f; try destruct (w_tmp wr) as [tmp|] eqn:Htmp;
    try destruct (ledger s !! w_key wr) as [e|] eqn:Hl;
    try destruct (objects s !! Canonical (w_key wr)) as [old|] eqn:Hc;
    cbn in Hs; repeat (case_match; simplify_eq); ls_simpl;
    try (rewrite list_lookup_insert_eq in Hj by done); simplify_eq;
    (split_and!; [done..|]); try (by left); right; (split; [done|]); cbn;
    rewrite ?Hpc.
  all: try (by unfold won; cbn; rewrite ?Hpc).
  all: try done.
  all: try (by right).
  all: try (by eauto).
  all: try (by specialize (Hnone eq_refl)).
  all: try (left; split_and!; try done;
            rewrite put_new_objects, decide_True by done; ls_simpl;
            by rewrite Hfresh).
  all: (split; [done|]).
  all: try (rewrite put_if_absent_ledger, decide_True by done; rewrite Hl; cbn;
            by eauto).
  all: try (by eauto).
  all: try (destruct Hown as (e0 & ? & ?); [by unfold won; rewrite Hpc|];
            simplify_eq; by eauto).
Qed.

(** Where an object that a step added comes from. *)
Lemma objects_new who f s s' p b :
  step who f s = Some s' → objects s' !! p = Some b →
  objects s !! p = Some b ∨
  (objects s !! p = None ∧
   ((∃ i wr, who = AWriter i ∧ writers s !! i = Some wr ∧ w_pc wr = WStage ∧
             p = Temp (w_key wr) (next_suffix s) ∧
             next_suffix s' = S (next_suffix s)) ∨
    (∃ i wr, who = AWriter i ∧ writers s !! i = Some wr ∧ w_pc wr = WCopy ∧
             p = Canonical (w_key wr) ∧ b = w_payload wr) ∨
    (∃ j rc tmp, who = ARecoverer j ∧ recoverers s !! j = Some rc ∧
                 r_pc rc = RCopy tmp b ∧ p = Canonical (r_key rc)))).
Proof.
  intros Hs Hp. destruct (objects s !! p) as [b0|] eqn:Hold.
  { left. pose proof (objects_monotone _ _ _ _ _ _ Hs Hold). congruence. }
  right. split; [done|].
  destruct who as [i|j]; cbn in Hs.
  - unfold step_writer, copy_canonical in Hs.
    destruct (writers s !! i) as [wr|] eqn:Hwr; [|done]. cbn in Hs.
    destruct (w_pc wr) eqn:Hpc; [..|done];
      destruct f; try destruct (w_tmp wr) as [tmp|] eqn:Htmp;
      try destruct (ledger s !! w_key wr) as [e|] eqn:Hl;
      try destruct (objects s !! Canonical (w_key wr)) as [old|] eqn:Hc;
      cbn in Hs; repeat case_match; simplify_eq; ls_simpl;
      try congruence.
    all: rewrite put_new_objects in Hp; ls_simpl; case_decide; [subst p|congruence].
    all: rewrite Hold in Hp; cbn in Hp; simplify_eq.
    all: try (left; by eauto 10).
    all: right; left; by eauto 10.
  - unfold step_recoverer, copy_canonical in Hs.
    destruct (recoverers s !! j) as [rc|] eqn:Hrc; [|done]. cbn in Hs.
    destruct (r_pc rc) eqn:Hpc; try done;
      destruct f;
      try destruct (ledger s !! r_key rc) as [e|] eqn:Hl;
      try destruct (objects s !! Canonical (r_key rc)) as [old|] eqn:Hc;
      cbn in Hs; repeat case_match; simplify_eq; ls_simpl;
      try congruence.
    all: rewrite put_new_objects in Hp; ls_simpl; case_decide; [subst p|congruence].
    all: rewrite Hold in Hp; cbn in Hp; simplify_eq.
    all: right; right; by eauto 10.
Qed.

(** Where a ledger entry comes from. *)
Lemma ledger_new who f s s' k e' :
  step who f s = Some s' → ledger s' !! k = Some e' →
  (∃ e, ledger s !! k = Some e ∧ tempPath e = tempPath e') ∨
  (ledger s !! k = None ∧
   ∃ i wr, who = AWriter i ∧ writers s !! i = Some wr ∧ w_pc wr = WClaim ∧
           w_key wr = k ∧ w_tmp wr = Some (tempPath e')).
Proof.
  intros Hs Hk. destruct (ledger s !! k) as [e|] eqn:Hold.
  { left. destruct (ledger_monotone _ _ _ _ _ _ Hs Hold) as (e1 & He1 & ?).
    exists e. split; [done|]. congruence. }
  right. split; [done|].
  destruct who as [i|j]; cbn in Hs.
  - unfold step_writer, copy_canonical in Hs.
    destruct (writers s !! i) as [wr|] eqn:Hwr; [|done]. cbn in Hs.
    destruct (w_pc wr) eqn:Hpc; [..|done];
      destruct f; try destruct (w_tmp wr) as [tmp|] eqn:Htmp;
      try destruct (ledger s !! w_key wr) as [e|] eqn:Hl;
      try destruct (objects s !! Canonical (w_key wr)) as [old|] eqn:Hc;
      cbn in Hs; repeat case_match; simplify_eq; ls_simpl;
      try congruence.
    all: try (rewrite lookup_alter in Hk; case_decide; subst;
              rewrite ?Hold, ?Hl in Hk; cbn in Hk; congruence).
    all: rewrite put_if_absent_ledger in Hk; case_decide; [subst k|congruence].
    all: rewrite ?Hold, ?Hl in Hk; cbn in Hk; simplify_eq.
    all: by eauto 10.
  - unfold step_recoverer, copy_canonical in Hs.
    destruct (recoverers s !! j) as [rc|] eqn:Hrc; [|done]. cbn in Hs.
    destruct (r_pc rc) eqn:Hpc; try done;
      destruct f;
      try destruct (ledger s !! r_key rc) as [e|] eqn:Hl;
      try destruct (objects s !! Canonical (r_key rc)) as [old|] eqn:Hc;
      cbn in Hs; repeat case_match; simplify_eq; ls_simpl;
      try congruence.
    all: rewrite lookup_alter in Hk; case_decide; subst;
         rewrite ?Hold, ?Hl in Hk; cbn in Hk; congruence.
Qed.

(** A writer keeps its arguments and, once staged, its temporary path. *)
Lemma writers_forward who f s s' i wr :
  inv_staged s →
  step who f s = Some s' → writers s !! i = Some wr →
  ∃ wr', writers s' !! i = Some wr' ∧
         w_key wr' = w_key wr ∧ w_payload wr' = w_payload wr ∧
         (∀ t, w_tmp wr = Some t → w_tmp wr' = Some t).
Proof.
  intros Hstaged Hs Hi.
  assert (Hlt : (i < length (writers s))%nat) by by eapply lookup_lt_Some.
  assert (Hnone : w_pc wr = WStage → w_tmp wr = None).
  { intros Hpc. destruct (w_tmp wr) as [tmp|] eqn:Htmp; [|done].
    by destruct (Hstaged i wr tmp Hi Htmp) as (_ & _ & ?). }
  destruct who as [i0|j]; cbn in Hs.
  - unfold step_writer, copy_canonical in Hs.
    destruct (writers s !! i0) as [wr0|] eqn:Hwr; [|done]. cbn in Hs.
    destruct (w_pc wr0) eqn:Hpc; [..|done];
      destruct f; try destruct (w_tmp wr0) as [tmp|] eqn:Htmp;
      try destruct (ledger s !! w_key wr0) as [e|] eqn:Hl;
      try destruct (objects s !! Canonical (w_key wr0)) as [old|] eqn:Hc;
      cbn in Hs; repeat case_match; simplify_eq; ls_simpl; eauto.
    all: destruct (decide (i0 = i)) as [->|Hne];
      [rewrite list_lookup_insert_eq by done; simplify_eq; eexists;
       split_and!; try done; cbn; intros t Ht;
       try (rewrite Hnone in Ht by done); congruence
      |rewrite list_lookup_insert_ne by done; eauto].
  - unfold step_recoverer, copy_canonical in Hs.
    destruct (recoverers s !! j) as [rc|] eqn:Hrc; [|done]. cbn in Hs.
    destruct (r_pc rc) eqn:Hpc; try done;
      destruct f;
      try destruct (ledger s !! r_key rc) as [e|] eqn:Hl;
      try destruct (objects s !! Canonical (r_key rc)) as [old|] eqn:Hc;
      cbn in Hs; repeat case_match; simplify_eq; ls_simpl; eauto.
Qed.

Lemma at_rpc_same rc pc : r_pc rc = pc → at_rpc pc rc = rc.
Proof. destruct rc. cbn. by intros <-. Qed.

(** What a step does to one recovery. *)
Lemma recoverers_effect who f s s' j rc' :
  step who f s = Some s' → recoverers s' !! j = Some rc' →
  ∃ rc, recoverers s !! j = Some rc ∧ r_key rc' = r_key rc ∧
    (rc' = rc ∨
     match r_pc rc' with
     | RLook => False
     | RFetch tmp => ∃ e, ledger s !! r_key rc = Some e ∧ tempPath e = tmp
     | RCopy tmp bytes => r_pc rc = RFetch tmp ∧ objects s !! tmp = Some bytes
     | RMark | RDone => True
     | RFailed _ =>
         (∃ tmp, r_pc rc = RFetch tmp ∧ objects s !! tmp = None) ∨
         (∃ tmp bytes old, r_pc rc = RCopy tmp bytes ∧
            objects s !! Canonical (r_key rc) = Some old ∧ old ≠ bytes)
     end).
Proof.
  intros Hs Hj. destruct who as [i|j0]; cbn in Hs.
  { exists rc'. split_and!; try done; [|by left].
    unfold step_writer, copy_canonical in Hs.
    repeat case_match; simplify_eq; ls_simpl; done. }
  destruct (decide (j0 = j)) as [->|Hne].
  2:{ exists rc'. split_and!; try done; [|by left].
      unfold step_recoverer, copy_canonical in Hs.
      repeat case_match; simplify_eq; ls_simpl;
        rewrite ?list_lookup_insert_ne in Hj by done; done. }
  unfold step_recoverer, copy_canonical in Hs.
  destruct (recoverers s !! j) as [rc|] eqn:Hrc; [|done].
  assert (Hlt : (j < length (recoverers s))%nat) by by eapply lookup_lt_Some.
  exists rc. cbn in Hs.
  destruct (r_pc rc) eqn:Hpc; try done;
    destruct f;
    try destruct (ledger s !! r_key rc) as [e|] eqn:Hl;
    try destruct (objects s !! Canonical (r_key rc)) as [old|] eqn:Hc;
    cbn in Hs; repeat case_match; simplify_eq; ls_simpl;
    try (rewrite list_lookup_insert_eq in Hj by done); simplify_eq;
    cbn in *; simplify_eq;
    (split_and!; [done..|]); try (by left);
    try (left; by apply at_rpc_same); right; cbn; eauto 10.
Qed.

(** ** The invariant *)

Lemma inv_start jobs recs : inv (start jobs recs).
Proof.
  unfold inv, start. split_and!.
  - intros k n [b Hb]. cbn in Hb. by rewrite lookup_empty in Hb.
  - intros i wr tmp Hi Htmp. cbn in Hi.
    apply list_lookup_fmap_Some in Hi as (job & -> & _). done.
  - intros i j wr wr' tmp Hi _ Htmp. cbn in Hi.
    apply list_lookup_fmap_Some in Hi as (job & -> & _). done.
  - intros k e Hk. cbn in Hk. by rewrite lookup_empty in Hk.
  - intros i wr Hi Hw. cbn in Hi.
    apply list_lookup_fmap_Some in Hi as (job & -> & _). done.
  - intros k p Hp. cbn in Hp. by rewrite lookup_empty in Hp.
  - intros j rc Hj. cbn in Hj.
    apply list_lookup_fmap_Some in Hj as (k & -> & _). done.
  - intros i wr Hi. cbn in Hi.
    apply list_lookup_fmap_Some in Hi as (job & -> & _). done.
Qed.

(** The temporary path of a writer after a step: the one it had, or one
    that was free before the step. *)
Lemma writers_effect_tmp who f s s' j wr' tmp :
  inv s → step who f s = Some s' →
  writers s' !! j = Some wr' → w_tmp wr' = Some tmp →
  ∃ wr, writers s !! j = Some wr ∧ w_key wr' = w_key wr ∧
        w_payload wr' = w_payload wr ∧
        (w_tmp wr = Some tmp ∨
         (who = AWriter j ∧ tmp = Temp (w_key wr) (next_suffix s) ∧
          objects s !! tmp = None ∧ objects s' !! tmp = Some (w_payload wr))).
Proof.
  intros Hinv Hs Hj Htmp.
  destruct (writers_effect _ _ _ _ _ _ Hinv Hs Hj) as (wr & Hwr & Hk & Hp & Heff).
  exists wr. split_and!; try done.
  destruct Heff as [->|[-> Heff]]; [by left|].
  destruct (w_pc wr') as [| | | | |[]]; try done; destruct_and?; destruct_or?;
    destruct_and?; try (left; congruence).
  all: try (right; split_and!; try done; congruence).
Qed.

Lemma step_inv_temps who f s s' :
  inv s → step who f s = Some s' → inv_temps s'.
Proof.
  intros Hinv Hs k n [b Hb]. destruct Hinv as (Htemps & _).
  pose proof (suffix_monotone _ _ _ _ Hs) as Hle.
  destruct (objects_new _ _ _ _ _ _ Hs Hb) as [Hold|[_ Hnew]].
  - pose proof (Htemps k n (mk_is_Some _ _ Hold)). lia.
  - destruct Hnew as [(i & wr & _ & _ & _ & Hp & Hn)|[(i & wr & _ & _ & _ & Hp & _)
                     |(j & rc & tmp & _ & _ & _ & Hp)]]; simplify_eq. lia.
Qed.

Lemma step_inv_staged who f s s' :
  inv s → step who f s = Some s' → inv_staged s'.
Proof.
  intros Hinv Hs i wr' tmp Hi Htmp.
  destruct (writers_effect_tmp _ _ _ _ _ _ _ Hinv Hs Hi Htmp)
    as (wr & Hwr & Hk & Hp & Hcase).
  destruct (writers_effect _ _ _ _ _ _ Hinv Hs Hi) as (wr0 & Hwr0 & _ & _ & Heff).
  assert (wr = wr0) as -> by congruence. clear Hwr.
  destruct Hinv as (_ & Hstaged & _).
  rewrite Hk, Hp. split_and!.
  - destruct Hcase as [Hold|(_ & -> & _)]; [|by eauto].
    by destruct (Hstaged i wr0 tmp Hwr0 Hold) as (? & _).
  - destruct Hcase as [Hold|(_ & _ & _ & ?)]; [|done].
    destruct (Hstaged i wr0 tmp Hwr0 Hold) as (_ & Ho & _).
    by eapply objects_monotone.
  - destruct Heff as [->|[_ Heff]].
    + by destruct (Hstaged i wr0 tmp Hwr0 Htmp) as (_ & _ & ?).
    + intros Hpc. by rewrite Hpc in Heff.
Qed.

Lemma step_inv_unique who f s s' :
  inv s → step who f s = Some s' → inv_unique s'.
Proof.
  intros Hinv Hs i j wr1' wr2' tmp Hi Hj Ht1 Ht2.
  destruct (writers_effect_tmp _ _ _ _ _ _ _ Hinv Hs Hi Ht1)
    as (wr1 & Hwr1 & _ & _ & Hc1).
  destruct (writers_effect_tmp _ _ _ _ _ _ _ Hinv Hs Hj Ht2)
    as (wr2 & Hwr2 & _ & _ & Hc2).
  destruct Hinv as (_ & Hstaged & Huniq & _).
  destruct Hc1 as [Ho1|(Hw1 & _ & Hn1 & _)], Hc2 as [Ho2|(Hw2 & _ & Hn2 & _)].
  - by eapply Huniq.
  - destruct (Hstaged i wr1 tmp Hwr1 Ho1) as (_ & Ho & _). congruence.
  - destruct (Hstaged j wr2 tmp Hwr2 Ho2) as (_ & Ho & _). congruence.
  - congruence.
Qed.

(** An owner stays the owner. *)
Lemma owner_forward who f s s' k i :
  inv s → step who f s = Some s' → owner s k i → owner s' k i.
Proof.
  intros Hinv Hs (wr & e & Hwr & He & Hk & Htmp).
  destruct Hinv as (_ & Hstaged & _).
  destruct (writers_forward _ _ _ _ _ _ Hstaged Hs Hwr) as (wr' & Hwr' & Hk' & _ & Ht').
  destruct (ledger_monotone _ _ _ _ _ _ Hs He) as (e' & He' & Hte).
  exists wr', e'. split_and!; try done; [congruence|]. rewrite Hte. by apply Ht'.
Qed.

Lemma step_inv_owned who f s s' :
  inv s → step who f s = Some s' → inv_owned s'.
Proof.
  intros Hinv Hs k e' Hk. pose proof Hinv as (_ & Hstaged & _ & Howned & _).
  destruct (ledger_new _ _ _ _ _ _ Hs Hk) as [(e & He & _)|(Hnone & i & wr & _ & Hwr & _ & Hkey & Htmp)].
  - destruct (Howned k e He) as [i Hi]. exists i. by eapply owner_forward.
  - exists i.
    destruct (writers_forward _ _ _ _ _ _ Hstaged Hs Hwr) as (wr' & Hwr' & Hk' & _ & Ht').
    exists wr', e'. split_and!; try done; [congruence|by apply Ht'].
Qed.

Lemma step_inv_won who f s s' :
  inv s → step who f s = Some s' → inv_won s'.
Proof.
  intros Hinv Hs i wr' Hi Hw. pose proof Hinv as (_ & _ & _ & _ & Hwon & _).
  destruct (writers_effect _ _ _ _ _ _ Hinv Hs Hi) as (wr & Hwr & Hk & _ & Heff).
  rewrite Hk.
  assert (Hold : won wr = true → owner s' (w_key wr) i).
  { intros Hw0. eapply owner_forward; eauto. }
  destruct Heff as [->|[-> Heff]]; [by apply Hold|].
  unfold won in Hw. destruct (w_pc wr') as [| | | | |[]] eqn:Hpc; try done.
  - destruct Heff as (Ht & e & He & Hte).
    exists wr', e. split_and!; try done. congruence.
  - destruct Heff as (Hpc0 & _). apply Hold. unfold won. by rewrite Hpc0.
  - destruct Heff as (Hpc0 & _). apply Hold. unfold won. by rewrite Hpc0.
Qed.

Lemma step_inv_canonical who f s s' :
  inv s → step who f s = Some s' → inv_canonical s'.
Proof.
  intros Hinv Hs k p Hp.
  pose proof Hinv as (_ & Hstaged & _ & _ & Hwon & Hcanon & Hrec & _).
  assert (Hgo : ∀ e, ledger s !! k = Some e → objects s !! tempPath e = Some p →
            ∃ e', ledger s' !! k = Some e' ∧ objects s' !! tempPath e' = Some p).
  { intros e He Ho. destruct (ledger_monotone _ _ _ _ _ _ Hs He) as (e' & He' & Hte).
    exists e'. split; [done|]. rewrite Hte. by eapply objects_monotone. }
  destruct (objects_new _ _ _ _ _ _ Hs Hp) as [Hold|[_ Hnew]].
  - destruct (Hcanon k p Hold) as (e & He & Ho). by eapply Hgo.
  - destruct Hnew as [(i & wr & _ & _ & _ & Hpath & _)
                     |[(i & wr & _ & Hwr & Hpc & Hpath & ->)
                      |(j & rc & tmp & _ & Hrc & Hpc & Hpath)]]; simplify_eq.
    + destruct (Hwon i wr Hwr) as (wr0 & e & Hwr0 & He & _ & Htmp);
        [unfold won; by rewrite Hpc|].
      assert (wr0 = wr) as -> by congruence.
      destruct (Hstaged i wr _ Hwr Htmp) as (_ & Ho & _). by eapply Hgo.
    + specialize (Hrec j rc Hrc). rewrite Hpc in Hrec.
      destruct Hrec as [(e & He & <-) Ho]. by eapply Hgo.
Qed.

Lemma step_inv_recovering who f s s' :
  inv s → step who f s = Some s' → inv_recovering s'.
Proof.
  intros Hinv Hs j rc' Hj.
  pose proof Hinv as (_ & Hstaged & _ & Howned & _ & Hcanon & Hrec & _).
  destruct (recoverers_effect _ _ _ _ _ _ Hs Hj) as (rc & Hrc & Hk & Heff).
  rewrite Hk. specialize (Hrec j rc Hrc).
  assert (Hgo : ∀ tmp, (∃ e, ledger s !! r_key rc = Some e ∧ tempPath e = tmp) →
            ∃ e', ledger s' !! r_key rc = Some e' ∧ tempPath e' = tmp).
  { intros tmp (e & He & <-). by eapply ledger_monotone. }
  destruct Heff as [->|Heff].
  - destruct (r_pc rc); try done; [by apply Hgo|].
    destruct Hrec as [He Ho]. split; [by apply Hgo|by eapply objects_monotone].
  - destruct (r_pc rc') as [|tmp|tmp bytes| | |r]; try done.
    + by apply Hgo.
    + destruct Heff as [Hpc Ho]. rewrite Hpc in Hrec.
      split; [by apply Hgo|by eapply objects_monotone].
    + destruct Heff as [(tmp & Hpc & Hnone)|(tmp & bytes & old & Hpc & Hold & Hne)];
        rewrite Hpc in Hrec.
      * destruct Hrec as (e & He & <-).
        destruct (Howned _ _ He) as (i & wr & e0 & Hwr & He0 & _ & Htmp).
        assert (e0 = e) as -> by congruence.
        destruct (Hstaged i wr _ Hwr Htmp) as (_ & Ho & _). congruence.
      * destruct Hrec as [(e & He & <-) Ho].
        destruct (Hcanon _ _ Hold) as (e0 & He0 & Ho0).
        assert (e0 = e) as -> by congruence. congruence.
Qed.

Lemma step_inv_sound who f s s' :
  inv s → step who f s = Some s' → inv_sound s'.
Proof.
  intros Hinv Hs i wr' Hi Hpc.
  pose proof Hinv as (_ & Hstaged & _ & _ & Hwon & Hcanon & _ & Hsound).
  destruct (writers_effect _ _ _ _ _ _ Hinv Hs Hi) as (wr & Hwr & _ & _ & Heff).
  destruct Heff as [->|[_ Heff]]; [by eapply Hsound|].
  rewrite Hpc in Heff. destruct Heff as (Hpc0 & _ & old & Hold & Hne).
  destruct (Hwon i wr Hwr) as (wr0 & e & Hwr0 & He & _ & Htmp);
    [unfold won; by rewrite Hpc0|].
  assert (wr0 = wr) as -> by congruence.
  destruct (Hstaged i wr _ Hwr Htmp) as (_ & Ho & _).
  destruct (Hcanon _ _ Hold) as (e0 & He0 & Ho0).
  assert (e0 = e) as -> by congruence. congruence.
Qed.

Lemma step_inv who f s s' : inv s → step who f s = Some s' → inv s'.
Proof.
  intros Hinv Hs. unfold inv.
  split_and!; eauto using step_inv_temps, step_inv_staged, step_inv_unique,
    step_inv_owned, step_inv_won, step_inv_canonical, step_inv_recovering,
    step_inv_sound.
Qed.

Lemma reachable_inv jobs recs s : reachable jobs recs s → inv s.
Proof.
  induction 1 as [|s who f s' _ IH Hs]; [apply inv_start|by eapply step_inv].
Qed.

Lemma store_run_reachable jobs recs sched s s' :
  reachable jobs recs s → run sched s = Some s' → reachable jobs recs s'.
Proof.
  revert s. induction sched as [|[who f] sched IH]; intros s Hr Hrun; cbn in Hrun.
  - by simplify_eq.
  - destruct (step who f s) as [s1|] eqn:Hs; [|done].
    eapply IH; [|done]. by eapply reach_step.
Qed.

(** Writer [i] of a run is the [i]-th commit call of the run. *)
Lemma reachable_jobs jobs recs s i wr :
  reachable jobs recs s → writers s !! i = Some wr →
  jobs !! i = Some (w_key wr, w_payload wr).
Proof.
  intros Hr. revert i wr. induction Hr as [|s who f s' Hr IH Hs]; intros i wr Hi.
  - cbn in Hi. apply list_lookup_fmap_Some in Hi as ([k p] & -> & Hjob). done.
  - destruct (writers_effect _ _ _ _ _ _ (reachable_inv _ _ _ Hr) Hs Hi)
      as (wr0 & Hwr0 & Hk & Hp & _).
    rewrite Hk, Hp. by apply IH.
Qed.

(** C2. In every state of a run, an object at the canonical path of a
    version exists only for a claimed version, and for every claimed
    version there is one writer of the run, the owner of the claim, such
    that: the temporary object the claim names holds that writer's payload;
    whatever is stored at the canonical path of the version is that payload;
    every writer that takes the version for won is that writer; and a
    further step of any writer or reader, under any fault, keeps the claim
    and keeps what is stored at the canonical path. *)
Theorem one_payload_per_version jobs recs s :
  reachable jobs recs s →
  (∀ k p, objects s !! Canonical k = Some p → is_Some (ledger s !! k)) ∧
  (∀ k e, ledger s !! k = Some e →
     ∃ i wr,
       writers s !! i = Some wr ∧ jobs !! i = Some (k, w_payload wr) ∧
       w_tmp wr = Some (tempPath e) ∧
       objects s !! tempPath e = Some (w_payload wr) ∧
       (∀ p, objects s !! Canonical k = Some p → p = w_payload wr) ∧
       (∀ j wr', writers s !! j = Some wr' → w_key wr' = k →
                 won wr' = true → j = i) ∧
       (∀ who f s', step who f s = Some s' →
          (∃ e', ledger s' !! k = Some e' ∧ tempPath e' = tempPath e) ∧
          (∀ p, objects s !! Canonical k = Some p →
                objects s' !! Canonical k = Some p) ∧
          (∀ p, objects s' !! Canonical k = Some p → p = w_payload wr))).
Proof.
  intros Hr. pose proof (reachable_inv _ _ _ Hr) as Hinv.
  pose proof Hinv as (_ & Hstaged & Huniq & Howned & Hwon & Hcanon & _).
  split.
  { intros k p Hp. destruct (Hcanon k p Hp) as (e & He & _). by eexists. }
  intros k e He.
  destruct (Howned k e He) as (i & wr & e0 & Hwr & He0 & Hk & Htmp).
  assert (e0 = e) as -> by congruence.
  destruct (Hstaged i wr _ Hwr Htmp) as (_ & Ho & _).
  exists i, wr. split_and!; try done.
  - rewrite <- Hk. by eapply reachable_jobs.
  - intros p Hp. destruct (Hcanon k p Hp) as (e1 & He1 & Ho1).
    assert (e1 = e) as -> by congruence. congruence.
  - intros j wr' Hj Hk' Hw'.
    destruct (Hwon j wr' Hj Hw') as (wr1 & e1 & Hwr1 & He1 & _ & Htmp1).
    assert (wr1 = wr') as -> by congruence.
    rewrite Hk' in He1. assert (e1 = e) as -> by congruence.
    by eapply Huniq.
  - intros who f s' Hs.
    destruct (ledger_monotone _ _ _ _ _ _ Hs He) as (e' & He' & Hte).
    split_and!; [by eauto|by eauto using objects_monotone|].
    intros p Hp.
    destruct (step_inv_canonical _ _ _ _ Hinv Hs k p Hp) as (e1 & He1 & Ho1).
    assert (e1 = e') as -> by congruence.
    rewrite Hte in Ho1. pose proof (objects_monotone _ _ _ _ _ _ Hs Ho). congruence.
Qed.

Lemma one_payload_per_version_witness :
  ledger race_state !! race_key =
    Some {| tempPath := Temp race_key 0; complete := true |} ∧
  objects race_state !! Canonical race_key = Some "commit of writer A" ∧
  ∃ i wr,
    writers race_state !! i = Some wr ∧
    race_jobs !! i = Some (race_key, w_payload wr) ∧
    (∀ p, objects race_state !! Canonical race_key = Some p → p = w_payload wr) ∧
    (∀ j wr', writers race_state !! j = Some wr' → w_key wr' = race_key →
              won wr' = true → j = i).
Proof.
  assert (Hr : reachable race_jobs race_recs race_state).
  { apply (store_run_reachable race_jobs race_recs race_sched (start race_jobs race_recs));
      [apply reach_start|]. vm_compute. reflexivity. }
  destruct (one_payload_per_version race_jobs race_recs race_state Hr) as [_ Hone].
  destruct (Hone race_key {| tempPath := Temp race_key 0; complete := true |})
    as (i & wr & Hwr & Hjob & _ & _ & Hcan & Huniq & _).
  - vm_compute. reflexivity.
  - split_and!; [vm_compute; reflexivity..|].
    exists i, wr. split_and!; done.
Defined.

End LogStoreFacts.

(** * Further properties of the script *)
(** * Further properties of the script *)

Section Dispatch.
Context {T : Type} `{!DeltaTable T}.
Variable cfg : Config.
Variable w : World.

Lemma saves_of_snoc n who act (s s' : @State T) :
  trace s' = trace s ++ [(who, act)] →
  saves_of n s' = saves_of n s ++
    match who, act with
    | Writer m, ASave _ ok => if decide (m = n) then [ok] else []
    | _, _ => []
    end.
Proof.
  unfold saves_of. intros ->. rewrite omap_app. f_equal.
  destruct who, act; cbn; try done. by case_decide.
Qed.

Lemma saves_of_frame n (s s' : @State T) evs :
  trace s' = trace s ++ evs → (∀ e, e ∈ evs → ∀ m, e.1 ≠ Writer m) →
  saves_of n s' = saves_of n s.
Proof.
  unfold saves_of. intros -> Hevs. rewrite omap_app.
  induction evs as [|[who act] evs IH]; cbn; [by rewrite app_nil_r|].
  assert (Hw : ∀ m, who ≠ Writer m).
  { intros m. apply (Hevs (who, act)). by left. }
  destruct who; try (by destruct (Hw n0)); cbn;
    apply IH; intros e He; apply Hevs; by right.
Qed.

Lemma step_dispatch_inv who (s s' : @State T) :
  wf cfg w s → dispatch_inv cfg s → step cfg w who s = Some s' →
  dispatch_inv cfg s'.
Proof.
  intros Hwf [Hlen Hsaves] Hs. destruct who as [|i|n0|n0]; cbn in Hs.
  - destruct (step_main_frame cfg w s s' Hs) as ((evs & Htr & Hevs) & _ & _).
    assert (Hsv : ∀ n, saves_of n s' = saves_of n s).
    { intros n. apply (saves_of_frame n s s' evs Htr).
      intros e He m. destruct (Hevs e He) as [-> _]. done. }
    assert (Hts : tasks s' = tasks s ∨
              (tasks s = [] ∧ tasks s' = replicate (Z.to_nat (num_rows cfg)) Pending)).
    { destruct Hwf as (_ & _ & Hpc). unfold step_main in Hs.
      destruct (main s) eqn:Hm; repeat case_match; simplify_eq; cbn; eauto.
      right. by destruct Hpc as (_ & ? & _). }
    split.
    + destruct Hts as [->|[_ ->]]; [done|]. right. apply length_replicate.
    + intros n. rewrite Hsv, Hsaves.
      destruct Hts as [->|[Hnil ->]]; [done|]. rewrite Hnil, lookup_nil.
      destruct (replicate _ Pending !! n) as [t|] eqn:Hn; [|done].
      by apply lookup_replicate in Hn as [-> _].
  - destruct (step_reader_trace w i s s' Hs) as (act & Htr & _).
    apply (step_reader_inv w) in Hs as (_ & _ & _ & _ & _ & _ & Hts & _).
    split; [by rewrite Hts|]. intros n. rewrite Hts, <- Hsaves.
    rewrite (saves_of_snoc n _ _ s s' Htr). cbn. by rewrite app_nil_r.
  - unfold step_writer in Hs.
    destruct (tasks s !! n0) as [[]|] eqn:Hn0; try done.
    + case_decide; simplify_eq. split.
      * cbn. rewrite length_insert. destruct Hlen as [Hnil|?]; [|by right].
        by rewrite Hnil in Hn0.
      * intros n. unfold saves_of in *. cbn. rewrite Hsaves.
        destruct (decide (n = n0)) as [->|Hne].
        -- rewrite Hn0, list_lookup_insert_eq by by eapply lookup_lt_Some. done.
        -- by rewrite list_lookup_insert_ne.
    + destruct (save_append (write_tx_rows w n0) (table s)) as [tb ok] eqn:Hsave.
      simplify_eq. split.
      * cbn. rewrite length_insert. destruct Hlen as [Hnil|?]; [|by right].
        by rewrite Hnil in Hn0.
      * intros n.
        match goal with |- saves_of n ?s1 = _ =>
          rewrite (saves_of_snoc n (Writer n0) (ASave (write_tx_rows w n0) ok) s s1)
            by reflexivity
        end.
        cbn [tasks emit with_table with_tasks].
        destruct (decide (n0 = n)) as [->|Hne].
        -- rewrite Hsaves, Hn0, list_lookup_insert_eq by by eapply lookup_lt_Some.
           by destruct ok.
        -- rewrite list_lookup_insert_ne by done. by rewrite app_nil_r.
  - apply step_abandon_inv in Hs as (Hn0 & _ & ->). split.
    + cbn. rewrite length_insert. destruct Hlen as [Hnil|?]; [|by right].
      by rewrite Hnil in Hn0.
    + intros n. unfold saves_of in *. cbn. rewrite Hsaves.
      destruct (decide (n = n0)) as [->|Hne].
      * rewrite Hn0, list_lookup_insert_eq by by eapply lookup_lt_Some. done.
      * by rewrite list_lookup_insert_ne.
Qed.

Lemma reachable_dispatch_inv (tb : T) (s : @State T) :
  reachable cfg w tb s → dispatch_inv cfg s.
Proof.
  induction 1 as [|s who s' Hr IH Hs].
  - split; [by left|]. intros n. cbn. by rewrite lookup_nil.
  - eapply step_dispatch_inv; eauto using reachable_wf.
Qed.

(** X1. No transaction is saved twice; a transaction has saved successfully
    exactly when its call is done; no number outside [range(num_rows)] is
    ever saved; and once the stop signal is given, every number of
    [range(num_rows)] has been saved exactly once, successfully. *)
Theorem each_transaction_saved_once (tb : T) (s : @State T) :
  reachable cfg w tb s →
  (∀ n, (length (saves_of n s) ≤ 1)%nat) ∧
  (∀ n, saves_of n s = [true] ↔ tasks s !! n = Some Done) ∧
  (∀ n, (Z.to_nat (num_rows cfg) ≤ n)%nat → saves_of n s = []) ∧
  (stop_reading s = true →
     ∀ n, (n < Z.to_nat (num_rows cfg))%nat → saves_of n s = [true]).
Proof.
  intros Hr. destruct (reachable_dispatch_inv tb s Hr) as [Hlen Hsaves].
  destruct (reachable_wf cfg w tb s Hr) as (Hstop & _).
  split_and!.
  - intros n. rewrite Hsaves. by repeat case_match; cbn; lia.
  - intros n. rewrite Hsaves. split; [by repeat case_match|by intros ->].
  - intros n Hn. rewrite Hsaves.
    assert (tasks s !! n = None) as ->; [|done].
    apply lookup_ge_None. destruct Hlen as [Hl | Hl]; rewrite Hl; cbn; lia.
  - intros Hst n Hn. destruct (Hstop Hst) as [Hdone Hl].
    rewrite Hsaves. destruct (tasks s !! n) as [t|] eqn:Ht.
    + by rewrite (Hdone n t Ht).
    + apply lookup_ge_None in Ht. lia.
Qed.

End Dispatch.

Section Progress.
Context {T : Type} `{!DeltaTable T}.
Variable cfg : Config.
Variable w : World.

Lemma pool_has_worker (tb : T) (s : @State T) :
  reachable cfg w tb s → main s = PWait → 1 ≤ concurrent_writers cfg.
Proof.
  assert (∀ s0 : @State T, reachable cfg w tb s0 →
            match main s0 with
            | PTimer | PMap | PWait => 1 ≤ concurrent_writers cfg
            | _ => True
            end) as Hinv.
  { induction 1 as [|s0 who s1 Hr IH Hs]; [done|].
    destruct who as [|i|n|n]; cbn in Hs.
    - unfold step_main in Hs.
      destruct (main s0) eqn:Hm; cbn in Hs;
        repeat match type of Hs with
               | context [match ?x with _ => _ end] => destruct x eqn:?
               end;
        simplify_eq; cbn; rewrite ?Hm; try done; lia.
    - apply step_reader_inv in Hs as (? & ? & _ & _ & _ & -> & _). done.
    - apply step_writer_inv in Hs as (? & ? & _ & _ & _ & _ & -> & _). done.
    - apply step_abandon_inv in Hs as (_ & _ & ->). done. }
  intros Hr Hm. specialize (Hinv s Hr). by rewrite Hm in Hinv.
Qed.

Lemma unfinished_lookup (ts : list TaskSt) :
  forallb finished ts = false →
  ∃ n t, ts !! n = Some t ∧ finished t = false.
Proof.
  induction ts as [|t ts IH]; [done|]. cbn.
  destruct (finished t) eqn:Ht; cbn.
  - intros (n & t' & Hn & Ht')%IH. by exists (S n), t'.
  - intros _. by exists 0%nat, t.
Qed.

Lemma running_lookup (s : @State T) :
  (0 < running_tasks s)%nat → ∃ m, tasks s !! m = Some Running.
Proof.
  unfold running_tasks. intros Hlen.
  destruct (filter (λ t, t = Running) (tasks s)) as [|t l] eqn:Hf; [cbn in Hlen; lia|].
  assert (t ∈ filter (λ t, t = Running) (tasks s)) as [-> Hin]%list_elem_of_filter
    by (rewrite Hf; by left).
  by apply list_elem_of_lookup in Hin.
Qed.

Lemma running_can_step (s : @State T) m :
  tasks s !! m = Some Running → is_Some (step cfg w (Writer m) s).
Proof.
  intros Hm. cbn. unfold step_writer. rewrite Hm.
  by destruct (save_append _ _).
Qed.

(** X2. The threads never block one another for good: in every state the
    script can reach, some thread can take a step, unless the main thread has
    come to the end of the script, has left it, or has ended by an
    exception. *)
Theorem no_deadlock (tb : T) (s : @State T) :
  reachable cfg w tb s →
  (∃ who, is_Some (step cfg w who s)) ∨
  main s = PDone ∨ (∃ code, main s = PExit code) ∨ (∃ e, main s = PRaised e).
Proof.
  intros Hr. pose proof (reachable_wf cfg w tb s Hr) as (_ & _ & Hpc).
  destruct (main s) eqn:Hm; try (by eauto 6);
    try (left; exists Main; cbn; unfold step_main; rewrite Hm;
         by repeat case_match).
  - (* pool.map *)
    left. destruct (forallb finished (tasks s)) eqn:Hfin.
    { exists Main. cbn. unfold step_main. rewrite Hm, Hfin. by case_match. }
    apply unfinished_lookup in Hfin as (n & t & Hn & Ht).
    destruct t; try done; [|exists (Writer n); by apply running_can_step].
    destruct (decide (Z.of_nat (running_tasks s) < concurrent_writers cfg)) as [Hlt|Hge].
    + exists (Writer n). cbn. unfold step_writer. by rewrite Hn, decide_True.
    + pose proof (pool_has_worker tb s Hr Hm).
      destruct (running_lookup s) as [m Hrun]; [lia|].
      exists (Writer m). by apply running_can_step.
  - (* join *)
    left. destruct (read_threads s !! k) as [r|] eqn:Hk.
    + destruct (terminated r) eqn:Ht.
      * exists Main. cbn. unfold step_main. by rewrite Hm, Hk, Ht.
      * exists (Reader k). cbn. unfold step_reader. rewrite Hk.
        destruct r; try done; by repeat case_match.
    + exists Main. cbn. unfold step_main. by rewrite Hm, Hk.
  - (* the elapsed time *)
    left. exists Main. cbn. unfold step_main. rewrite Hm.
    destruct Hpc as (_ & _ & -> & _). by eexists.
Qed.

End Progress.

Section Hang.
Context {T : Type} `{!DeltaTable T}.
Variable cfg : Config.
Variable w : World.

Lemma acts_elem_of who act (s : @State T) :
  act ∈ acts who s → (who, act) ∈ trace s.
Proof.
  unfold acts. intros Hin.
  apply list_elem_of_omap in Hin as ([who' act'] & He & Hsome).
  cbn in Hsome. case_decide; simplify_eq. done.
Qed.

Lemma raised_stays sched (s s' : @State T) e :
  main s = PRaised e → run cfg w sched s = Some s' →
  main s' = PRaised e ∧ stop_reading s' = stop_reading s.
Proof.
  revert s. induction sched as [|who sched IH]; intros s Hm Hrun; cbn in Hrun.
  { by simplify_eq. }
  destruct (step cfg w who s) as [s1|] eqn:Hs; [|done].
  assert (main s1 = PRaised e ∧ stop_reading s1 = stop_reading s) as [Hm1 Hst1].
  { destruct who as [|i|n|n]; cbn in Hs.
    - unfold step_main in Hs. by rewrite Hm in Hs.
    - apply (step_reader_inv w) in Hs as (_ & _ & _ & _ & _ & -> & _ & -> & _). done.
    - apply (step_writer_inv cfg w) in Hs as (_ & _ & _ & _ & _ & _ & -> & _ & -> & _).
      done.
    - apply step_abandon_inv in Hs as (_ & _ & ->). done. }
  destruct (IH s1 Hm1 Hrun) as [? ?]. split; congruence.
Qed.

(** X3. A reader returns only after the stop signal was given.  So when the
    main thread has ended by an exception while the signal is not given (the
    pool could not be created, a call of [pool.map] raised, ...), it is never
    given: in every later state the signal is unset and no reader has
    returned, while every reader that has not ended can take a further
    step. *)
Theorem readers_outlive_failed_main (tb : T) (s : @State T) :
  reachable cfg w tb s →
  (∀ i, read_threads s !! i = Some RReturned → stop_reading s = true) ∧
  (∀ i r, read_threads s !! i = Some r → terminated r = false →
          is_Some (step cfg w (Reader i) s)) ∧
  (∀ e, main s = PRaised e → stop_reading s = false →
     ∀ sched s', run cfg w sched s = Some s' →
       main s' = PRaised e ∧ stop_reading s' = false ∧
       ∀ i, read_threads s' !! i ≠ Some RReturned).
Proof.
  intros Hr.
  assert (Hret : ∀ (s0 : @State T), reachable cfg w tb s0 →
            ∀ i, read_threads s0 !! i = Some RReturned → stop_reading s0 = true).
  { intros s0 Hr0 i Hi. destruct (reachable_rinv cfg w tb s0 Hr0) as [Hpoll Hseen].
    specialize (Hpoll i). rewrite Hi in Hpoll.
    destruct Hpoll as (rounds & tail & Hacts & _ & Htail). cbn in Htail. subst tail.
    apply (Hseen i), acts_elem_of. rewrite Hacts. set_solver. }
  split_and!.
  - by apply Hret.
  - intros i r Hi Ht. cbn. unfold step_reader. rewrite Hi.
    destruct r; try done; by repeat case_match.
  - intros e Hm Hst sched s' Hrun.
    destruct (raised_stays sched s s' e Hm Hrun) as [Hm' Hst'].
    rewrite Hst in Hst'. split_and!; try done.
    intros i Hi.
    pose proof (Hret s' (run_reachable cfg w tb sched s s' Hr Hrun) i Hi). congruence.
Qed.

(** Where a failed assertion in the trace comes from. *)
Lemma assert_false_origin who (s s' : @State T) :
  step cfg w who s = Some s' → (Main, AAssert false) ∈ trace s' →
  (Main, AAssert false) ∈ trace s ∨
  ∃ actual, main s = PAssert actual ∧ actual ≠ num_rows cfg.
Proof.
  intros Hs Hin. destruct who as [|i|n|n]; cbn in Hs.
  - unfold step_main in Hs.
    destruct (main s) eqn:Hm; repeat case_match; simplify_eq; cbn in Hin;
      rewrite ?elem_of_app, ?list_elem_of_singleton in Hin;
      destruct_or?; simplify_eq; eauto.
  - destruct (step_reader_trace w i s s' Hs) as (act & Htr & _).
    rewrite Htr, elem_of_app, list_elem_of_singleton in Hin.
    destruct Hin as [?|?]; [by left|done].
  - destruct (step_writer_trace cfg w n s s' Hs) as [Htr|[ok Htr]];
      rewrite Htr in Hin; [by left|].
    rewrite elem_of_app, list_elem_of_singleton in Hin.
    destruct Hin as [?|?]; [by left|done].
  - apply step_abandon_inv in Hs as (_ & _ & ->). by left.
Qed.

End Hang.

Section IdealRuns.
Variable cfg : Config.
Variable w : World.
Variable tb : list Row.

Lemma done_tasks_all (s : @State (list Row)) :
  all_done s → done_tasks s = length (tasks s).
Proof.
  unfold all_done, done_tasks. induction (tasks s) as [|t ts IH]; intros Hd; [done|].
  rewrite filter_cons. rewrite decide_True by (by apply (Hd 0%nat)).
  cbn. f_equal. apply IH. intros n t' Hn. by apply (Hd (S n)).
Qed.

(** The count the assertion checks, on a table that behaves as documented. *)
Lemma ideal_count_at_assert (s : @State (list Row)) actual :
  (∀ r, r ∈ tb → run_id r ≠ RUN_ID w) →
  reachable cfg w tb s → main s = PAssert actual →
  actual = Z.of_nat (Z.to_nat (num_rows cfg)).
Proof.
  intros Hfresh Hr Hm.
  pose proof (reachable_tinv cfg w tb s Hr) as Ht.
  destruct (reachable_ideal_inv cfg w tb s Hr) as (Htb & Hlen & Hloads).
  destruct (reachable_wf cfg w tb s Hr) as (Hstop & _ & Hpc).
  rewrite Hm in Hpc. destruct Hpc as (_ & Hst & _). destruct (Hstop Hst) as [Hd Hn].
  pose proof Ht as [_ Ht']. rewrite Hm in Ht'.
  destruct Ht' as (_ & _ & _ & (rows & Hl & ->) & _).
  destruct Hloads as [Hnil|[_ Hl']]; [by rewrite Hnil in Hl|].
  rewrite Hl in Hl'. simplify_eq.
  rewrite Htb, count_rows_app, (count_rows_fresh w tb Hfresh).
  rewrite count_rows_run by (intros r; by apply (written_run_id cfg w)).
  rewrite Hlen, done_tasks_all, Hn by done. lia.
Qed.

(** X4. Against a table that behaves as documented, with a run identifier not
    met in the table before and [num_rows] not negative, the assertion of
    the script never fails: the count it checks is [num_rows], and no run
    records a failed assertion. *)
Theorem assertion_holds_on_ideal_table (s : @State (list Row)) :
  (∀ r, r ∈ tb → run_id r ≠ RUN_ID w) → 0 ≤ num_rows cfg →
  reachable cfg w tb s →
  (Main, AAssert false) ∉ trace s ∧
  (∀ actual, main s = PAssert actual →
     actual = num_rows cfg ∧
     ∃ s', step cfg w Main s = Some s' ∧ main s' = PElapsed).
Proof.
  intros Hfresh Hpos Hr. split.
  - induction Hr as [|s who s' Hr IH Hs]; [by intros []%elem_of_nil|].
    intros Hin. destruct (assert_false_origin cfg w who s s' Hs Hin)
      as [Hold|(actual & Hm & Hne)]; [by apply IH|].
    apply Hne. rewrite (ideal_count_at_assert s actual Hfresh Hr Hm). lia.
  - intros actual Hm.
    assert (Ha : actual = num_rows cfg).
    { rewrite (ideal_count_at_assert s actual Hfresh Hr Hm). lia. }
    split; [done|]. cbn. unfold step_main. rewrite Hm, decide_True by done. eauto.
Qed.

(** X5. With a negative [num_rows] no call is handed out, the count checked
    is 0 and the assertion fails, even against a table that behaves as
    documented. *)
Theorem negative_num_rows_fails (s : @State (list Row)) actual :
  (∀ r, r ∈ tb → run_id r ≠ RUN_ID w) → num_rows cfg < 0 →
  reachable cfg w tb s → main s = PAssert actual →
  actual = 0 ∧ tasks s = [] ∧
  ∃ s', step cfg w Main s = Some s' ∧ main s' = PRaised (AssertionError None).
Proof.
  intros Hfresh Hneg Hr Hm.
  assert (Ha : actual = 0).
  { rewrite (ideal_count_at_assert s actual Hfresh Hr Hm). lia. }
  split_and!; [done| |].
  - destruct (reachable_wf cfg w tb s Hr) as (Hstop & _ & Hpc).
    rewrite Hm in Hpc. destruct Hpc as (_ & Hst & _). destruct (Hstop Hst) as [_ Hn].
    destruct (tasks s); [done|]. cbn in Hn. lia.
  - cbn. unfold step_main. rewrite Hm, decide_False by lia. eauto.
Qed.

End IdealRuns.

Section IdealLoads.
Variable cfg : Config.
Variable w : World.
Variable tb : list Row.

Lemma step_loads_effect who (s s' : @State (list Row)) :
  step cfg w who s = Some s' →
  (∃ extra, table s' = table s ++ extra) ∧
  (loads s' = loads s ∨ (loads s' = loads s ++ [table s] ∧ table s' = table s)).
Proof.
  intros Hs. destruct who as [|i|n|n]; cbn in Hs.
  - unfold step_main in Hs.
    destruct (main s) eqn:Hm; cbn in Hs; repeat case_match; simplify_eq;
      unfold loads; cbn; rewrite ?omap_app; cbn; rewrite ?app_nil_r;
      (split; [by (exists []; rewrite app_nil_r)|]); eauto.
  - unfold step_reader in Hs.
    destruct (read_threads s !! i) as [[]|] eqn:Hi; cbn in Hs; simplify_eq;
      unfold loads; cbn; rewrite ?omap_app; cbn; rewrite ?app_nil_r;
      (split; [by (exists []; rewrite app_nil_r)|]); eauto.
  - unfold step_writer in Hs.
    destruct (tasks s !! n) as [[]|] eqn:Hn; cbn in Hs; repeat case_match;
      simplify_eq; unfold loads; cbn; rewrite ?omap_app; cbn; rewrite ?app_nil_r.
    + split; [by (exists []; rewrite app_nil_r)|by left].
    + split; [by eexists|by left].
  - apply step_abandon_inv in Hs as (_ & _ & ->).
    split; [by (exists []; rewrite app_nil_r)|by left].
Qed.

Lemma step_loads_inv who (s s' : @State (list Row)) :
  loads_inv s → step cfg w who s = Some s' → loads_inv s'.
Proof.
  unfold loads_inv. intros Hinv Hs.
  apply StronglySorted_app in Hinv as (Hpre & Hsorted & _).
  destruct (step_loads_effect who s s' Hs) as ([extra Htb] & [Hl|[Hl Htb']]).
  - rewrite Hl, Htb. apply StronglySorted_app. split_and!; [|done|repeat constructor].
    intros x1 x2 Hx1 ->%list_elem_of_singleton.
    etrans; [apply (Hpre x1 (table s)); [done|by left]|]. by apply prefix_app_r.
  - rewrite Hl, Htb'. apply StronglySorted_app. split_and!; [| |repeat constructor].
    + intros x1 x2 Hx1 ->%list_elem_of_singleton.
      apply elem_of_app in Hx1 as [Hx1| ->%list_elem_of_singleton]; [|done].
      apply (Hpre x1 (table s)); [done|by left].
    + apply StronglySorted_app. split_and!; [done..|repeat constructor].
Qed.

Lemma reachable_loads_inv (s : @State (list Row)) :
  reachable cfg w tb s → loads_inv s.
Proof.
  induction 1 as [|s who s' Hr IH Hs]; [|by eapply step_loads_inv].
  unfold loads_inv. cbn. repeat constructor.
Qed.

Lemma count_rows_prefix rows1 rows2 :
  rows1 `prefix_of` rows2 → 0 ≤ count_rows w rows1 ≤ count_rows w rows2.
Proof.
  intros [k ->]. rewrite count_rows_app. unfold count_rows. lia.
Qed.

Lemma sorted_counts (l : list (list Row)) :
  StronglySorted prefix l → StronglySorted Z.le (count_rows w <$> l).
Proof.
  induction 1 as [|x l Hl IH Hx]; cbn; constructor; [done|].
  apply Forall_fmap. eapply Forall_impl; [done|].
  intros y Hy. cbn. by apply count_rows_prefix.
Qed.

(** X6. On a table that behaves as documented, with a run identifier not met
    in the table before, the counts that [count()] returns over a run, to
    the readers and at last to the main thread, never decrease; each lies
    between 0 and the number of rows the writers have committed, which is at
    most the number of transactions. *)
Theorem counts_never_decrease (s : @State (list Row)) :
  (∀ r, r ∈ tb → run_id r ≠ RUN_ID w) →
  reachable cfg w tb s →
  StronglySorted Z.le (count_rows w <$> loads s) ∧
  (∀ rows, rows ∈ loads s →
     0 ≤ count_rows w rows ≤ Z.of_nat (length (written s))) ∧
  Z.of_nat (length (written s)) ≤ Z.max 0 (num_rows cfg).
Proof.
  intros Hfresh Hr.
  pose proof (reachable_loads_inv s Hr) as Hinv. unfold loads_inv in Hinv.
  apply StronglySorted_app in Hinv as (Hpre & Hsorted & _).
  destruct (reachable_ideal_inv cfg w tb s Hr) as (Htb & Hlen & _).
  assert (Hcount : count_rows w (table s) = Z.of_nat (length (written s))).
  { rewrite Htb, count_rows_app, (count_rows_fresh w tb Hfresh).
    rewrite count_rows_run by (intros r; apply (written_run_id cfg w);
                               by apply (reachable_tinv cfg w tb)).
    lia. }
  split_and!.
  - by apply sorted_counts.
  - intros rows Hrows. rewrite <- Hcount. apply count_rows_prefix.
    apply (Hpre rows (table s)); [done|by left].
  - destruct (reachable_dispatch_inv cfg w tb s Hr) as [Hl _].
    rewrite Hlen. unfold done_tasks.
    match goal with |- context [length (filter ?P (tasks s))] =>
      pose proof (length_filter P (tasks s)) as Hf end.
    destruct Hl as [Hl|Hl]; [rewrite Hl; cbn; lia|lia].
Qed.

End IdealLoads.

Section Causes.
Context {T : Type} `{!DeltaTable T}.
Variable cfg : Config.
Variable w : World.

Lemma raise_cause_frame (s s' : @State T) evs e :
  trace s' = trace s ++ evs →
  (∀ n, tasks s !! n = Some Failed → tasks s' !! n = Some Failed) →
  raise_cause cfg w s e → raise_cause cfg w s' e.
Proof.
  intros Htr Htasks Hc. unfold raise_cause in *. rewrite Htr.
  assert (Hin : ∀ x, x ∈ trace s → x ∈ trace s ++ evs).
  { intros x Hx. apply elem_of_app. by left. }
  destruct Hc as [Hc|[Hc|[Hc|[Hc|[Hc|[Hc|[Hc|[Hc|[Hc|Hc]]]]]]]]]; destruct_and?.
  - left. eauto.
  - right; left. eauto.
  - do 2 right; left. eauto.
  - do 3 right; left. eauto.
  - do 4 right; left. destruct H2 as [n Hn]. eauto 6.
  - do 5 right; left. eauto.
  - do 6 right; left. destruct H2 as (actual & ? & ?). eauto 8.
  - do 7 right; left. eauto.
  - do 8 right; left. eauto.
  - do 9 right. eauto.
Qed.

Lemma cause_inv_frame (s s' : @State T) evs :
  main s' = main s → trace s' = trace s ++ evs →
  (∀ n, tasks s !! n = Some Failed → tasks s' !! n = Some Failed) →
  cause_inv cfg w s → cause_inv cfg w s'.
Proof.
  intros Hm Htr Htasks. unfold cause_inv. rewrite Hm.
  assert (Hin : ∀ x, x ∈ trace s → x ∈ trace s') .
  { intros x Hx. rewrite Htr. apply elem_of_app. by left. }
  destruct (main s); try done; eauto using raise_cause_frame.
  intros [? ?]. eauto.
Qed.

Lemma failed_lookup (ts : list TaskSt) :
  existsb is_failed ts = true → ∃ n, ts !! n = Some Failed.
Proof.
  intros (t & Hin & Ht)%existsb_exists.
  apply list_elem_of_In, list_elem_of_lookup in Hin as [n Hn].
  destruct t; try done. eauto.
Qed.

Ltac cause_atom Hin Hnew :=
  first [ done
        | apply Hnew
        | apply Hin; done
        | apply failed_lookup; done
        | eexists; split; [eassumption|apply Hin; done] ].

Ltac solve_cause Hin Hnew :=
  first [ solve [split_and!; cause_atom Hin Hnew]
        | solve [left; split_and!; cause_atom Hin Hnew]
        | right; solve_cause Hin Hnew ].

Lemma step_cause_inv who (s s' : @State T) :
  wf cfg w s → cause_inv cfg w s → step cfg w who s = Some s' → cause_inv cfg w s'.
Proof.
  intros Hwf Hc Hs. destruct who as [|i|n|n]; cbn in Hs.
  - destruct Hwf as (_ & _ & Hpc). unfold step_main in Hs. unfold cause_inv in *.
    assert (Hin : ∀ x evs, x ∈ trace s → x ∈ trace s ++ evs).
    { intros x evs Hx. apply elem_of_app. by left. }
    assert (Hnew : ∀ x, x ∈ trace s ++ [x]).
    { intros x. apply elem_of_app. right. by left. }
    destruct (main s) eqn:Hm; cbn in Hs;
      repeat match type of Hs with
             | context [match ?x with _ => _ end] => destruct x eqn:?
             end;
      simplify_eq; cbn; rewrite ?Hm; try done;
      try match goal with H : last _ = None |- _ => apply last_None in H as -> end;
      try match type of Hc with _ ∧ _ => destruct Hc as [? ?] end;
      try match type of Hm with
          | _ = PReport _ => destruct Hpc as (_ & _ & _ & _ & ->)
          end;
      eauto; unfold raise_cause; cbn; solve_cause Hin Hnew.
  - destruct (step_reader_trace w i s s' Hs) as (act & Htr & _).
    apply (step_reader_inv w) in Hs as (? & ? & _ & _ & _ & Hm & Ht & _).
    eapply cause_inv_frame; [done..| |done]. by rewrite Ht.
  - pose proof (step_writer_trace cfg w n s s' Hs) as Htr.
    apply (step_writer_inv cfg w) in Hs as (t & t' & Hn & Hfin & _ & Ht & Hm & _).
    assert (Hfailed : ∀ m, tasks s !! m = Some Failed → tasks s' !! m = Some Failed).
    { intros m Hm'. rewrite Ht. rewrite list_lookup_insert_ne; [done|].
      intros ->. rewrite Hn in Hm'. by simplify_eq. }
    destruct Htr as [Htr|[ok Htr]].
    + eapply (cause_inv_frame s s' []); [done|by rewrite app_nil_r|done..].
    + eapply cause_inv_frame; done.
  - apply step_abandon_inv in Hs as (Hn & _ & ->).
    eapply (cause_inv_frame s _ []); [done|by rewrite app_nil_r| |done].
    intros m Hm. cbn. rewrite list_lookup_insert_ne; [done|].
    intros ->. rewrite Hn in Hm. by simplify_eq.
Qed.

Lemma reachable_cause_inv (tb : T) (s : @State T) :
  reachable cfg w tb s → cause_inv cfg w s.
Proof.
  induction 1 as [|s who s' Hr IH Hs]; [done|].
  eapply step_cause_inv; eauto using reachable_wf.
Qed.

(** X7. Why the main thread has ended, when it has ended by an exception,
    as far as the statements of the script and the outcomes of the library
    calls go (running out of memory or of threads, and interrupts, are left
    aside).  The session or the table could not be made; or the pool was
    asked for less than one worker ([ValueError]); or [range(num_rows)] is
    longer than [sys.maxsize], which [pool.map] refuses ([OverflowError]);
    or a call of [pool.map] raised; or the final count could not be loaded;
    or the assertion failed on a count that was printed before; or, the
    assertion having passed, the two clock readings were equal
    ([ZeroDivisionError]), the scan raised, or the scan found no item
    ([IndexError]). *)
Theorem exception_causes (tb : T) (s : @State T) (e : Exn) :
  reachable cfg w tb s → main s = PRaised e →
  (e = LibraryError ∧ (Main, ASession false) ∈ trace s) ∨
  (e = LibraryError ∧ (Main, ASave [] false) ∈ trace s) ∨
  (e = ValueError ∧ concurrent_writers cfg < 1 ∧ (Main, APool false) ∈ trace s) ∨
  (e = OverflowError ∧ maxsize (python w) < num_rows cfg ∧
     (Main, AMap false) ∈ trace s) ∨
  (e = LibraryError ∧ (Main, AMap false) ∈ trace s ∧
     ∃ n, tasks s !! n = Some Failed) ∨
  (e = LibraryError ∧ (Main, ALoad None) ∈ trace s) ∨
  (e = AssertionError None ∧ (Main, AAssert false) ∈ trace s ∧
     ∃ actual, actual ≠ num_rows cfg ∧
       (Main, APrint (LText ("Number of written rows: " +:+ pretty actual)))
         ∈ trace s) ∨
  (e = ZeroDivisionError ∧
     Qeq_bool (Qminus (time_time w 1) (time_time w 0)) 0 = true ∧
     (Main, AAssert true) ∈ trace s) ∨
  (ddb_scan w = Raise e ∧ (Main, AScan false) ∈ trace s ∧
     (Main, AAssert true) ∈ trace s) ∨
  (e = IndexError ∧ ddb_scan w = Ok [] ∧ (Main, AAssert true) ∈ trace s).
Proof.
  intros Hr Hm. pose proof (reachable_cause_inv tb s Hr) as Hc.
  unfold cause_inv in Hc. by rewrite Hm in Hc.
Qed.

End Causes.

(** ** Sample runs *)

Lemma each_transaction_saved_once_witness :
  saves_of 0 s_small_at_count = [true] ∧
  saves_of 1 s_small_at_count = [true] ∧
  saves_of 2 s_small_at_count = [true] ∧
  saves_of 3 s_small_at_count = [].
Proof.
  destruct (each_transaction_saved_once cfg_small world_sample tb_earlier_run
              s_small_at_count) as (_ & _ & Hout & Hall).
  - apply state_after_reachable. vm_compute. by eexists.
  - split_and!; [apply (Hall eq_refl); simpl; lia..|apply Hout; simpl; lia].
Defined.

Lemma readers_outlive_failed_main_witness :
  main s_no_pool = PRaised ValueError ∧
  stop_reading s_no_pool = false ∧
  is_Some (step cfg_no_writers world_sample (Reader 1) s_no_pool) ∧
  ∀ sched s', run cfg_no_writers world_sample sched s_no_pool = Some s' →
    main s' = PRaised ValueError ∧ stop_reading s' = false ∧
    ∀ i, read_threads s' !! i ≠ Some RReturned.
Proof.
  destruct (readers_outlive_failed_main cfg_no_writers world_sample []
              s_no_pool) as (_ & Hlive & Hhang).
  - apply state_after_reachable. vm_compute. by eexists.
  - split_and!; [reflexivity|reflexivity| |].
    + apply (Hlive 1%nat RTest); reflexivity.
    + apply (Hhang ValueError); reflexivity.
Defined.

Lemma assertion_holds_on_ideal_table_witness :
  main s_small_at_assert = PAssert 3 ∧
  (Main, AAssert false) ∉ trace s_small_at_assert ∧
  ∃ s', step cfg_small world_sample Main s_small_at_assert = Some s' ∧
        main s' = PElapsed.
Proof.
  destruct (assertion_holds_on_ideal_table cfg_small world_sample tb_earlier_run
              s_small_at_assert) as (Hnever & Hpass).
  - intros r Hr. apply list_elem_of_singleton in Hr as ->. cbn. discriminate.
  - simpl. lia.
  - apply state_after_reachable. vm_compute. by eexists.
  - split_and!; [reflexivity|done|]. by apply (Hpass 3).
Defined.

Lemma negative_num_rows_fails_witness :
  num_rows cfg_negative = -1 ∧
  main s_negative_at_assert = PAssert 0 ∧
  ∃ s', step cfg_negative world_sample Main s_negative_at_assert = Some s' ∧
        main s' = PRaised (AssertionError None).
Proof.
  destruct (negative_num_rows_fails cfg_negative world_sample tb_earlier_run
              s_negative_at_assert 0) as (_ & _ & Hfail).
  - intros r Hr. apply list_elem_of_singleton in Hr as ->. cbn. discriminate.
  - simpl. lia.
  - apply state_after_reachable. vm_compute. by eexists.
  - reflexivity.
  - split_and!; [reflexivity|reflexivity|done].
Defined.

Lemma counts_never_decrease_witness :
  count_rows world_sample <$> loads s_small_done = [0; 3] ∧
  StronglySorted Z.le (count_rows world_sample <$> loads s_small_done) ∧
  Z.of_nat (length (written s_small_done)) ≤ 3.
Proof.
  destruct (counts_never_decrease cfg_small world_sample tb_earlier_run
              s_small_done) as (Hsorted & _ & Hle).
  - intros r Hr. apply list_elem_of_singleton in Hr as ->. cbn. discriminate.
  - apply state_after_reachable. vm_compute. by eexists.
  - split_and!; [reflexivity|done|done].
Defined.

Lemma no_deadlock_witness :
  (∃ who, is_Some (step cfg_small world_sample who s_small_at_count)) ∨
  main s_small_at_count = PDone ∨
  (∃ code, main s_small_at_count = PExit code) ∨
  (∃ e, main s_small_at_count = PRaised e).
Proof.
  apply (no_deadlock cfg_small world_sample tb_earlier_run s_small_at_count).
  apply state_after_reachable. vm_compute. by eexists.
Defined.

Lemma exception_causes_witness :
  main s_no_pool = PRaised ValueError ∧
  concurrent_writers cfg_no_writers < 1 ∧
  (Main, APool false) ∈ trace s_no_pool.
Proof.
  split; [reflexivity|].
  destruct (exception_causes cfg_no_writers world_sample [] s_no_pool ValueError)
    as [[[=] _]|[[[=] _]|[(_ & ? & ?)|[[[=] _]|[[[=] _]|[[[=] _]|[[[=] _]|[[[=] _]
        |[[Hscan _]|[[=] _]]]]]]]]]].
  - apply state_after_reachable. vm_compute. by eexists.
  - reflexivity.
  - done.
  - vm_compute in Hscan. discriminate.
Defined.

(** * Properties of strings *)

Lemma string_app_cons c s t : String c s +:+ t = String c (s +:+ t).
Proof. reflexivity. Qed.

Lemma string_app_nil_l s : "" +:+ s = s.
Proof. reflexivity. Qed.

Lemma string_app_nil_r s : s +:+ "" = s.
Proof.
  induction s as [|c s IH]; [done|]. by rewrite string_app_cons, IH.
Qed.

Lemma string_app_assoc s t u : (s +:+ t) +:+ u = s +:+ (t +:+ u).
Proof.
  induction s as [|c s IH]; [done|]. by rewrite !string_app_cons, IH.
Qed.

Lemma string_length_app s t :
  String.length (s +:+ t) = (String.length s + String.length t)%nat.
Proof.
  induction s as [|c s IH]; [done|]. rewrite string_app_cons. cbn. by rewrite IH.
Qed.

(** * Properties of the settings *)

Lemma rev_app_no_space s1 s2 :
  no_space s1 = true → no_space s2 = true → no_space (String.rev_app s1 s2) = true.
Proof.
  revert s2. induction s1 as [|c s1 IH]; intros s2 H1 H2; cbn in *; [done|].
  apply andb_true_iff in H1 as [Hc H1]. apply IH; [done|]. cbn. by rewrite Hc.
Qed.

Lemma lstrip_no_space s : no_space s = true → lstrip s = s.
Proof.
  destruct s as [|c r]; cbn; [done|]. intros [Hc _]%andb_true_iff.
  apply negb_true_iff in Hc. by rewrite Hc.
Qed.

Lemma rev_app_rev_app s1 s2 s3 :
  String.rev_app (String.rev_app s1 s2) s3 = String.rev_app s2 (s1 +:+ s3).
Proof.
  revert s2 s3. induction s1 as [|c s1 IH]; intros s2 s3; cbn; [done|].
  by rewrite IH.
Qed.

Lemma strip_no_space s : no_space s = true → strip s = s.
Proof.
  intros Hs. unfold strip. rewrite (lstrip_no_space s Hs).
  rewrite lstrip_no_space by (by apply rev_app_no_space).
  unfold String.rev. rewrite rev_app_rev_app. cbn. apply string_app_nil_r.
Qed.

Lemma pretty_N_char_digit d :
  (d < 10)%N →
  digit_of (pretty_N_char d) = Some (Z.of_N d) ∧
  is_space (pretty_N_char d) = false ∧
  (nat_of_ascii (pretty_N_char d) <? 128)%nat = true ∧
  pretty_N_char d ≠ "-"%char ∧ pretty_N_char d ≠ "+"%char.
Proof.
  intros Hd.
  assert (d = 0 ∨ d = 1 ∨ d = 2 ∨ d = 3 ∨ d = 4 ∨ d = 5 ∨ d = 6 ∨ d = 7
          ∨ d = 8 ∨ d = 9)%N as Hcases by lia.
  repeat (destruct Hcases as [-> | Hcases]); [..|subst d]; by vm_compute.
Qed.

Lemma digit_of_range c d : digit_of c = Some d → 0 ≤ d ≤ 9.
Proof.
  unfold digit_of. case_match eqn:Hc; [|done]. intros [= <-].
  apply andb_true_iff in Hc as [H1%Nat.leb_le H2%Nat.leb_le]. lia.
Qed.

Lemma pretty_N_go_no_space x s :
  no_space s = true → no_space (pretty_N_go x s) = true.
Proof.
  revert s. induction (N.lt_wf_0 x) as [x _ IH]; intros s Hs.
  destruct (decide (x = 0)%N) as [->|Hx]; [done|].
  rewrite pretty_N_go_step by lia. apply IH; [apply N.div_lt; lia|].
  cbn. destruct (pretty_N_char_digit (x `mod` 10)) as (_ & -> & _).
  { apply N.mod_lt. lia. }
  done.
Qed.

Lemma pretty_N_go_ascii x s :
  is_ascii_text s = true → is_ascii_text (pretty_N_go x s) = true.
Proof.
  revert s. induction (N.lt_wf_0 x) as [x _ IH]; intros s Hs.
  destruct (decide (x = 0)%N) as [->|Hx]; [done|].
  rewrite pretty_N_go_step by lia. apply IH; [apply N.div_lt; lia|].
  cbn [is_ascii_text]. destruct (pretty_N_char_digit (x `mod` 10)) as (_ & _ & -> & _).
  { apply N.mod_lt. lia. }
  done.
Qed.

Lemma pretty_N_go_head x s :
  (0 < x)%N →
  ∃ c r, pretty_N_go x s = String c r ∧ c ≠ "-"%char ∧ c ≠ "+"%char.
Proof.
  revert s. induction (N.lt_wf_0 x) as [x _ IH]; intros s Hx.
  rewrite pretty_N_go_step by done.
  destruct (decide (x `div` 10 = 0)%N) as [->|Hd].
  - rewrite pretty_N_go_0.
    destruct (pretty_N_char_digit (x `mod` 10)) as (_ & _ & _ & ? & ?); [|by eauto].
    apply N.mod_lt. lia.
  - apply IH; [apply N.div_lt; lia|by apply N.neq_0_lt_0].
Qed.

Lemma digits_pretty_N_go x s :
  ∃ k, 0 ≤ k ∧ ∀ acc ad,
    digits acc ad (pretty_N_go x s) =
    digits (acc * 10 ^ k + Z.of_N x) (if decide (x = 0)%N then ad else true) s.
Proof.
  revert s. induction (N.lt_wf_0 x) as [x _ IH]; intros s.
  destruct (decide (x = 0)%N) as [->|Hx].
  { exists 0. split; [done|]. intros acc ad. rewrite pretty_N_go_0. cbn.
    f_equal. lia. }
  rewrite pretty_N_go_step by lia.
  destruct (IH (x `div` 10)%N) with (s := String (pretty_N_char (x `mod` 10)) s)
    as (k & Hk & Hgo); [apply N.div_lt; lia|].
  exists (k + 1). split; [lia|]. intros acc ad. rewrite Hgo.
  destruct (pretty_N_char_digit (x `mod` 10)) as (Hdig & _); [apply N.mod_lt; lia|].
  cbn [digits]. rewrite Hdig. f_equal.
  rewrite Z.pow_add_r, Z.pow_1_r by lia.
  pose proof (N.div_mod x 10 ltac:(lia)) as Hdm.
  assert (Z.of_N x = 10 * Z.of_N (x `div` 10) + Z.of_N (x `mod` 10)) as -> by lia.
  lia.
Qed.

(** The number of digits that [pretty] writes for [x] is the least that
    can hold [x]. *)
Lemma digit_count_pretty_N_go x s :
  ∃ d : nat, digit_count (pretty_N_go x s) = (d + digit_count s)%nat ∧
             (x = 0%N → d = 0%nat) ∧
             ((0 < x)%N → (1 ≤ d)%nat ∧ 10 ^ (Z.of_nat d - 1) ≤ Z.of_N x).
Proof.
  revert s. induction (N.lt_wf_0 x) as [x _ IH]; intros s.
  destruct (decide (x = 0)%N) as [->|Hx].
  { exists 0%nat. rewrite pretty_N_go_0. split_and!; [done|done|lia]. }
  rewrite pretty_N_go_step by lia.
  destruct (IH (x `div` 10)%N) with (s := String (pretty_N_char (x `mod` 10)) s)
    as (d & Hd & Hzero & Hpos); [apply N.div_lt; lia|].
  destruct (pretty_N_char_digit (x `mod` 10)) as (Hdig & _); [apply N.mod_lt; lia|].
  exists (S d). rewrite Hd. cbn [digit_count]. rewrite Hdig.
  split_and!; [lia|lia|]. intros _. split; [lia|].
  pose proof (N.div_mod x 10 ltac:(lia)) as Hdm.
  assert (Hx10 : Z.of_N x = 10 * Z.of_N (x `div` 10) + Z.of_N (x `mod` 10)) by lia.
  destruct (decide (x `div` 10 = 0)%N) as [H0|Hne].
  - rewrite (Hzero H0). change (Z.of_nat 1 - 1) with 0. rewrite Z.pow_0_r.
    clear - Hx. lia.
  - destruct Hpos as [Hd1 Hle]; [by apply N.neq_0_lt_0|].
    replace (Z.of_nat (S d) - 1) with ((Z.of_nat d - 1) + 1) by lia.
    rewrite Z.pow_add_r, Z.pow_1_r by lia.
    pose proof (N2Z.is_nonneg (x `mod` 10)) as Hnn.
    clear - Hle Hx10 Hnn. lia.
Qed.

(** What a literal is worth lies below the power of ten of its number of
    digits. *)
Lemma digits_bound lit acc ad x :
  digits acc ad lit = Some x → 0 ≤ acc →
  acc * 10 ^ Z.of_nat (digit_count lit) ≤ x
    < (acc + 1) * 10 ^ Z.of_nat (digit_count lit) ∧
  (ad = false → (1 ≤ digit_count lit)%nat).
Proof.
  revert acc ad. induction lit as [|c r IH]; intros acc ad; cbn [digits digit_count].
  { destruct ad; [|done]. intros [= <-] Hacc. cbn. split; [lia|done]. }
  destruct (digit_of c) as [d|] eqn:Hc.
  - intros Hd Hacc. pose proof (digit_of_range c d Hc) as Hrange.
    destruct (IH _ _ Hd) as [Hb _]; [lia|].
    replace (Z.of_nat (1 + digit_count r)) with (Z.of_nat (digit_count r) + 1) by lia.
    rewrite Z.pow_add_r, Z.pow_1_r by lia.
    pose proof (Z.pow_pos_nonneg 10 (Z.of_nat (digit_count r))) as Hpow.
    split; [nia|lia].
  - destruct (Ascii.eqb c "_" && ad) eqn:Hu; [|done].
    apply andb_true_iff in Hu as [_ ->].
    intros Hd Hacc. destruct (IH _ _ Hd Hacc) as [Hb Hone].
    cbn. split; [done|done].
Qed.

Lemma too_many_digits_mono py (n m : nat) :
  (n ≤ m)%nat → too_many_digits py m = false → too_many_digits py n = false.
Proof.
  unfold too_many_digits. intros Hnm.
  rewrite !andb_false_iff, !Nat.ltb_ge. lia.
Qed.

Lemma pretty_Zpos p : pretty (Z.pos p) = pretty_N_go (N.pos p) "".
Proof.
  unfold pretty, pretty_Z, pretty, pretty_positive, pretty, pretty_N.
  by rewrite decide_False.
Qed.

Lemma pretty_Zneg p :
  pretty (Z.neg p) = String "-"%char (pretty_N_go (N.pos p) "").
Proof.
  unfold pretty, pretty_Z, pretty, pretty_positive, pretty, pretty_N.
  by rewrite decide_False.
Qed.

(** [pretty] writes a number that is worth less than ten to the [n] with
    at most [n] digits. *)
Lemma digit_count_pretty_le (x : Z) (n : nat) :
  0 ≤ x < 10 ^ Z.of_nat n → (1 ≤ n)%nat →
  (digit_count (pretty x) ≤ n)%nat.
Proof.
  intros Hx Hn. destruct x as [|p|p]; [by cbn|..|lia].
  rewrite pretty_Zpos.
  destruct (digit_count_pretty_N_go (N.pos p) "") as (d & -> & _ & Hpos).
  destruct Hpos as [Hd Hle]; [lia|]. cbn [digit_count]. rewrite Nat.add_0_r.
  destruct (decide (d ≤ n)%nat) as [?|Hgt]; [done|]. exfalso.
  assert (10 ^ Z.of_nat n ≤ 10 ^ (Z.of_nat d - 1)) by (apply Z.pow_le_mono_r; lia).
  lia.
Qed.

Lemma int_of_str_unsigned py s c r :
  is_ascii_text s = true →
  strip s = String c r → c ≠ "-"%char → c ≠ "+"%char →
  int_of_str py s = match digits 0 false (String c r) with
                    | Some z =>
                        if too_many_digits py (digit_count (String c r))
                        then Raise ValueError else Ok z
                    | None => Raise ValueError
                    end.
Proof.
  intros Ha Hs Hm Hp. unfold int_of_str. rewrite Ha, Hs. cbv zeta.
  destruct c as [[] [] [] [] [] [] [] []]; done.
Qed.

Lemma int_of_str_negative py s r :
  is_ascii_text s = true →
  strip s = String "-"%char r →
  int_of_str py s = match digits 0 false r with
                    | Some z =>
                        if too_many_digits py (digit_count r)
                        then Raise ValueError else Ok (- z)
                    | None => Raise ValueError
                    end.
Proof.
  intros Ha Hs. unfold int_of_str. rewrite Ha, Hs. cbv zeta.
  by destruct (digits 0 false r).
Qed.

Lemma int_of_str_positive py s r :
  is_ascii_text s = true →
  strip s = String "+"%char r →
  int_of_str py s = match digits 0 false r with
                    | Some z =>
                        if too_many_digits py (digit_count r)
                        then Raise ValueError else Ok z
                    | None => Raise ValueError
                    end.
Proof. intros Ha Hs. unfold int_of_str. by rewrite Ha, Hs. Qed.

(** A number that [int] has read from an ASCII text is written by [str]
    within the limit on digits. *)
Lemma int_of_str_fits py s z :
  is_ascii_text s = true → int_of_str py s = Ok z →
  too_many_digits py (digit_count (pretty (Z.abs z))) = false.
Proof.
  intros Ha.
  assert (Hgen : ∀ lit x, digits 0 false lit = Some x →
            too_many_digits py (digit_count lit) = false →
            0 ≤ x ∧ too_many_digits py (digit_count (pretty x)) = false).
  { intros lit x Hd Hfit. destruct (digits_bound lit 0 false x Hd) as [Hb Hone]; [done|].
    split; [lia|]. eapply too_many_digits_mono; [|done].
    apply digit_count_pretty_le; [lia|by apply Hone]. }
  destruct (strip s) as [|c r] eqn:Hs.
  { unfold int_of_str. by rewrite Ha, Hs. }
  destruct (decide (c = "-"%char)) as [->|Hm];
    [|destruct (decide (c = "+"%char)) as [->|Hp]].
  - rewrite (int_of_str_negative py s r Ha Hs).
    destruct (digits 0 false r) as [x|] eqn:Hd; [|done].
    destruct (too_many_digits py (digit_count r)) eqn:Hfit; [done|].
    intros [= <-]. destruct (Hgen r x Hd Hfit) as [Hx Hfx].
    by replace (Z.abs (- x)) with x by lia.
  - rewrite (int_of_str_positive py s r Ha Hs).
    destruct (digits 0 false r) as [x|] eqn:Hd; [|done].
    destruct (too_many_digits py (digit_count r)) eqn:Hfit; [done|].
    intros [= <-]. destruct (Hgen r x Hd Hfit) as [Hx Hfx].
    by replace (Z.abs x) with x by lia.
  - rewrite (int_of_str_unsigned py s c r Ha Hs Hm Hp).
    destruct (digits 0 false (String c r)) as [x|] eqn:Hd; [|done].
    destruct (too_many_digits py (digit_count (String c r))) eqn:Hfit; [done|].
    intros [= <-]. destruct (Hgen _ x Hd Hfit) as [Hx Hfx].
    by replace (Z.abs x) with x by lia.
Qed.

(** [int(str(z))] is [z] when [str(z)] is within the limit on digits. *)
Lemma int_of_str_pretty py (z : Z) :
  too_many_digits py (digit_count (pretty (Z.abs z))) = false →
  int_of_str py (pretty z) = Ok z.
Proof.
  destruct z as [|p|p]; [done|..];
    [change (Z.abs (Z.pos p)) with (Z.pos p)|change (Z.abs (Z.neg p)) with (Z.pos p)];
    rewrite pretty_Zpos; intros Hfit.
  - destruct (pretty_N_go_head (N.pos p) "") as (c & r & Heq & Hm & Hp); [lia|].
    destruct (digits_pretty_N_go (N.pos p) "") as (k & _ & Hgo).
    rewrite (int_of_str_unsigned _ _ c r);
      [|by apply pretty_N_go_ascii
       |rewrite strip_no_space; [done|by apply pretty_N_go_no_space]|done..].
    rewrite <- Heq, Hgo, decide_False, Hfit by done. cbn. done.
  - rewrite pretty_Zneg.
    destruct (digits_pretty_N_go (N.pos p) "") as (k & _ & Hgo).
    rewrite (int_of_str_negative _ _ (pretty_N_go (N.pos p) "")).
    + rewrite Hgo, decide_False, Hfit by done. done.
    + change (is_ascii_text (pretty_N_go (N.pos p) "") = true).
      by apply pretty_N_go_ascii.
    + apply strip_no_space.
      change (no_space (pretty_N_go (N.pos p) "") = true).
      by apply pretty_N_go_no_space.
Qed.

Lemma py_int_fits py env key (d z : Z) :
  (∀ v, env !! key = Some v → is_ascii_text v = true) →
  too_many_digits py (digit_count (pretty (Z.abs d))) = false →
  py_int py (environ_get env key (VInt d)) = Ok z →
  too_many_digits py (digit_count (pretty (Z.abs z))) = false.
Proof.
  intros Ha Hd. unfold environ_get.
  destruct (env !! key) as [v|]; cbn.
  - apply int_of_str_fits. by apply Ha.
  - by intros [= <-].
Qed.

(** X9. The three numbers are shown in the test log in decimal.  When the
    numeric variables that are set hold ASCII texts and the settings are
    read, then exporting the numbers as they are shown gives the same
    settings again: [int(str(z))] is [z] for each of them, the limit on the
    number of digits notwithstanding, since a number that [int] has accepted
    is written with no more digits than the text it was read from. *)
Theorem settings_round_trip (py : Python) (env : Environ) (cfg : Config) :
  (∀ key v,
     key ∈ ["DELTA_CONCURRENT_WRITERS"; "DELTA_CONCURRENT_READERS"; "DELTA_NUM_ROWS"] →
     env !! key = Some v → is_ascii_text v = true) →
  load_config py env = Ok cfg →
  load_config py
    (<["DELTA_CONCURRENT_WRITERS" := pretty (concurrent_writers cfg)]>
       (<["DELTA_CONCURRENT_READERS" := pretty (concurrent_readers cfg)]>
          (<["DELTA_NUM_ROWS" := pretty (num_rows cfg)]> env))) = Ok cfg.
Proof.
  intros Hascii Hl. unfold load_config in *. unfold bind in Hl.
  destruct (py_int py (environ_get env "DELTA_CONCURRENT_WRITERS" (VInt 2)))
    as [zw|] eqn:Hw; [|done].
  destruct (py_int py (environ_get env "DELTA_CONCURRENT_READERS" (VInt 2)))
    as [zr|] eqn:Hr; [|done].
  destruct (py_int py (environ_get env "DELTA_NUM_ROWS" (VInt 16)))
    as [zn|] eqn:Hn; [|done].
  simplify_eq. cbn.
  apply py_int_fits in Hw; [|intros v; apply Hascii; set_solver|done].
  apply py_int_fits in Hr; [|intros v; apply Hascii; set_solver|done].
  apply py_int_fits in Hn; [|intros v; apply Hascii; set_solver|done].
  unfold environ_get at 1. rewrite lookup_insert_eq. cbn.
  rewrite int_of_str_pretty by done. cbn.
  unfold environ_get at 1. rewrite lookup_insert_ne, lookup_insert_eq by done. cbn.
  rewrite int_of_str_pretty by done. cbn.
  unfold environ_get at 1.
  rewrite lookup_insert_ne, lookup_insert_ne, lookup_insert_eq by done. cbn.
  rewrite int_of_str_pretty by done. cbn.
  unfold environ_get_str.
  by rewrite !lookup_insert_ne by done.
Qed.

Lemma settings_round_trip_witness :
  load_config python_sample env_small = Ok cfg_small ∧
  load_config python_sample
    (<["DELTA_CONCURRENT_WRITERS" := "2"]>
       (<["DELTA_CONCURRENT_READERS" := "1"]>
          (<["DELTA_NUM_ROWS" := "3"]> env_small))) = Ok cfg_small.
Proof.
  split; [reflexivity|].
  apply (settings_round_trip python_sample env_small cfg_small); [|reflexivity].
  intros key v Hkey Hv. rewrite !elem_of_cons in Hkey.
  destruct Hkey as [->|[->|[->|[]%elem_of_nil]]]; vm_compute in Hv; by simplify_eq.
Defined.

(** * Properties of the API documentation script *)

Module ApiDocsFacts.
Import ApiDocs.
Import ApiDocs.

Lemma path_loop_closed fuel n i path :
  (n - i < fuel)%nat →
  path_loop fuel n i path = Some (path +:+ copies (n - i) "../").
Proof.
  revert i path. induction fuel as [|fuel IH]; intros i path Hf; [lia|].
  cbn [path_loop]. destruct (decide (i < n)%nat) as [Hi|Hi].
  - rewrite IH by lia. f_equal.
    replace (n - i)%nat with (S (n - (i + 1))) by lia.
    cbn [copies]. by rewrite string_app_assoc.
  - replace (n - i)%nat with 0%nat by lia. cbn [copies].
    by rewrite string_app_nil_r.
Qed.

(** X10. Lines 70-75 end, and leave one [../] for every slash of the file name
    but the first; a name with no slash and a name with one slash both give
    the empty path. *)
Theorem path_to_js_file_closed (fuel : nat) (javadoc_file : string) :
  (str_count javadoc_file "/" - 1 < fuel)%nat →
  path_to_js_file fuel javadoc_file =
    Some (copies (str_count javadoc_file "/" - 1) "../").
Proof.
  intros Hf. unfold path_to_js_file. by rewrite path_loop_closed.
Qed.

Lemma path_to_js_file_closed_total javadoc_file :
  default "" (path_to_js_file (S (str_count javadoc_file "/")) javadoc_file) =
  copies (str_count javadoc_file "/" - 1) "../".
Proof.
  unfold path_to_js_file. rewrite path_loop_closed by lia. done.
Qed.

Lemma count_slash_app s t :
  count_from "/" 0 (s +:+ t) = (count_from "/" 0 s + count_from "/" 0 t)%nat.
Proof.
  induction s as [|c s IH]; [done|]. rewrite string_app_cons.
  cbn [count_from starts_with String.length]. cbn [Nat.sub].
  rewrite IH. by destruct (Ascii.eqb "/" c).
Qed.

Lemma count_slash_concat (parts : list string) :
  Forall (λ p, str_count p "/" = 0%nat) parts →
  str_count (String.concat "/" parts) "/" = (length parts - 1)%nat.
Proof.
  unfold str_count. induction 1 as [|p parts Hp Hparts IH]; [done|].
  destruct parts as [|q parts]; [by cbn|].
  change (String.concat "/" (p :: q :: parts))
    with (p +:+ "/" +:+ String.concat "/" (q :: parts)).
  rewrite !count_slash_app, Hp, IH. cbn. lia.
Qed.

(** X11. For a page that [find] reports as [./d1/.../dk/name], the path to the
    scripts climbs [k] directories, back to the directory the search
    started in. *)
Theorem path_to_js_file_depth (fuel : nat) (dirs : list string) (name : string) :
  Forall (λ p, str_count p "/" = 0%nat) (dirs ++ [name]) →
  (length dirs < fuel)%nat →
  path_to_js_file fuel (String.concat "/" ("." :: dirs ++ [name])) =
    Some (copies (length dirs) "../").
Proof.
  intros Hparts Hf.
  assert (Hc : str_count (String.concat "/" ("." :: dirs ++ [name])) "/"
               = S (length dirs)).
  { rewrite count_slash_concat by (by constructor).
    cbn [length]. rewrite length_app. cbn. lia. }
  unfold path_to_js_file. rewrite Hc, path_loop_closed by lia.
  rewrite string_app_nil_l. do 2 f_equal. lia.
Qed.

Lemma path_to_js_file_depth_witness :
  path_to_js_file 4 "./io/delta/tables/DeltaTable.html" = Some "../../../".
Proof.
  apply (path_to_js_file_depth 4 ["io"; "delta"; "tables"] "DeltaTable.html").
  - repeat constructor.
  - simpl. lia.
Defined.

Lemma path_to_js_file_closed_witness :
  path_to_js_file 2 "./index.html" = Some "".
Proof.
  apply (path_to_js_file_closed 2 "./index.html"). simpl. lia.
Defined.

Lemma lstrip_empty_iff s : lstrip s = "" ↔ blank s = true.
Proof.
  induction s as [|c s IH]; [done|]. cbn.
  destruct (Ascii.is_space c); cbn; [done|]. split; discriminate.
Qed.

Lemma blank_lstrip s : blank (lstrip s) = blank s.
Proof.
  induction s as [|c s IH]; [done|]. cbn.
  destruct (Ascii.is_space c) eqn:Hc; cbn; [done|]. by rewrite Hc.
Qed.

Lemma blank_rev_app s t : blank (String.rev_app s t) = blank s && blank t.
Proof.
  revert t. induction s as [|c s IH]; intros t; [done|]. cbn. rewrite IH. cbn.
  by destruct (Ascii.is_space c), (blank s), (blank t).
Qed.

Lemma rev_app_empty s t : String.rev_app s t = "" → s = "" ∧ t = "".
Proof.
  revert t. induction s as [|c s IH]; intros t; [done|]. cbn.
  intros [_ [=]]%IH.
Qed.

Lemma strip_empty_iff s : strip s = "" ↔ blank s = true.
Proof.
  unfold strip, String.rev. split.
  - intros [Hl _]%rev_app_empty. apply lstrip_empty_iff in Hl.
    rewrite blank_rev_app, blank_lstrip in Hl. by apply andb_true_iff in Hl as [? _].
  - intros Hs.
    assert (lstrip (String.rev_app (lstrip s) "") = "") as ->; [|done].
    apply lstrip_empty_iff. by rewrite blank_rev_app, blank_lstrip, Hs.
Qed.

Lemma split_cons sep s : ∃ h t, split sep s = h :: t.
Proof.
  induction s as [|c s (h & t & IH)]; cbn; [by eauto|].
  destruct (Ascii.eqb c sep); [by eauto|]. rewrite IH. by eauto.
Qed.

Lemma split_app_sep sep a b :
  has_char sep a = false → split sep (a +:+ String sep b) = a :: split sep b.
Proof.
  induction a as [|c a IH]; cbn.
  - intros _. rewrite string_app_nil_l. cbn. by rewrite Ascii.eqb_refl.
  - intros [Hc Ha]%orb_false_iff. rewrite string_app_cons. cbn.
    by rewrite Hc, IH.
Qed.

Lemma split_has_char sep s x : x ∈ split sep s → has_char sep x = false.
Proof.
  revert x. induction s as [|c s IH]; intros x; cbn.
  - by intros ->%list_elem_of_singleton.
  - destruct (Ascii.eqb c sep) eqn:Hc.
    + intros [-> | Hx]%elem_of_cons; [done|by apply IH].
    + destruct (split_cons sep s) as (h & t & Hs). rewrite Hs in IH |- *.
      intros [-> | Hx]%elem_of_cons.
      * cbn. rewrite Hc. apply IH. by left.
      * apply IH. by right.
Qed.

(** X12. Every file name that the loop of line 68 meets is a single line with a
    character that is not white space; when nothing but white space was
    printed, the loop meets no file. *)
Theorem javadoc_files_nonblank_lines (stdout : string) :
  (∀ f, f ∈ javadoc_files stdout →
        has_char (ascii_of_nat 10) f = false ∧ blank f = false ∧ f ≠ "") ∧
  (blank stdout = true → javadoc_files stdout = []).
Proof.
  assert (Hmem : ∀ f, f ∈ javadoc_files stdout →
            has_char (ascii_of_nat 10) f = false ∧ blank f = false ∧ f ≠ "").
  { intros f [Hf Hin]%list_elem_of_filter. split_and!.
    - by eapply split_has_char.
    - destruct (blank f) eqn:Hb; [|done]. by apply strip_empty_iff in Hb.
    - by intros ->. }
  split; [done|]. intros Hb.
  destruct (javadoc_files stdout) as [|f fs] eqn:Hfs; [done|].
  destruct (Hmem f) as (_ & Hf & _); [by left|].
  assert (Hin : f ∈ split (ascii_of_nat 10) stdout).
  { assert (f ∈ javadoc_files stdout) as [_ ?]%list_elem_of_filter; [|done].
    rewrite Hfs. by left. }
  clear Hfs Hmem. exfalso. revert f Hf Hin.
  induction stdout as [|c s IH]; intros f Hf; cbn.
  - intros ->%list_elem_of_singleton. done.
  - cbn in Hb. apply andb_true_iff in Hb as [Hc Hs].
    destruct (Ascii.eqb c (ascii_of_nat 10)).
    + intros [-> | Hx]%elem_of_cons; [done|by eapply IH].
    + destruct (split_cons (ascii_of_nat 10) s) as (h & t & Heq).
      rewrite Heq in IH |- *.
      intros [-> | Hx]%elem_of_cons.
      * cbn in Hf. rewrite Hc in Hf. cbn in Hf. eapply (IH Hs h); [done|by left].
      * eapply (IH Hs f); [done|by right].
Qed.

(** X13. When each name is a single line with a character that is not white
    space, the names are read back from what [find] prints, in order. *)
Theorem javadoc_files_unlines (names : list string) :
  Forall (λ n, has_char (ascii_of_nat 10) n = false ∧ blank n = false) names →
  javadoc_files (unlines names) = names.
Proof.
  unfold javadoc_files.
  induction 1 as [|n names [Hn Hb] _ IH]; [done|].
  change (unlines (n :: names))
    with (n +:+ String (ascii_of_nat 10) (unlines names)).
  rewrite split_app_sep by done. rewrite filter_cons, IH.
  rewrite decide_True; [done|].
  intros Hs%strip_empty_iff. congruence.
Qed.

Lemma javadoc_files_unlines_witness :
  javadoc_files
    ("./io/delta/tables/DeltaTable.html" +:+ nl +:+ "./io/delta/package.html" +:+ nl)
  = ["./io/delta/tables/DeltaTable.html"; "./io/delta/package.html"].
Proof.
  apply (javadoc_files_unlines
           ["./io/delta/tables/DeltaTable.html"; "./io/delta/package.html"]).
  repeat constructor.
Defined.

Lemma replace_absent old new s :
  count_from old 0 s = 0%nat → replace_from old new 0 s = s.
Proof.
  induction s as [|c s IH]; [done|]. cbn [count_from replace_from].
  destruct (starts_with old (String c s)); [done|]. intros Hc. by rewrite IH.
Qed.

Lemma str_replace_absent s old new :
  str_count s old = 0%nat → str_replace s old new = s.
Proof.
  unfold str_count, str_replace. destruct old; [done|]. apply replace_absent.
Qed.

Lemma replace_skip old new a s :
  replace_from old new (String.length a) (a +:+ s) = replace_from old new 0 s.
Proof. induction a as [|c a IH]; [done|]. rewrite string_app_cons. by cbn. Qed.

Lemma starts_with_app p s : starts_with p (p +:+ s) = true.
Proof.
  induction p as [|c p IH]; [done|]. rewrite string_app_cons. cbn.
  by rewrite Ascii.eqb_refl.
Qed.

Lemma starts_with_split old a b :
  starts_with old (a +:+ b) = true →
  starts_with old a = true ∨
  ∃ t, old = a +:+ t ∧ t ≠ "" ∧ starts_with t b = true.
Proof.
  revert a. induction old as [|x old IH]; intros a; [by left|].
  destruct a as [|y a].
  - rewrite string_app_nil_l. intros Hb. right. by exists (String x old).
  - rewrite string_app_cons. cbn.
    intros [Hxy Hrest]%andb_true_iff. apply Ascii.eqb_eq in Hxy as ->.
    rewrite Ascii.eqb_refl. cbn.
    destruct (IH a Hrest) as [Ha|(t & -> & Ht & Hb)]; [by left|].
    right. by exists t.
Qed.

Lemma has_char_app c a b : has_char c (a +:+ b) = has_char c a || has_char c b.
Proof.
  induction a as [|x a IH]; [done|]. rewrite string_app_cons. cbn.
  rewrite IH. by rewrite orb_assoc.
Qed.

(** A pattern whose first character does not come again in it cannot lie
    across the point where a copy of it begins. *)
Lemma starts_with_before c0 old' y a rest :
  has_char c0 old' = false →
  starts_with (String c0 old') (String y a +:+ String c0 rest) = true →
  starts_with (String c0 old') (String y a) = true.
Proof.
  intros Hfree [Ha|(t & Hold & Ht & Hb)]%starts_with_split; [done|].
  destruct t as [|x t]; [done|]. cbn in Hb.
  apply andb_true_iff in Hb as [->%Ascii.eqb_eq _].
  rewrite string_app_cons in Hold. injection Hold as -> ->.
  rewrite has_char_app in Hfree. cbn in Hfree.
  rewrite Ascii.eqb_refl in Hfree. cbn in Hfree.
  by rewrite orb_true_r in Hfree.
Qed.

Lemma replace_before c0 old' new pre post :
  has_char c0 old' = false →
  count_from (String c0 old') 0 pre = 0%nat →
  replace_from (String c0 old') new 0 (pre +:+ String c0 old' +:+ post) =
  pre +:+ replace_from (String c0 old') new 0 (String c0 old' +:+ post).
Proof.
  intros Hfree. induction pre as [|y pre IH]; [done|].
  cbn [count_from]. destruct (starts_with (String c0 old') (String y pre)) eqn:Hs;
    [done|].
  intros Hc. rewrite !string_app_cons. cbn [replace_from].
  destruct (starts_with (String c0 old') (String y (pre +:+ String c0 (old' +:+ post))))
    eqn:Hs'.
  - rewrite <- string_app_cons in Hs'.
    apply starts_with_before in Hs'; [congruence|done].
  - f_equal. rewrite <- string_app_cons. by apply IH.
Qed.

Lemma str_replace_single c0 old' new pre post :
  has_char c0 old' = false →
  str_count pre (String c0 old') = 0%nat →
  str_count post (String c0 old') = 0%nat →
  str_replace (pre +:+ String c0 old' +:+ post) (String c0 old') new =
  pre +:+ new +:+ post.
Proof.
  unfold str_count, str_replace. intros Hfree Hpre Hpost.
  rewrite replace_before by done. f_equal.
  rewrite string_app_cons. cbn [replace_from].
  rewrite <- string_app_cons, starts_with_app. f_equal.
  cbn [String.length]. rewrite Nat.sub_succ, Nat.sub_0_r.
  rewrite replace_skip. by apply replace_absent.
Qed.

Section Files.
Variable verbose : bool.

Lemma log_effect l s :
  ∃ s', log verbose l s = (s', Returns tt) ∧ files s' = files s ∧ cwd s' = cwd s ∧
        (verbose = false → s' = s).
Proof.
  unfold log. destruct verbose; cbn; [|by eauto].
  eexists. split_and!; [done..|]. done.
Qed.

Lemma replace_effect file pattern replacement s :
  ∃ s', files s' = files s ∧ cwd s' = cwd s ∧ (verbose = false → s' = s) ∧
    replace verbose file pattern replacement s =
      match files s !! resolve (cwd s) file with
      | Some str =>
          (with_files (<[resolve (cwd s) file := str_replace str pattern replacement]>
                         (files s)) s',
           Returns tt)
      | None => (s', Raises (IOError file))
      end.
Proof.
  unfold replace, and_then.
  destruct (log_effect
              (Text ("Replacing " +:+ pattern +:+ " with " +:+ replacement
                     +:+ " in file " +:+ file)) s) as (s' & -> & Hf & Hc & Hq).
  exists s'. split_and!; [done..|].
  unfold read_file, write_file. rewrite Hf, Hc.
  destruct (files s !! resolve (cwd s) file); by rewrite ?Hf, ?Hc.
Qed.

Lemma patch_javadoc_file_effect javadoc_file s :
  ∃ s', files s' = files s ∧ cwd s' = cwd s ∧ (verbose = false → s' = s) ∧
    patch_javadoc_file verbose javadoc_file s =
      match files s !! resolve (cwd s) javadoc_file with
      | Some str =>
          (with_files (<[resolve (cwd s) javadoc_file := patched_page javadoc_file str]>
                         (files s)) s',
           Returns tt)
      | None => (s', Raises (IOError javadoc_file))
      end.
Proof.
  unfold patch_javadoc_file, patched_page.
  rewrite path_to_js_file_closed_total. apply replace_effect.
Qed.

End Files.

Section Pages.
Variable verbose : bool.

(** X14. A page with one closing body tag gets two script elements right
    before the tag, the first loading [lib/jquery.js] and the second
    [lib/api-javadocs.js], both deferred, of type [text/javascript] and
    reached by one [../] for every slash of the file name but the first; the
    page is otherwise left as it is, no other file changes, nor does the
    working directory. *)
Theorem scripts_inserted_before_body (javadoc_file pre post : string) (s : Sys) :
  files s !! resolve (cwd s) javadoc_file = Some (pre +:+ "</body>" +:+ post) →
  str_count pre "</body>" = 0%nat →
  str_count post "</body>" = 0%nat →
  let up := copies (str_count javadoc_file "/" - 1) "../" in
  let q := String "034"%char EmptyString in
  ∃ s', patch_javadoc_file verbose javadoc_file s = (s', Returns tt) ∧
        cwd s' = cwd s ∧
        files s' =
          <[resolve (cwd s) javadoc_file :=
              pre
              +:+ "<script defer=" +:+ q +:+ "defer" +:+ q
              +:+ " type=" +:+ q +:+ "text/javascript" +:+ q
              +:+ " src=" +:+ q +:+ up +:+ "lib/jquery.js" +:+ q +:+ "></script>"
              +:+ "<script defer=" +:+ q +:+ "defer" +:+ q
              +:+ " type=" +:+ q +:+ "text/javascript" +:+ q
              +:+ " src=" +:+ q +:+ up +:+ "lib/api-javadocs.js" +:+ q
              +:+ "></script>"
              +:+ "</body>" +:+ post]> (files s).
Proof.
  intros Hfile Hpre Hpost up q.
  destruct (patch_javadoc_file_effect verbose javadoc_file s)
    as (s0 & Hf & Hc & _ & ->).
  rewrite Hfile. eexists. split_and!; [done|done|]. cbn [files with_files]. f_equal.
  unfold patched_page.
  rewrite (str_replace_single "<" "/body>") by done.
  f_equal. fold up.
  unfold javadoc_script_elements, js_script_start, js_script_end, dq.
  change (String (ascii_of_nat 34) EmptyString) with q.
  by rewrite !string_app_assoc.
Qed.

(** X15. A page without the closing tag is written back as it was read. *)
Theorem page_without_body_unchanged (javadoc_file str : string) (s : Sys) :
  files s !! resolve (cwd s) javadoc_file = Some str →
  str_count str "</body>" = 0%nat →
  ∃ s', patch_javadoc_file verbose javadoc_file s = (s', Returns tt) ∧
        cwd s' = cwd s ∧ files s' = files s.
Proof.
  intros Hfile Hc.
  destruct (patch_javadoc_file_effect verbose javadoc_file s)
    as (s0 & Hf & Hcwd & _ & ->).
  rewrite Hfile. eexists. split_and!; [done|done|]. cbn [files with_files].
  unfold patched_page. rewrite str_replace_absent by done.
  by apply insert_id.
Qed.

(** X16. The loop of lines 68-84 over names of different files: it patches the
    files in order and ends at the first one that cannot be read, with
    [IOError]; the files before that one are patched, once each, and no
    other file is touched. *)
Theorem patch_loop_effect (names : list string) (s : Sys) :
  NoDup (resolve (cwd s) <$> names) →
  ∃ s' r k,
    for_each names (patch_javadoc_file verbose) s = (s', r) ∧
    cwd s' = cwd s ∧
    (r = Returns tt ∧ k = length names ∨
     ∃ f, names !! k = Some f ∧ files s !! resolve (cwd s) f = None ∧
          r = Raises (IOError f)) ∧
    (∀ f, f ∈ take k names →
          is_Some (files s !! resolve (cwd s) f) ∧
          files s' !! resolve (cwd s) f =
            patched_page f <$> files s !! resolve (cwd s) f) ∧
    (∀ p, p ∉ resolve (cwd s) <$> take k names → files s' !! p = files s !! p).
Proof.
  revert s. induction names as [|f names IH]; intros s Hnd.
  { exists s, (Returns tt), 0%nat. split_and!; [done|done|by left| |done].
    intros f Hf. by apply elem_of_nil in Hf. }
  rewrite fmap_cons in Hnd. apply NoDup_cons in Hnd as [Hf Hnd].
  cbn [for_each]. unfold and_then.
  destruct (patch_javadoc_file_effect verbose f s) as (s0 & Hf0 & Hc0 & _ & ->).
  destruct (files s !! resolve (cwd s) f) as [str|] eqn:Hfile.
  - set (s1 := with_files _ s0).
    assert (Hc1 : cwd s1 = cwd s) by done.
    destruct (IH s1) as (s' & r & k & Hrun & Hc & Hr & Hpatched & Hframe).
    { by rewrite Hc1. }
    rewrite Hc1 in *.
    assert (Hother : ∀ g, g ∈ names →
              files s1 !! resolve (cwd s) g = files s !! resolve (cwd s) g).
    { intros g Hg. cbn. apply lookup_insert_ne.
      intros Heq. apply Hf. rewrite Heq. by apply list_elem_of_fmap_2. }
    exists s', r, (S k). rewrite Hrun. split_and!; [done|done| | |].
    + destruct Hr as [[-> ->]|(g & Hg & Hnone & ->)]; [by left|right].
      exists g. split_and!; [done| |done].
      rewrite <- Hother; [done|]. by eapply list_elem_of_lookup_2.
    + intros g [-> | Hg]%elem_of_cons.
      * rewrite Hfile. split; [by eexists|].
        rewrite Hframe.
        { cbn. by rewrite lookup_insert_eq. }
        intros (g & Heq & Hg)%list_elem_of_fmap. apply Hf. rewrite Heq.
        apply list_elem_of_fmap_2. by eapply subseteq_take.
      * destruct (Hpatched g Hg) as [Hsome Heq].
        assert (g ∈ names) by (by eapply subseteq_take).
        rewrite Hother in Hsome, Heq by done. done.
    + intros p Hp. cbn [take] in Hp. rewrite fmap_cons in Hp.
      apply not_elem_of_cons in Hp as [Hne Hp].
      rewrite Hframe by done. cbn. by apply lookup_insert_ne.
  - exists s0, (Raises (IOError f)), 0%nat. split_and!; [done|done| | |].
    + right. by exists f.
    + intros g Hg. by apply elem_of_nil in Hg.
    + intros p _. by rewrite Hf0.
Qed.

End Pages.

Lemma resolve_absolute dir path : absolute path = true → resolve dir path = path.
Proof.
  unfold absolute. destruct path as [|c path]; [done|]. cbn [starts_with].
  intros [<-%Ascii.eqb_eq _]%andb_true_iff. done.
Qed.

Section Directories.
Variable is_dir : gmap string string → string → bool.

(** X17. A [with WorkingDirectory(...)] block, whatever its body does, ends in
    the directory it was entered from, whether the body returns or raises;
    or else it raises [OSError] because that directory cannot be entered any
    more. *)
Theorem working_directory_restored {A} (working_directory : string)
    (body : M A) (s s' : Sys) (r : outcome A) :
  absolute (cwd s) = true →
  WorkingDirectory is_dir working_directory body s = (s', r) →
  cwd s' = cwd s ∨ r = Raises (OSError (cwd s)).
Proof.
  intros Habs. unfold WorkingDirectory, chdir.
  destruct (is_dir (files s) (resolve (cwd s) working_directory)).
  - destruct (body _) as [s2 r2]. rewrite (resolve_absolute _ _ Habs).
    destruct (is_dir (files s2) (cwd s)); intros ?; simplify_eq; by eauto.
  - intros ?; simplify_eq. by left.
Qed.

End Directories.

Lemma quiet_ret {A} (a : A) : quiet (ret a).
Proof. intros s s' r. unfold ret. by intros [= <- _]. Qed.

Lemma quiet_raise {A} e : quiet (raise (A := A) e).
Proof. intros s s' r. unfold raise. by intros [= <- _]. Qed.

Lemma quiet_and_then {A B} (m : M A) (k : A → M B) :
  quiet m → (∀ a, quiet (k a)) → quiet (and_then m k).
Proof.
  intros Hm Hk s s' r. unfold and_then.
  destruct (m s) as [s1 [a|e]] eqn:Hms.
  - intros Hks. rewrite (Hk a s1 s' r Hks). by eapply Hm.
  - intros [= <- _]. by eapply Hm.
Qed.

Lemma keeps_cwd_ret {A} (a : A) : keeps_cwd (ret a).
Proof. intros s s' r. unfold ret. by intros [= <- _]. Qed.

Lemma keeps_cwd_raise {A} e : keeps_cwd (raise (A := A) e).
Proof. intros s s' r. unfold raise. by intros [= <- _]. Qed.

Lemma keeps_cwd_and_then {A B} (m : M A) (k : A → M B) :
  keeps_cwd m → (∀ a, keeps_cwd (k a)) → keeps_cwd (and_then m k).
Proof.
  intros Hm Hk s s' r. unfold and_then.
  destruct (m s) as [s1 [a|e]] eqn:Hms.
  - intros Hks. rewrite (Hk a s1 s' r Hks). by eapply Hm.
  - intros [= <- _]. by eapply Hm.
Qed.

Lemma keeps_cwd_restores {A} (m : M A) : keeps_cwd m → restores m.
Proof. intros Hm s s' r _ Hms. left. by eapply Hm. Qed.

Lemma restores_and_then {A B} (m : M A) (k : A → M B) :
  restores m → (∀ a, restores (k a)) → restores (and_then m k).
Proof.
  intros Hm Hk s s' r Habs. unfold and_then.
  destruct (m s) as [s1 [a|e]] eqn:Hms.
  - destruct (Hm s s1 _ Habs Hms) as [Hc|?]; [|done].
    intros Hks. rewrite <- Hc in *. by eapply Hk.
  - intros [= <- <-].
    destruct (Hm s s1 _ Habs Hms) as [?|[= ->]]; [by left|by right].
Qed.

Lemma says_print_then {A} l ls (m : M A) :
  says ls m → says (l :: ls) (and_then (print l) (λ _, m)).
Proof.
  intros Hm s s' r. unfold and_then, print.
  intros (k & Hk & Hp & Hr)%Hm. exists (S k). cbn in *. split_and!; [lia| |].
  - by rewrite Hp, <- app_assoc.
  - rewrite Hr. split; [by intros ->|by intros [= ->]].
Qed.

Lemma says_quiet_then {A B} l ls (q : M A) (m : M B) :
  quiet q → says (l :: ls) m → says (l :: ls) (and_then q (λ _, m)).
Proof.
  intros Hq Hm s s' r. unfold and_then.
  destruct (q s) as [s1 [a|e]] eqn:Hqs.
  - intros (k & Hk & Hp & Hr)%Hm. exists k.
    by rewrite <- (Hq s s1 _ Hqs).
  - intros [= <- <-]. exists 0%nat. cbn. split_and!; [lia| |].
    + rewrite app_nil_r. by eapply Hq.
    + split; [by intros [a [=]]|done].
Qed.

Lemma says_print l : says [l] (print l).
Proof.
  intros s s' r. unfold print. intros [= <- <-]. exists 1%nat.
  split_and!; [done|done|]. split; [done|by eexists].
Qed.

Section Main.
Variable verbose : bool.
Variable is_dir : gmap string string → string → bool.
Variable exec : list string → string → gmap string string →
                gmap string string * (Z * string * string).
Variable docs_root_dir : string.
Variable repo_root_dir : string.

Lemma keeps_cwd_print l : keeps_cwd (print l).
Proof. intros s s' r. unfold print. by intros [= <- _]. Qed.

Lemma keeps_cwd_log l : keeps_cwd (log verbose l).
Proof.
  unfold log. destruct verbose; [apply keeps_cwd_print|apply keeps_cwd_ret].
Qed.

Lemma keeps_cwd_run_cmd cmd throw_on_error stream_output :
  keeps_cwd (run_cmd verbose exec cmd throw_on_error stream_output).
Proof.
  apply keeps_cwd_and_then; [apply keeps_cwd_log|]. intros _ s s' r.
  destruct (exec cmd (cwd s) (files s)) as [fs [[code out] err]].
  destruct (throw_on_error && negb (code =? 0)); by intros [= <- _].
Qed.

Lemma keeps_cwd_read_file path : keeps_cwd (read_file path).
Proof.
  intros s s' r. unfold read_file.
  destruct (files s !! resolve (cwd s) path); by intros [= <- _].
Qed.

Lemma keeps_cwd_append src dst : keeps_cwd (append verbose src dst).
Proof.
  apply keeps_cwd_and_then; [apply keeps_cwd_log|]. intros _.
  apply keeps_cwd_and_then; [apply keeps_cwd_read_file|]. intros str s s' r.
  unfold append_file. by intros [= <- _].
Qed.

Lemma keeps_cwd_replace file pattern replacement :
  keeps_cwd (replace verbose file pattern replacement).
Proof.
  apply keeps_cwd_and_then; [apply keeps_cwd_log|]. intros _.
  apply keeps_cwd_and_then; [apply keeps_cwd_read_file|]. intros str s s' r.
  unfold write_file. by intros [= <- _].
Qed.

Lemma keeps_cwd_for_each {A} (xs : list A) body :
  (∀ x, keeps_cwd (body x)) → keeps_cwd (for_each xs body).
Proof.
  intros Hb. induction xs as [|x xs IH]; [apply keeps_cwd_ret|].
  by apply keeps_cwd_and_then.
Qed.

Lemma keeps_cwd_patch_javadoc :
  keeps_cwd (patch_javadoc verbose exec docs_root_dir repo_root_dir).
Proof.
  apply keeps_cwd_and_then; [apply keeps_cwd_run_cmd|]. intros [code|code out err].
  { apply keeps_cwd_raise. }
  apply keeps_cwd_and_then; [apply keeps_cwd_log|intros _].
  apply keeps_cwd_and_then;
    [apply keeps_cwd_for_each; intros f; apply keeps_cwd_replace|intros _].
  do 3 (apply keeps_cwd_and_then; [apply keeps_cwd_run_cmd|intros _]).
  apply keeps_cwd_append.
Qed.

Lemma restores_working_directory {A} d (body : M A) :
  restores (WorkingDirectory is_dir d body).
Proof.
  intros s s' r Habs Hrun.
  unfold WorkingDirectory, chdir in Hrun.
  destruct (is_dir (files s) (resolve (cwd s) d)).
  - destruct (body _) as [s2 r2]. rewrite (resolve_absolute _ _ Habs) in Hrun.
    destruct (is_dir (files s2) (cwd s)); simplify_eq; by eauto.
  - simplify_eq. by left.
Qed.

Lemma main_body_restores :
  restores (main_body verbose is_dir exec docs_root_dir repo_root_dir).
Proof.
  unfold main_body.
  apply restores_and_then; [apply keeps_cwd_restores, keeps_cwd_print|intros _].
  apply restores_and_then; [apply restores_working_directory|intros _].
  apply restores_and_then; [apply keeps_cwd_restores, keeps_cwd_print|intros _].
  apply restores_and_then; [apply restores_working_directory|intros _].
  apply restores_and_then; [apply keeps_cwd_restores, keeps_cwd_print|intros _].
  apply restores_and_then; [apply restores_working_directory|intros _].
  apply restores_and_then; [apply keeps_cwd_restores, keeps_cwd_log|intros _].
  do 4 (apply restores_and_then;
          [apply keeps_cwd_restores, keeps_cwd_run_cmd|intros _]).
  apply keeps_cwd_restores, keeps_cwd_print.
Qed.

End Main.

(** X18. [main] ends in the directory it was started in, or else raises
    [OSError] because that directory cannot be entered any more. *)
Theorem main_restores_cwd (args : Parsed)
    (is_dir : gmap string string → string → bool)
    (exec : list string → string → gmap string string →
            gmap string string * (Z * string * string))
    (docs_root_dir repo_root_dir : string) (s s' : Sys) (r : outcome unit) :
  absolute (cwd s) = true →
  main args is_dir exec docs_root_dir repo_root_dir s = (s', r) →
  cwd s' = cwd s ∨ r = Raises (OSError (cwd s)).
Proof.
  intros Habs Hrun. destruct args as [verbose|status shown].
  - by eapply main_body_restores.
  - left. cbn in Hrun. unfold and_then, print, ret, raise in Hrun.
    destruct shown; by simplify_eq.
Qed.

Section QuietMain.
Variable is_dir : gmap string string → string → bool.
Variable exec : list string → string → gmap string string →
                gmap string string * (Z * string * string).
Variable docs_root_dir : string.
Variable repo_root_dir : string.

Lemma quiet_log l : quiet (log false l).
Proof. apply quiet_ret. Qed.

Lemma quiet_run_cmd cmd throw_on_error stream_output :
  quiet (run_cmd false exec cmd throw_on_error stream_output).
Proof.
  apply quiet_and_then; [apply quiet_log|]. intros _ s s' r.
  destruct (exec cmd (cwd s) (files s)) as [fs [[code out] err]].
  destruct (throw_on_error && negb (code =? 0)); by intros [= <- _].
Qed.

Lemma quiet_read_file path : quiet (read_file path).
Proof.
  intros s s' r. unfold read_file.
  destruct (files s !! resolve (cwd s) path); by intros [= <- _].
Qed.

Lemma quiet_append src dst : quiet (append false src dst).
Proof.
  apply quiet_and_then; [apply quiet_log|]. intros _.
  apply quiet_and_then; [apply quiet_read_file|]. intros str s s' r.
  unfold append_file. by intros [= <- _].
Qed.

Lemma quiet_replace file pattern replacement :
  quiet (replace false file pattern replacement).
Proof.
  apply quiet_and_then; [apply quiet_log|]. intros _.
  apply quiet_and_then; [apply quiet_read_file|]. intros str s s' r.
  unfold write_file. by intros [= <- _].
Qed.

Lemma quiet_for_each {A} (xs : list A) body :
  (∀ x, quiet (body x)) → quiet (for_each xs body).
Proof.
  intros Hb. induction xs as [|x xs IH]; [apply quiet_ret|].
  by apply quiet_and_then.
Qed.

Lemma quiet_patch_javadoc :
  quiet (patch_javadoc false exec docs_root_dir repo_root_dir).
Proof.
  apply quiet_and_then; [apply quiet_run_cmd|]. intros [code|code out err].
  { apply quiet_raise. }
  apply quiet_and_then; [apply quiet_log|intros _].
  apply quiet_and_then;
    [apply quiet_for_each; intros f; apply quiet_replace|intros _].
  do 3 (apply quiet_and_then; [apply quiet_run_cmd|intros _]).
  apply quiet_append.
Qed.

Lemma quiet_working_directory {A} d (body : M A) :
  quiet body → quiet (WorkingDirectory is_dir d body).
Proof.
  intros Hb s s' r. unfold WorkingDirectory, chdir.
  destruct (is_dir (files s) (resolve (cwd s) d)); [|by intros [= <- _]].
  destruct (body _) as [s2 r2] eqn:Hbody. apply Hb in Hbody.
  destruct (is_dir (files s2) _); by intros [= <- _].
Qed.

(** X19. When the command line is taken without [--verbose], [main]
    prints its four lines in order as far as it gets, the first in any case,
    and nothing else; the last line, that the documentation was generated,
    is printed exactly when [main] returns without an exception.  When the
    parser exits instead (for [-h], or for a command line it refuses),
    [main] prints the help, if that was shown, and none of its lines, runs no
    command and ends by [SystemExit] with the parser's status. *)
Theorem main_prints_banners (s : Sys) :
  (∀ s' r,
     main (Args false) is_dir exec docs_root_dir repo_root_dir s = (s', r) →
     ∃ k, (1 ≤ k ≤ 4)%nat ∧
          printed s' =
            printed s
            ++ take k [ Text "## Generating ScalaDoc and JavaDoc ...";
                        Text "## Patching ScalaDoc ...";
                        Text "## Patching JavaDoc ...";
                        Text ("## API docs generated in "
                              +:+ docs_root_dir +:+ "/_site/api") ] ∧
          (r = Returns tt ↔ k = 4%nat)) ∧
  (∀ status shown,
     main (ParserExit status shown) is_dir exec docs_root_dir repo_root_dir s =
       (with_printed (printed s ++ match shown with
                                   | Some text => [Text text]
                                   | None => []
                                   end) s,
        Raises (SystemExit status))).
Proof.
  split; [|intros status [text|]; cbn;
           unfold and_then, print, ret, raise; cbn;
           [done|by rewrite app_nil_r; destruct s]].
  intros s' r Hrun. cbn [main] in Hrun. unfold main_body in Hrun.
  match type of Hrun with
  | and_then (print ?l) (λ _, ?rest) s = _ =>
      assert (Hsays : says (drop 1 (banners docs_root_dir)) rest);
      [|change (rest (with_printed (printed s ++ [l]) s) = (s', r)) in Hrun]
  end.
  { unfold banners. cbn [drop].
    apply says_quiet_then; [apply quiet_working_directory, quiet_run_cmd|].
    apply says_print_then.
    apply says_quiet_then.
    { apply quiet_working_directory, quiet_and_then; [|intros _]; apply quiet_append. }
    apply says_print_then.
    apply says_quiet_then; [apply quiet_working_directory, quiet_patch_javadoc|].
    apply says_quiet_then; [apply quiet_log|].
    do 4 (apply says_quiet_then; [apply quiet_run_cmd|]).
    apply says_print. }
  destruct (Hsays _ s' r Hrun) as (k & Hk & Hp & Hr). cbn in Hk, Hp.
  exists (S k). split_and!; [lia|lia| |].
  - rewrite Hp, <- app_assoc. done.
  - cbn in Hr. split.
    + intros ->. f_equal. apply Hr. by eauto.
    + intros [= Hk3]. apply Hr in Hk3 as [[] ->]. done.
Qed.

End QuietMain.

(** ** The sample tree *)

Lemma scripts_inserted_before_body_witness :
  ∃ s', patch_javadoc_file false "./io/delta/tables/DeltaTable.html"
          sample_javadoc_sys = (s', Returns tt) ∧
        cwd s' = "/repo/target/javaunidoc" ∧
        files s' !! "/repo/target/javaunidoc/./io/delta/tables/DeltaTable.html" =
          Some ("<html><body><h1>DeltaTable</h1>"
                +:+ "<script defer=" +:+ String "034"%char "defer"
                +:+ String "034"%char " type=" +:+ String "034"%char "text/javascript"
                +:+ String "034"%char " src="
                +:+ String "034"%char "../../../lib/jquery.js"
                +:+ String "034"%char "></script>"
                +:+ "<script defer=" +:+ String "034"%char "defer"
                +:+ String "034"%char " type=" +:+ String "034"%char "text/javascript"
                +:+ String "034"%char " src="
                +:+ String "034"%char "../../../lib/api-javadocs.js"
                +:+ String "034"%char "></script>"
                +:+ "</body></html>") ∧
        files s' !! "/repo/target/javaunidoc/./io/delta/package.html" =
          Some "<html>io.delta</html>".
Proof.
  destruct (scripts_inserted_before_body false "./io/delta/tables/DeltaTable.html"
              "<html><body><h1>DeltaTable</h1>" "</html>" sample_javadoc_sys)
    as (s' & Hrun & Hcwd & Hfiles); [reflexivity..|].
  exists s'. split_and!; [done|done|rewrite Hfiles; reflexivity..].
Defined.

Lemma page_without_body_unchanged_witness :
  ∃ s', patch_javadoc_file false "./io/delta/package.html" sample_javadoc_sys
          = (s', Returns tt) ∧
        cwd s' = "/repo/target/javaunidoc" ∧ files s' = sample_files.
Proof.
  apply (page_without_body_unchanged false "./io/delta/package.html"
           "<html>io.delta</html>" sample_javadoc_sys); reflexivity.
Defined.

Lemma patch_loop_effect_witness :
  ∃ s' r k,
    for_each ["./io/delta/tables/DeltaTable.html"; "./io/delta/Missing.html";
              "./io/delta/package.html"]
      (patch_javadoc_file false) sample_javadoc_sys = (s', r) ∧
    cwd s' = "/repo/target/javaunidoc" ∧
    (r = Returns tt ∧ k = 3%nat ∨
     ∃ f, ["./io/delta/tables/DeltaTable.html"; "./io/delta/Missing.html";
           "./io/delta/package.html"] !! k = Some f ∧
          sample_files !! resolve "/repo/target/javaunidoc" f = None ∧
          r = Raises (IOError f)) ∧
    (∀ f, f ∈ take k ["./io/delta/tables/DeltaTable.html"; "./io/delta/Missing.html";
                      "./io/delta/package.html"] →
          is_Some (sample_files !! resolve "/repo/target/javaunidoc" f) ∧
          files s' !! resolve "/repo/target/javaunidoc" f =
            patched_page f <$> sample_files !! resolve "/repo/target/javaunidoc" f) ∧
    (∀ p, p ∉ resolve "/repo/target/javaunidoc" <$>
                take k ["./io/delta/tables/DeltaTable.html"; "./io/delta/Missing.html";
                        "./io/delta/package.html"] →
          files s' !! p = sample_files !! p).
Proof.
  apply (patch_loop_effect false
           ["./io/delta/tables/DeltaTable.html"; "./io/delta/Missing.html";
            "./io/delta/package.html"] sample_javadoc_sys).
  apply (bool_decide_unpack _). vm_compute. exact I.
Defined.

Lemma working_directory_restored_witness :
  WorkingDirectory sample_is_dir "/repo/target/javaunidoc"
    (raise (A := unit) (IOError "./stylesheet.css")) sample_sys
  = (sample_sys, Raises (IOError "./stylesheet.css")) ∧
  (cwd sample_sys = cwd sample_sys ∨
   Raises (A := unit) (IOError "./stylesheet.css") = Raises (OSError (cwd sample_sys))).
Proof.
  split; [reflexivity|].
  apply (working_directory_restored sample_is_dir "/repo/target/javaunidoc"
           (raise (A := unit) (IOError "./stylesheet.css")) sample_sys);
    reflexivity.
Defined.

Lemma main_restores_cwd_witness :
  cwd (main (Args false) sample_is_dir sample_exec "/repo/docs" "/repo"
         sample_sys).1 = "/repo/docs" ∨
  (main (Args false) sample_is_dir sample_exec "/repo/docs" "/repo" sample_sys).2
    = Raises (OSError "/repo/docs").
Proof.
  apply (main_restores_cwd (Args false) sample_is_dir sample_exec "/repo/docs"
           "/repo" sample_sys); [reflexivity|]. vm_compute. reflexivity.
Defined.

Lemma main_prints_banners_witness :
  main (Args false) sample_is_dir sample_exec "/repo/docs" "/repo" sample_sys =
    ((main (Args false) sample_is_dir sample_exec "/repo/docs" "/repo" sample_sys).1,
     Returns tt) ∧
  printed (main (Args false) sample_is_dir sample_exec "/repo/docs" "/repo"
             sample_sys).1 =
    [ Text "## Generating ScalaDoc and JavaDoc ...";
      Text "## Patching ScalaDoc ...";
      Text "## Patching JavaDoc ...";
      Text "## API docs generated in /repo/docs/_site/api" ] ∧
  main (ParserExit 2 None) sample_is_dir sample_exec "/repo/docs" "/repo" sample_sys
    = (sample_sys, Raises (SystemExit 2)).
Proof.
  assert (Hrun : main (Args false) sample_is_dir sample_exec "/repo/docs" "/repo"
                   sample_sys =
                 ((main (Args false) sample_is_dir sample_exec "/repo/docs" "/repo"
                     sample_sys).1, Returns tt)) by (vm_compute; reflexivity).
  destruct (main_prints_banners sample_is_dir sample_exec "/repo/docs" "/repo"
              sample_sys) as [Hlines Hexit].
  destruct (Hlines _ _ Hrun) as (k & _ & Hp & Hk).
  split_and!; [done| |by rewrite Hexit].
  rewrite Hp. assert (k = 4%nat) as -> by (by apply Hk). reflexivity.
Defined.

End ApiDocsFacts.
